(** * FoxP2P: the signalling state machine of [Host] and [Client]

    A shallow embedding of [src/lib/index.ts].  The two classes are event
    driven: every piece of code runs either as a public method called by the
    application or as a listener that the relay socket or a peer channel
    invokes.  A method or a listener is embedded as a computation in a small
    state-and-exception monad over a world that holds the fields of [this]
    together with the objects it references (sockets and peers live in a
    store and are referred to by their index, so that aliasing between the
    registry, the listeners and [this.peer] is kept).  Closures are
    represented by one constructor per [=>] of the source, carrying the
    variables the closure captures. *)

From stdpp Require Import base decidable option strings numbers list.

Open Scope string_scope.

(** ** Values thrown by the code or by the runtime *)

Inductive Thrown :=
| ThrowString (s : string)      (* [throw '...' + ...] *)
| ThrowError (message : string) (* [throw Error('...' + ...)] *)
| TypeError (what : string)     (* member access or call on [undefined] *)
| SyntaxError                   (* [JSON.parse] on text that is not JSON *)
| NotConnected                  (* a transport refusing [send] *)
| AlreadyResolved.              (* a Resolvable Future resolved twice *)

Inductive Completion (A : Type) :=
| Normal (a : A)
| Throw (e : Thrown).
Arguments Normal {A} a.
Arguments Throw {A} e.

(** ** The monad of methods and listeners

    A computation maps the world to a completion and the world it leaves
    behind; what was written before a [throw] stays written. *)

Definition JS (W A : Type) : Type := W → Completion A * W.

Definition JS_ret {W A} (a : A) : JS W A := λ w, (Normal a, w).

Definition JS_bind {W A B} (f : A → JS W B) (m : JS W A) : JS W B :=
  λ w, match m w with
       | (Normal a, w') => f a w'
       | (Throw e, w') => (Throw e, w')
       end.

#[global] Instance JS_mret W : MRet (JS W) := @JS_ret W.
#[global] Instance JS_mbind W : MBind (JS W) := @JS_bind W.

Definition throw {W A} (e : Thrown) : JS W A := λ w, (Throw e, w).
Definition gets {W A} (f : W → A) : JS W A := λ w, (Normal (f w), w).
Definition modify {W} (f : W → W) : JS W unit := λ w, (Normal tt, f w).

(** The world a computation leaves, and how it completed. *)
Definition exec {W A} (m : JS W A) (w : W) : W := (m w).2.
Definition completion {W A} (m : JS W A) (w : W) : Completion A := (m w).1.

(** ** The messages of the relay

    The model classes under [./models] are not part of the sources at hand;
    their shapes are those of the envelope table of the specification. *)

(** Modelled from the spec: the decoded relay message, [SignalResponse] and
    the interfaces it is cast to ([RoomCreatedResponse], [GuestRequest],
    [JoinRoomResponse]), restricted to the fields the controllers read. *)
Record SignalResponse (Tag : Type) := {
  type : Tag;
  room : string;
  offer : string;
  client : string;
  answer : string
}.
Arguments type {Tag} _.
Arguments room {Tag} _.
Arguments offer {Tag} _.
Arguments client {Tag} _.
Arguments answer {Tag} _.

(** Modelled from the spec: the requests sent to the relay,
    [CreateRoomRequest], [AddToRoomRequest] and [JoinRoomRequest]. *)
Inductive Request :=
| CreateRoomRequest
| AddToRoomRequest (answer : string) (client : string)
| JoinRoomRequest (offer : string) (room : string).

(** What the code takes from its platform: the [SignalResponses] enum (its
    members are constants of the discriminant type, whose values the
    sources at hand do not show), [TextDecoder.decode], [JSON.parse]
    ([None] when it throws) and [JSON.stringify]; and, of the peer
    transport, which texts it takes as a signalling descriptor (the JSON
    text of an object with an [sdp], a [candidate], a [renegotiate] or a
    [transceiverRequest] member). *)
Class Platform := {
  BufferSource : Type;
  Tag : Type;
  Tag_eq_dec :: EqDecision Tag;
  RoomCreated : Tag;
  GuestRequest : Tag;
  RequestAccepted : Tag;
  RoomJoined : Tag;
  TextDecoder_decode : BufferSource → string;
  JSON_parse : string → option (SignalResponse Tag);
  JSON_stringify : ∀ T : Type, T → string;
  is_descriptor : string → bool
}.
Arguments JSON_stringify {_ T} _.

(** ** [Map<string, V>]

    A JavaScript [Map] keeps its keys in insertion order; [set] on a key
    that is present replaces the value where it stands. *)

Fixpoint Map_set {V} (key : string) (value : V) (m : list (string * V))
  : list (string * V) :=
  match m with
  | [] => [(key, value)]
  | (k, v) :: m' =>
      if decide (k = key) then (key, value) :: m'
      else (k, v) :: Map_set key value m'
  end.

Fixpoint Map_get {V} (key : string) (m : list (string * V)) : option V :=
  match m with
  | [] => None
  | (k, v) :: m' => if decide (k = key) then Some v else Map_get key m'
  end.

Definition Map_has {V} (key : string) (m : list (string * V)) : bool :=
  bool_decide (is_Some (Map_get key m)).

Definition Map_keys {V} (m : list (string * V)) : list string := m.*1.
Definition Map_values {V} (m : list (string * V)) : list V := m.*2.

(** ** Resolvable Future *)

(** Modelled from the spec: what resolving a Resolvable Future a second time
    does, which the spec leaves to the implementation: nothing, or an
    error.  The choice is a parameter of the model. *)
Inductive ResolveTwice := IsNoOp | IsError.

(** Modelled from the spec: [ManagedPromise] ([./util/managedPromise] is not
    part of the sources at hand), the Resolvable Future.  It is unresolved
    ([None]) or holds a single immutable value. *)
Record ManagedPromise (T : Type) := { promise : option T }.
Arguments promise {T} _.

(** Modelled from the spec: [new ManagedPromise()], a future in the
    unresolved state. *)
Definition ManagedPromise_new {T} : ManagedPromise T := {| promise := None |}.

(** Modelled from the spec: [resolve(value)] of [ManagedPromise].  It takes
    an unresolved future to the resolved state; on a resolved future it
    leaves the value alone, and completes normally or throws as the policy
    says. *)
Definition ManagedPromise_resolve {T} (policy : ResolveTwice) (value : T)
    (m : ManagedPromise T) : Completion unit * ManagedPromise T :=
  match promise m with
  | None => (Normal tt, {| promise := Some value |})
  | Some _ =>
      match policy with
      | IsNoOp => (Normal tt, m)
      | IsError => (Throw AlreadyResolved, m)
      end
  end.

(** ** The transports

    Sockets ([simple-websocket]) and peers ([simple-peer]) are event
    emitters, outside the repository; they are modelled at the interface
    the specification gives them.  [on] keeps a listener that is a
    function; ['connect'], ['data'] and ['signal'] listeners are kept
    apart, in the order of registration.  A transport is connecting until
    its ['connect'] event, and [send] is there only while it is
    connected. *)

(** Modelled from the spec: the relay transport, with [connect] and
    [data(bytes)] events, [send] and [destroy]. *)
Record Socket (OnConnect OnData : Type) := {
  url : string;
  socket_connected : bool;
  socket_destroyed : bool;
  socket_sent : list string;
  socket_on_connect : list OnConnect;
  socket_on_data : list OnData
}.
Arguments url {_ _} _.
Arguments socket_connected {_ _} _.
Arguments socket_destroyed {_ _} _.
Arguments socket_sent {_ _} _.
Arguments socket_on_connect {_ _} _.
Arguments socket_on_data {_ _} _.

(** Modelled from the spec: the peer transport, with [signal], [connect]
    and [data(bytes)] events, [signal], [destroy], and a [send] that is
    there once the peer is connected. *)
Record Peer (OnSignal OnConnect OnData : Type) := {
  initiator : bool;
  trickle : bool;
  connected : bool;
  destroyed : bool;
  signalled : list string;
  sent : list string;
  on_signal : list OnSignal;
  on_connect : list OnConnect;
  on_data : list OnData
}.
Arguments initiator {_ _ _} _.
Arguments trickle {_ _ _} _.
Arguments connected {_ _ _} _.
Arguments destroyed {_ _ _} _.
Arguments signalled {_ _ _} _.
Arguments sent {_ _ _} _.
Arguments on_signal {_ _ _} _.
Arguments on_connect {_ _ _} _.
Arguments on_data {_ _ _} _.

Section Transport.
Context `{Platform} {SC SD PS PC PD : Type}.
#[local] Abbreviation Socket := (Socket SC SD).
#[local] Abbreviation Peer := (Peer PS PC PD).

Definition Socket_new (address : string) : Socket :=
  {| url := address; socket_connected := false; socket_destroyed := false;
     socket_sent := []; socket_on_connect := []; socket_on_data := [] |}.

Definition Socket_on_connect (l : SC) (s : Socket) : Socket :=
  {| url := url s; socket_connected := socket_connected s;
     socket_destroyed := socket_destroyed s;
     socket_sent := socket_sent s;
     socket_on_connect := socket_on_connect s ++ [l];
     socket_on_data := socket_on_data s |}.

Definition Socket_on_data (l : SD) (s : Socket) : Socket :=
  {| url := url s; socket_connected := socket_connected s;
     socket_destroyed := socket_destroyed s;
     socket_sent := socket_sent s;
     socket_on_connect := socket_on_connect s;
     socket_on_data := socket_on_data s ++ [l] |}.

(** Modelled from the spec: the step of the relay transport when its
    connection is established, before it emits ['connect']. *)
Definition Socket_open (s : Socket) : Socket :=
  {| url := url s; socket_connected := true;
     socket_destroyed := socket_destroyed s;
     socket_sent := socket_sent s;
     socket_on_connect := socket_on_connect s;
     socket_on_data := socket_on_data s |}.

(** Modelled from the spec: [send] of the relay transport.  It hands the
    chunk to a connection that is established and refuses it otherwise,
    on a socket that is still connecting or that is destroyed. *)
Definition Socket_send (chunk : string) (s : Socket)
  : Completion unit * Socket :=
  if socket_connected s then
    (Normal tt,
     {| url := url s; socket_connected := socket_connected s;
        socket_destroyed := socket_destroyed s;
        socket_sent := socket_sent s ++ [chunk];
        socket_on_connect := socket_on_connect s;
        socket_on_data := socket_on_data s |})
  else (Throw NotConnected, s).

Definition Socket_destroy (s : Socket) : Socket :=
  {| url := url s; socket_connected := false; socket_destroyed := true;
     socket_sent := socket_sent s;
     socket_on_connect := socket_on_connect s;
     socket_on_data := socket_on_data s |}.

Definition Peer_new (is_initiator is_trickle : bool) : Peer :=
  {| initiator := is_initiator; trickle := is_trickle;
     connected := false; destroyed := false;
     signalled := []; sent := [];
     on_signal := []; on_connect := []; on_data := [] |}.


Definition Peer_on_signal (l : PS) (p : Peer) : Peer :=
  {| initiator := initiator p; trickle := trickle p;
     connected := connected p; destroyed := destroyed p;
     signalled := signalled p; sent := sent p;
     on_signal := on_signal p ++ [l]; on_connect := on_connect p;
     on_data := on_data p |}.

Definition Peer_on_connect (l : PC) (p : Peer) : Peer :=
  {| initiator := initiator p; trickle := trickle p;
     connected := connected p; destroyed := destroyed p;
     signalled := signalled p; sent := sent p;
     on_signal := on_signal p; on_connect := on_connect p ++ [l];
     on_data := on_data p |}.

Definition Peer_on_data (l : PD) (p : Peer) : Peer :=
  {| initiator := initiator p; trickle := trickle p;
     connected := connected p; destroyed := destroyed p;
     signalled := signalled p; sent := sent p;
     on_signal := on_signal p; on_connect := on_connect p;
     on_data := on_data p ++ [l] |}.

(** Modelled from the spec: the step of the peer transport when its channel
    opens, before it emits ['connect']. *)
Definition Peer_open (p : Peer) : Peer :=
  {| initiator := initiator p; trickle := trickle p;
     connected := true; destroyed := destroyed p;
     signalled := signalled p; sent := sent p;
     on_signal := on_signal p; on_connect := on_connect p;
     on_data := on_data p |}.

Definition Peer_destroy (p : Peer) : Peer :=
  {| initiator := initiator p; trickle := trickle p;
     connected := false; destroyed := true;
     signalled := signalled p; sent := sent p;
     on_signal := on_signal p; on_connect := on_connect p;
     on_data := on_data p |}.

(** Modelled from the spec: [signal(description)] of the peer transport.
    A destroyed peer throws; a peer given a text that is not a signalling
    descriptor destroys itself; otherwise the description is handed to
    the handshake. *)
Definition Peer_signal (description : string) (p : Peer)
  : Completion unit * Peer :=
  if destroyed p then
    (Throw (ThrowError "cannot signal after peer is destroyed"), p)
  else if is_descriptor description then
    (Normal tt,
     {| initiator := initiator p; trickle := trickle p;
        connected := connected p; destroyed := destroyed p;
        signalled := signalled p ++ [description]; sent := sent p;
        on_signal := on_signal p; on_connect := on_connect p;
        on_data := on_data p |})
  else (Normal tt, Peer_destroy p).

(** Modelled from the spec: [send] of the peer transport, which the spec
    gives as a primitive that is there once the peer is connected.  It
    hands the chunk to the channel of a connected peer and refuses it
    otherwise. *)
Definition Peer_send (chunk : string) (p : Peer) : Completion unit * Peer :=
  if connected p then
    (Normal tt,
     {| initiator := initiator p; trickle := trickle p;
        connected := connected p; destroyed := destroyed p;
        signalled := signalled p; sent := sent p ++ [chunk];
        on_signal := on_signal p; on_connect := on_connect p;
        on_data := on_data p |})
  else (Throw NotConnected, p).
End Transport.

(** An emitter calls the listeners of an event in the order of their
    registration, those registered when the event is emitted; a listener
    that throws ends the emission. *)
Fixpoint emit {W L} (run : L → JS W unit) (listeners : list L) : JS W unit :=
  match listeners with
  | [] => mret tt
  | l :: rest => run l;; emit run rest
  end.

(** * The Host *)

Module Host.
Section WithPlatform.
Context `{Platform}.
Variable policy : ResolveTwice.

(** The callbacks of the application are opaque; a callback is known by a
    name and calling it is recorded. *)
Definition GuestCallback := nat.
Definition MessageReceivedCallback := nat.

Inductive Call :=
| GuestJoined (callback : GuestCallback) (guestName : string)
| MessageReceived (callback : MessageReceivedCallback) (message : string).

(** The closures of the class, each with what it captures besides [this]. *)
Inductive OnSocketConnect := SendCreateRoom.                  (* line 35 *)
Inductive OnSocketData := HandleResponse.                      (* line 44 *)
Inductive OnPeerSignal := SendAnswer (request : SignalResponse Tag). (* line 75 *)
Inductive OnPeerConnect :=
  Register (request : SignalResponse Tag) (newPeer : nat).    (* line 82 *)
Inductive OnPeerData := Forward.                               (* line 85 *)

#[local] Abbreviation Socket := (Socket OnSocketConnect OnSocketData).
#[local] Abbreviation Peer := (Peer OnPeerSignal OnPeerConnect OnPeerData).

(** The fields of [this] ([decoder] holds no state and is left out), then
    the objects the fields and the listeners refer to, and the record of
    the calls made to the application's callbacks. *)
Record World := {
  socket : option nat;
  connections : list (string * nat);
  onMessageReceived : option MessageReceivedCallback;
  signalServer : string;
  guestJoinedCallback : option GuestCallback;
  roomCreated : ManagedPromise string;
  sockets : list Socket;
  peers : list Peer;
  calls : list Call
}.

Definition set_socket (v : option nat) (w : World) : World :=
  {| socket := v; connections := connections w;
     onMessageReceived := onMessageReceived w; signalServer := signalServer w;
     guestJoinedCallback := guestJoinedCallback w;
     roomCreated := roomCreated w; sockets := sockets w; peers := peers w;
     calls := calls w |}.

Definition set_connections (v : list (string * nat)) (w : World) : World :=
  {| socket := socket w; connections := v;
     onMessageReceived := onMessageReceived w; signalServer := signalServer w;
     guestJoinedCallback := guestJoinedCallback w;
     roomCreated := roomCreated w; sockets := sockets w; peers := peers w;
     calls := calls w |}.

Definition set_onMessageReceived (v : option MessageReceivedCallback)
    (w : World) : World :=
  {| socket := socket w; connections := connections w;
     onMessageReceived := v; signalServer := signalServer w;
     guestJoinedCallback := guestJoinedCallback w;
     roomCreated := roomCreated w; sockets := sockets w; peers := peers w;
     calls := calls w |}.

Definition set_guestJoinedCallback (v : option GuestCallback) (w : World)
  : World :=
  {| socket := socket w; connections := connections w;
     onMessageReceived := onMessageReceived w; signalServer := signalServer w;
     guestJoinedCallback := v;
     roomCreated := roomCreated w; sockets := sockets w; peers := peers w;
     calls := calls w |}.

Definition set_roomCreated (v : ManagedPromise string) (w : World) : World :=
  {| socket := socket w; connections := connections w;
     onMessageReceived := onMessageReceived w; signalServer := signalServer w;
     guestJoinedCallback := guestJoinedCallback w;
     roomCreated := v; sockets := sockets w; peers := peers w;
     calls := calls w |}.

Definition set_sockets (v : list Socket) (w : World) : World :=
  {| socket := socket w; connections := connections w;
     onMessageReceived := onMessageReceived w; signalServer := signalServer w;
     guestJoinedCallback := guestJoinedCallback w;
     roomCreated := roomCreated w; sockets := v; peers := peers w;
     calls := calls w |}.

Definition set_peers (v : list Peer) (w : World) : World :=
  {| socket := socket w; connections := connections w;
     onMessageReceived := onMessageReceived w; signalServer := signalServer w;
     guestJoinedCallback := guestJoinedCallback w;
     roomCreated := roomCreated w; sockets := sockets w; peers := v;
     calls := calls w |}.

Definition set_calls (v : list Call) (w : World) : World :=
  {| socket := socket w; connections := connections w;
     onMessageReceived := onMessageReceived w; signalServer := signalServer w;
     guestJoinedCallback := guestJoinedCallback w;
     roomCreated := roomCreated w; sockets := sockets w; peers := peers w;
     calls := v |}.

(** *** Access to the store *)

(** [this.socket], which is [undefined] until [createRoom] assigns it. *)
Definition this_socket : JS World nat :=
  λ w, match socket w with
       | Some s => (Normal s, w)
       | None => (Throw (TypeError "this.socket is undefined"), w)
       end.

Definition new_Socket (address : string) : JS World nat :=
  λ w, (Normal (length (sockets w)),
        set_sockets (sockets w ++ [Socket_new address]) w).

Definition new_Peer (is_initiator is_trickle : bool) : JS World nat :=
  λ w, (Normal (length (peers w)),
        set_peers (peers w ++ [Peer_new is_initiator is_trickle]) w).

Definition on_socket (s : nat) (f : Socket → Socket) : JS World unit :=
  modify (λ w, set_sockets (alter f s (sockets w)) w).

Definition on_peer (p : nat) (f : Peer → Peer) : JS World unit :=
  modify (λ w, set_peers (alter f p (peers w)) w).

(** [peer.send(chunk)] on the peer behind a reference.  A reference always
    denotes a peer of the store; the other branch is there for totality. *)
Definition peer_send (p : nat) (chunk : string) : JS World unit :=
  λ w, match peers w !! p with
       | Some x =>
           let r := Peer_send chunk x in
           (r.1, set_peers (<[p := r.2]> (peers w)) w)
       | None => (Throw (TypeError "dangling peer"), w)
       end.

(** [peer.signal(description)] and [socket.send(chunk)], likewise. *)
Definition peer_signal (p : nat) (description : string) : JS World unit :=
  λ w, match peers w !! p with
       | Some x =>
           let r := Peer_signal description x in
           (r.1, set_peers (<[p := r.2]> (peers w)) w)
       | None => (Throw (TypeError "dangling peer"), w)
       end.

Definition socket_send (s : nat) (chunk : string) : JS World unit :=
  λ w, match sockets w !! s with
       | Some x =>
           let r := Socket_send chunk x in
           (r.1, set_sockets (<[s := r.2]> (sockets w)) w)
       | None => (Throw (TypeError "dangling socket"), w)
       end.

(** Calling a callback field: a [TypeError] when the field is [undefined]. *)
Definition call_guestJoinedCallback (guestName : string) : JS World unit :=
  λ w, match guestJoinedCallback w with
       | Some cb => (Normal tt, set_calls (calls w ++ [GuestJoined cb guestName]) w)
       | None => (Throw (TypeError "this.guestJoinedCallback is not a function"), w)
       end.

Definition call_onMessageReceived (message : string) : JS World unit :=
  λ w, match onMessageReceived w with
       | Some cb => (Normal tt, set_calls (calls w ++ [MessageReceived cb message]) w)
       | None => (Throw (TypeError "this.onMessageReceived is not a function"), w)
       end.

Definition resolve_roomCreated (value : string) : JS World unit :=
  λ w, let r := ManagedPromise_resolve policy value (roomCreated w) in
       (r.1, set_roomCreated r.2 w).

(** *** The class *)

(** [constructor(options)] *)
Definition new (options_signalServer : string) : World :=
  {| socket := None; connections := [];
     onMessageReceived := None; signalServer := options_signalServer;
     guestJoinedCallback := None; roomCreated := ManagedPromise_new;
     sockets := []; peers := []; calls := [] |}.

(** [registerEvents()] *)
Definition registerEvents : JS World unit :=
  s ← this_socket;
  on_socket s (Socket_on_data HandleResponse).

(** [createRoom()]; the promise it returns is [this.roomCreated.promise],
    read from the world as [promise (roomCreated w)]. *)
Definition createRoom : JS World unit :=
  server ← gets signalServer;
  s ← new_Socket server;
  modify (set_socket (Some s));;
  registerEvents;;
  s ← this_socket;
  on_socket s (Socket_on_connect SendCreateRoom).

(** [closeRoom()] *)
Definition closeRoom : JS World unit :=
  s ← this_socket;
  on_socket s Socket_destroy.

(** [listenForGuests(guestJoinedCallback)] *)
Definition listenForGuests (callback : GuestCallback) : JS World unit :=
  modify (set_guestJoinedCallback (Some callback)).

(** [registerGuest(request)] *)
Definition registerGuest (request : SignalResponse Tag) : JS World unit :=
  newPeer ← new_Peer false false;
  peer_signal newPeer (offer request);;
  on_peer newPeer (Peer_on_signal (SendAnswer request));;
  on_peer newPeer (Peer_on_connect (Register request newPeer)).

(** [listenForMessages(callback)] *)
Definition listenForMessages (callback : MessageReceivedCallback)
  : JS World unit :=
  modify (set_onMessageReceived (Some callback)).

(** [sendToAll(message)]: [forEach] visits the entries in insertion order
    and an exception of the callback ends the visit. *)
Definition sendToAll {T} (message : T) : JS World unit :=
  registry ← gets connections;
  emit (λ peer, peer_send peer (JSON_stringify message)) (Map_values registry).

(** [sendTo(clientId, message)] *)
Definition sendTo {T} (clientId : string) (message : T) : JS World unit :=
  registry ← gets connections;
  if negb (Map_has clientId registry) then
    throw (ThrowError ("Cannot send message to unregisted client: " ++ clientId))
  else
    match Map_get clientId registry with
    | Some peer => peer_send peer (JSON_stringify message)
    | None => throw (TypeError "peer is undefined")
    end.

(** *** The listeners *)

(** The ['connect'] listener of the socket, from [createRoom]. *)
Definition run_OnSocketConnect (l : OnSocketConnect) : JS World unit :=
  match l with
  | SendCreateRoom =>
      let request := CreateRoomRequest in
      s ← this_socket;
      socket_send s (JSON_stringify request)
  end.

(** The ['data'] listener of the socket, from [registerEvents]. *)
Definition run_OnSocketData (data : BufferSource) (l : OnSocketData)
  : JS World unit :=
  match l with
  | HandleResponse =>
      match JSON_parse (TextDecoder_decode data) with
      | None => throw SyntaxError
      | Some decoded =>
          if decide (type decoded = RoomCreated) then
            resolve_roomCreated (room decoded)
          else if decide (type decoded = GuestRequest) then
            registerGuest decoded
          else if decide (type decoded = RequestAccepted) then
            mret tt
          else
            throw (ThrowString ("Unknown event received: " ++ JSON_stringify decoded))
      end
  end.

(** The ['signal'] listener of a guest's peer, from [registerGuest]. *)
Definition run_OnPeerSignal (id : string) (l : OnPeerSignal) : JS World unit :=
  match l with
  | SendAnswer request =>
      let response := AddToRoomRequest id (client request) in
      s ← this_socket;
      socket_send s (JSON_stringify response)
  end.

(** The ['connect'] listener of a guest's peer, from [registerGuest]. *)
Definition run_OnPeerConnect (l : OnPeerConnect) : JS World unit :=
  match l with
  | Register request newPeer =>
      modify (λ w, set_connections
                     (Map_set (client request) newPeer (connections w)) w);;
      call_guestJoinedCallback (client request);;
      on_peer newPeer (Peer_on_data Forward)
  end.

(** The ['data'] listener of a guest's peer, attached on ['connect']. *)
Definition run_OnPeerData (data : BufferSource) (l : OnPeerData)
  : JS World unit :=
  match l with
  | Forward =>
      let decoded := TextDecoder_decode data in
      call_onMessageReceived decoded
  end.

(** *** What happens to a Host

    The application calls a public method, or a transport emits an event
    on a socket or a peer of the store, or the channel of a peer closes
    (the guest leaves, or the channel fails), for which the class has no
    listener.  An event of an object that is not in the store has no
    listener to run.  The order in which a transport emits its events is
    its own and is not restricted here: what holds of every sequence of
    events holds of those a transport produces. *)
Inductive Event :=
| CallCreateRoom
| CallCloseRoom
| CallListenForGuests (callback : GuestCallback)
| CallListenForMessages (callback : MessageReceivedCallback)
| CallSendToAll (message : string)
| CallSendTo (clientId : string) (message : string)
| SocketConnect (s : nat)
| SocketData (s : nat) (data : BufferSource)
| PeerSignal (p : nat) (id : string)
| PeerConnect (p : nat)
| PeerData (p : nat) (data : BufferSource)
| PeerClose (p : nat).

Definition socket_listeners {L} (f : Socket → list L) (s : nat) : JS World (list L) :=
  gets (λ w, from_option f [] (sockets w !! s)).

Definition peer_listeners {L} (f : Peer → list L) (p : nat) : JS World (list L) :=
  gets (λ w, from_option f [] (peers w !! p)).

Definition deliver (ev : Event) : JS World unit :=
  match ev with
  | CallCreateRoom => createRoom
  | CallCloseRoom => closeRoom
  | CallListenForGuests callback => listenForGuests callback
  | CallListenForMessages callback => listenForMessages callback
  | CallSendToAll message => sendToAll message
  | CallSendTo clientId message => sendTo clientId message
  | SocketConnect s =>
      on_socket s Socket_open;;
      ls ← socket_listeners socket_on_connect s;
      emit run_OnSocketConnect ls
  | SocketData s data =>
      ls ← socket_listeners socket_on_data s;
      emit (run_OnSocketData data) ls
  | PeerSignal p id =>
      ls ← peer_listeners on_signal p;
      emit (run_OnPeerSignal id) ls
  | PeerConnect p =>
      on_peer p Peer_open;;
      ls ← peer_listeners on_connect p;
      emit run_OnPeerConnect ls
  | PeerData p data =>
      ls ← peer_listeners on_data p;
      emit (run_OnPeerData data) ls
  | PeerClose p =>
      on_peer p Peer_destroy
  end.

(** An exception that leaves a listener or a method is the caller's or the
    runtime's; the world stays as the code left it and later events are
    still delivered. *)
Definition step (w : World) (ev : Event) : World := exec (deliver ev) w.

Definition run (evs : list Event) (w : World) : World := foldl step w evs.

End WithPlatform.
End Host.

(** * Timed Awaitable *)

(** Modelled from the spec: how an awaitable made by [TimedPromise] can
    fail, and how it can be settled. *)
Inductive Rejection := Timeout.

Inductive Settlement :=
| Fulfilled
| Rejected (reason : Rejection).

(** Modelled from the spec: the awaitable made by [TimedPromise]
    ([./util/timedPromise] is not part of the sources at hand), the Timed
    Awaitable.  Made at time [t] with a bound of [ms], it settles
    successfully when the work's completion signal fires while it is
    pending, and fails with [Timeout] when its timer, due at [t + ms],
    fires while it is pending; whichever fires first wins, and once
    settled nothing changes it. *)
Record TimedPromise := {
  deadline : N;
  settlement : option Settlement
}.

(** Modelled from the spec: the pending awaitable made at [now] with a
    bound of [ms]. *)
Definition TimedPromise_new (now ms : N) : TimedPromise :=
  {| deadline := now + ms; settlement := None |}.

(** Modelled from the spec: the completion signal handed to the work. *)
Definition TimedPromise_resolve (t : TimedPromise) : TimedPromise :=
  match settlement t with
  | None => {| deadline := deadline t; settlement := Some Fulfilled |}
  | Some _ => t
  end.

(** Modelled from the spec: the timer of the awaitable firing. *)
Definition TimedPromise_timeout (t : TimedPromise) : TimedPromise :=
  match settlement t with
  | None => {| deadline := deadline t; settlement := Some (Rejected Timeout) |}
  | Some _ => t
  end.

(** * The Client *)

Module Client.
Section WithPlatform.
Context `{Platform}.
Variable policy : ResolveTwice.

Definition MessageReceivedCallback := nat.

(** The ['data'] listener of the peer is the callback itself, so that it is
    called with the bytes as they come. *)
Inductive Call :=
| MessageReceived (callback : MessageReceivedCallback) (message : BufferSource).

(** The closures of the class, each with what it captures besides [this].
    The ['data'] listener of the peer (line 167) is not a closure but the
    callback that [this.onMessageReceived] holds when the listener is
    attached. *)
Inductive OnSocketData := HandleResponse.                 (* line 127 *)
Inductive OnPeerSignal := SendOffer (room : string).      (* line 151 *)
Inductive OnPeerConnect := Connected (resolve : nat).     (* line 165 *)
Inductive OnPeerData :=
  Listener (callback : MessageReceivedCallback).         (* line 167 *)

#[local] Abbreviation Socket := (Socket Empty_set OnSocketData).
#[local] Abbreviation Peer := (Peer OnPeerSignal OnPeerConnect OnPeerData).

(** The fields of [this] ([decoder] holds no state and is left out; the
    socket is made by the constructor and never replaced, so it is kept in
    place), then the reactions registered with [then] on
    [this.roomJoined.promise] (all of them are the closure of line 160),
    the peers and timed promises made so far, the promise jobs waiting for
    the current listener to return, the clock in milliseconds, and what the
    application and the console have seen. *)
Record World := {
  peer : option nat;
  onMessageReceived : option MessageReceivedCallback;
  socket : Socket;
  roomJoined : ManagedPromise string;
  reactions : nat;
  peers : list Peer;
  timed : list TimedPromise;
  jobs : list string;
  now : N;
  calls : list Call;
  console : list string
}.

Definition set_peer (v : option nat) (w : World) : World :=
  {| peer := v; onMessageReceived := onMessageReceived w; socket := socket w;
     roomJoined := roomJoined w; reactions := reactions w; peers := peers w;
     timed := timed w; jobs := jobs w; now := now w; calls := calls w;
     console := console w |}.

Definition set_onMessageReceived (v : option MessageReceivedCallback)
    (w : World) : World :=
  {| peer := peer w; onMessageReceived := v; socket := socket w;
     roomJoined := roomJoined w; reactions := reactions w; peers := peers w;
     timed := timed w; jobs := jobs w; now := now w; calls := calls w;
     console := console w |}.

Definition set_socket (v : Socket) (w : World) : World :=
  {| peer := peer w; onMessageReceived := onMessageReceived w; socket := v;
     roomJoined := roomJoined w; reactions := reactions w; peers := peers w;
     timed := timed w; jobs := jobs w; now := now w; calls := calls w;
     console := console w |}.

Definition set_roomJoined (v : ManagedPromise string) (w : World) : World :=
  {| peer := peer w; onMessageReceived := onMessageReceived w;
     socket := socket w;
     roomJoined := v; reactions := reactions w; peers := peers w;
     timed := timed w; jobs := jobs w; now := now w; calls := calls w;
     console := console w |}.

Definition set_reactions (v : nat) (w : World) : World :=
  {| peer := peer w; onMessageReceived := onMessageReceived w;
     socket := socket w;
     roomJoined := roomJoined w; reactions := v; peers := peers w;
     timed := timed w; jobs := jobs w; now := now w; calls := calls w;
     console := console w |}.

Definition set_peers (v : list Peer) (w : World) : World :=
  {| peer := peer w; onMessageReceived := onMessageReceived w;
     socket := socket w;
     roomJoined := roomJoined w; reactions := reactions w; peers := v;
     timed := timed w; jobs := jobs w; now := now w; calls := calls w;
     console := console w |}.

Definition set_timed (v : list TimedPromise) (w : World) : World :=
  {| peer := peer w; onMessageReceived := onMessageReceived w;
     socket := socket w;
     roomJoined := roomJoined w; reactions := reactions w; peers := peers w;
     timed := v; jobs := jobs w; now := now w; calls := calls w;
     console := console w |}.

Definition set_jobs (v : list string) (w : World) : World :=
  {| peer := peer w; onMessageReceived := onMessageReceived w;
     socket := socket w;
     roomJoined := roomJoined w; reactions := reactions w; peers := peers w;
     timed := timed w; jobs := v; now := now w; calls := calls w;
     console := console w |}.

Definition set_now (v : N) (w : World) : World :=
  {| peer := peer w; onMessageReceived := onMessageReceived w;
     socket := socket w;
     roomJoined := roomJoined w; reactions := reactions w; peers := peers w;
     timed := timed w; jobs := jobs w; now := v; calls := calls w;
     console := console w |}.

Definition set_calls (v : list Call) (w : World) : World :=
  {| peer := peer w; onMessageReceived := onMessageReceived w;
     socket := socket w;
     roomJoined := roomJoined w; reactions := reactions w; peers := peers w;
     timed := timed w; jobs := jobs w; now := now w; calls := v;
     console := console w |}.

Definition set_console (v : list string) (w : World) : World :=
  {| peer := peer w; onMessageReceived := onMessageReceived w;
     socket := socket w;
     roomJoined := roomJoined w; reactions := reactions w; peers := peers w;
     timed := timed w; jobs := jobs w; now := now w; calls := calls w;
     console := v |}.

(** *** Access to the store *)

(** [this.peer], which is [undefined] until [joinRoom] assigns it. *)
Definition this_peer : JS World nat :=
  λ w, match peer w with
       | Some p => (Normal p, w)
       | None => (Throw (TypeError "this.peer is undefined"), w)
       end.

Definition new_Peer (is_initiator is_trickle : bool) : JS World nat :=
  λ w, (Normal (length (peers w)),
        set_peers (peers w ++ [Peer_new is_initiator is_trickle]) w).

Definition on_peer (p : nat) (f : Peer → Peer) : JS World unit :=
  modify (λ w, set_peers (alter f p (peers w)) w).

Definition on_socket (f : Socket → Socket) : JS World unit :=
  modify (λ w, set_socket (f (socket w)) w).

(** [peer.send(chunk)] on the peer behind a reference.  A reference always
    denotes a peer of the store; the other branch is there for totality. *)
Definition peer_send (p : nat) (chunk : string) : JS World unit :=
  λ w, match peers w !! p with
       | Some x =>
           let r := Peer_send chunk x in
           (r.1, set_peers (<[p := r.2]> (peers w)) w)
       | None => (Throw (TypeError "dangling peer"), w)
       end.

(** [peer.signal(description)] and [this.socket.send(chunk)], likewise. *)
Definition peer_signal (p : nat) (description : string) : JS World unit :=
  λ w, match peers w !! p with
       | Some x =>
           let r := Peer_signal description x in
           (r.1, set_peers (<[p := r.2]> (peers w)) w)
       | None => (Throw (TypeError "dangling peer"), w)
       end.

Definition socket_send (chunk : string) : JS World unit :=
  λ w, let r := Socket_send chunk (socket w) in (r.1, set_socket r.2 w).

(** [peer.on('data', listener)] with the value of a field as listener: an
    emitter takes a function and throws a [TypeError] for any other value,
    [undefined] among them, without attaching anything. *)
Definition peer_on_data (p : nat) (listener : option MessageReceivedCallback)
  : JS World unit :=
  match listener with
  | Some callback => on_peer p (Peer_on_data (Listener callback))
  | None =>
      throw (TypeError "The listener argument must be of type function")
  end.

Definition console_log (line : string) : JS World unit :=
  modify (λ w, set_console (console w ++ [line]) w).

(** [this.roomJoined.resolve(value)].  As with any promise, the first
    resolution queues one job for each reaction registered so far. *)
Definition resolve_roomJoined (value : string) : JS World unit :=
  λ w, let r := ManagedPromise_resolve policy value (roomJoined w) in
       (r.1,
        match promise (roomJoined w) with
        | None => set_jobs (jobs w ++ replicate (reactions w) value)
                    (set_roomJoined r.2 w)
        | Some _ => set_roomJoined r.2 w
        end).

(** [this.roomJoined.promise.then(answer => this.peer.signal(answer))]: the
    reaction is kept while the promise is unresolved and is queued as a job
    at once when the promise holds its value. *)
Definition then_roomJoined : JS World unit :=
  modify (λ w, match promise (roomJoined w) with
               | None => set_reactions (S (reactions w)) w
               | Some value => set_jobs (jobs w ++ [value]) w
               end).

(** Modelled from the spec: [TimedPromise<void>(ms, work)], which makes the
    awaitable, runs the work with its completion signal, and returns the
    awaitable. *)
Definition TimedPromise_make (ms : N) (work : nat → JS World unit)
  : JS World nat :=
  k ← (λ w, (Normal (length (timed w)),
             set_timed (timed w ++ [TimedPromise_new (now w) ms]) w));
  work k;;
  mret k.

Definition resolve_timed (k : nat) : JS World unit :=
  modify (λ w, set_timed (alter TimedPromise_resolve k (timed w)) w).

(** *** The class *)

(** [registerEvents()] *)
Definition registerEvents : JS World unit :=
  on_socket (Socket_on_data HandleResponse).

(** [constructor(options)] *)
Definition new (options_signalServer : string) : World :=
  exec registerEvents
    {| peer := None; onMessageReceived := None;
       socket := Socket_new options_signalServer;
       roomJoined := ManagedPromise_new; reactions := 0;
       peers := []; timed := []; jobs := []; now := 0%N; calls := [];
       console := [] |}.

(** [leaveRoom()] *)
Definition leaveRoom : JS World unit :=
  p ← this_peer;
  on_peer p Peer_destroy.

(** [listenForMessages(messageCallback)] *)
Definition listenForMessages (messageCallback : MessageReceivedCallback)
  : JS World unit :=
  modify (set_onMessageReceived (Some messageCallback)).

(** [joinRoom(room)]; it returns the timed promise it makes. *)
Definition joinRoom (room : string) : JS World nat :=
  p ← new_Peer true false;
  modify (set_peer (Some p));;
  p ← this_peer;
  on_peer p (Peer_on_signal (SendOffer room));;
  then_roomJoined;;
  promise ← TimedPromise_make (30 * 1000) (λ resolve,
    p ← this_peer;
    on_peer p (Peer_on_connect (Connected resolve)));
  mret promise.

(** [send(message)] *)
Definition send {T} (message : T) : JS World unit :=
  p ← this_peer;
  peer_send p (JSON_stringify message).

(** *** The listeners and the reaction *)

(** The ['data'] listener of the socket, from [registerEvents]. *)
Definition run_OnSocketData (data : BufferSource) (l : OnSocketData)
  : JS World unit :=
  match l with
  | HandleResponse =>
      match JSON_parse (TextDecoder_decode data) with
      | None => throw SyntaxError
      | Some decoded =>
          if decide (type decoded = RoomJoined) then
            resolve_roomJoined (answer decoded)
          else if decide (type decoded = RequestAccepted) then
            mret tt
          else
            throw (ThrowString ("Unknown event received: " ++ JSON_stringify decoded))
      end
  end.

(** The ['signal'] listener of the peer, from [joinRoom]. *)
Definition run_OnPeerSignal (id : string) (l : OnPeerSignal) : JS World unit :=
  match l with
  | SendOffer room =>
      let request := JoinRoomRequest (JSON_stringify id) room in
      socket_send (JSON_stringify request)
  end.

(** The ['connect'] listener of the peer, from [joinRoom]. *)
Definition run_OnPeerConnect (l : OnPeerConnect) : JS World unit :=
  match l with
  | Connected resolve =>
      console_log "connected";;
      p ← this_peer;
      callback ← gets onMessageReceived;
      peer_on_data p callback;;
      resolve_timed resolve
  end.

(** The ['data'] listener of the peer, attached on ['connect']. *)
Definition run_OnPeerData (data : BufferSource) (l : OnPeerData)
  : JS World unit :=
  match l with
  | Listener callback =>
      modify (λ w, set_calls (calls w ++ [MessageReceived callback data]) w)
  end.

(** The reaction of line 160, run as a promise job. *)
Definition run_reaction (answer : string) : JS World unit :=
  p ← this_peer;
  peer_signal p answer.

(** *** What happens to a Client

    The application calls a public method, a transport emits an event
    (the class has no listener for the ['connect'] event of its socket and
    none for the closing of a peer, which change the state of the
    transport alone), time passes, or the runtime runs the timers that are
    due.  When time passes, the timers whose deadline is passed have
    fired; a timer whose deadline is the present instant fires when the
    runtime gets to it, before or after an event of the same instant.
    The order in which a transport emits its events is its own and is not
    restricted here. *)
Inductive Event :=
| CallLeaveRoom
| CallListenForMessages (callback : MessageReceivedCallback)
| CallJoinRoom (room : string)
| CallSend (message : string)
| SocketData (data : BufferSource)
| PeerSignal (p : nat) (id : string)
| PeerConnect (p : nat)
| PeerData (p : nat) (data : BufferSource)
| Elapse (ms : N)
| RunTimers
| SocketConnect
| PeerClose (p : nat).

Definition peer_listeners {L} (f : Peer → list L) (p : nat) : JS World (list L) :=
  gets (λ w, from_option f [] (peers w !! p)).

Definition fire_timers (due : N → bool) : JS World unit :=
  modify (λ w, set_timed
    ((λ t, if due (deadline t) then TimedPromise_timeout t else t) <$> timed w) w).

Definition deliver (ev : Event) : JS World unit :=
  match ev with
  | CallLeaveRoom => leaveRoom
  | CallListenForMessages callback => listenForMessages callback
  | CallJoinRoom room => joinRoom room;; mret tt
  | CallSend message => send message
  | SocketData data =>
      ls ← gets (λ w, socket_on_data (socket w));
      emit (run_OnSocketData data) ls
  | PeerSignal p id =>
      ls ← peer_listeners on_signal p;
      emit (run_OnPeerSignal id) ls
  | PeerConnect p =>
      on_peer p Peer_open;;
      ls ← peer_listeners on_connect p;
      emit run_OnPeerConnect ls
  | PeerData p data =>
      ls ← peer_listeners on_data p;
      emit (run_OnPeerData data) ls
  | Elapse ms =>
      modify (λ w, set_now (now w + ms) w);;
      t ← gets now;
      fire_timers (λ d, bool_decide (d < t)%N)
  | RunTimers =>
      t ← gets now;
      fire_timers (λ d, bool_decide (d ≤ t)%N)
  | SocketConnect =>
      on_socket Socket_open
  | PeerClose p =>
      on_peer p Peer_destroy
  end.

(** The promise jobs run when the listener or the method has returned,
    each on its own. *)
Definition drain (w : World) : World :=
  foldl (λ w answer, exec (run_reaction answer) w) (set_jobs [] w) (jobs w).

(** An exception that leaves a listener or a method is the caller's or the
    runtime's; the world stays as the code left it and later events are
    still delivered. *)
Definition step (w : World) (ev : Event) : World := drain (exec (deliver ev) w).

Definition run (evs : list Event) (w : World) : World := foldl step w evs.

End WithPlatform.
End Client.

(** * A platform to run the model on

    Discriminants are strings, a buffer is the text it holds, and a relay
    message is written as its discriminant, a colon, and the one field that
    the kind carries; the request of a guest is written with its client, a
    colon, and its offer.  A signalling descriptor is a text that starts
    with [sdp]. *)

Definition sample_parse (text : string) : option (SignalResponse string) :=
  match String.index 0 ":" text with
  | Some n =>
      let kind := String.substring 0 n text in
      let field := String.substring (S n) (String.length text - S n) text in
      match String.index 0 ":" field with
      | Some m =>
          let who := String.substring 0 m field in
          let what :=
            String.substring (S m) (String.length field - S m) field in
          Some {| type := kind; room := who; offer := what; client := who;
                  answer := what |}
      | None =>
          Some {| type := kind; room := field; offer := field;
                  client := field; answer := field |}
      end
  | None => None
  end.

Definition sample_platform : Platform :=
  {| BufferSource := string;
     Tag := string;
     RoomCreated := "RoomCreated";
     GuestRequest := "GuestRequest";
     RequestAccepted := "RequestAccepted";
     RoomJoined := "RoomJoined";
     TextDecoder_decode := λ data, data;
     JSON_parse := sample_parse;
     JSON_stringify := λ T _, "{}";
     is_descriptor := String.prefix "sdp" |}.

(** A Host that has a room and two requests, the first of them answered;
    and the Host once both guests are connected. *)
Definition sample_requests : list (@Host.Event sample_platform) :=
  [Host.CallCreateRoom; Host.SocketConnect 0;
   @Host.SocketData sample_platform 0 "RoomCreated:ABC123";
   Host.CallListenForGuests 1;
   @Host.SocketData sample_platform 0 "GuestRequest:alice:sdp-offer-a";
   @Host.SocketData sample_platform 0 "GuestRequest:bob:sdp-offer-b";
   Host.PeerSignal 0 "sdp-answer-for-alice"].

Definition sample_guests : list (@Host.Event sample_platform) :=
  (sample_requests
   ++ [Host.PeerSignal 1 "sdp-answer-for-bob"; Host.PeerConnect 1;
       @Host.SocketData sample_platform 0 "RequestAccepted:";
       Host.PeerConnect 0])%list.

Definition sample_host : @Host.World sample_platform :=
  Host.run IsNoOp sample_guests (Host.new "wss://relay.example").

(** A Client that has joined and listens, before and after its peer is
    connected. *)
Definition sample_joining : list (@Client.Event sample_platform) :=
  [Client.SocketConnect; Client.CallJoinRoom "ABC123";
   Client.CallListenForMessages 1; Client.PeerSignal 0 "sdp-offer";
   @Client.SocketData sample_platform "RoomJoined:sdp-answer"].

Definition sample_joined : @Client.World sample_platform :=
  Client.run IsNoOp sample_joining (Client.new "wss://relay.example").

Definition sample_client : @Client.World sample_platform :=
  Client.step IsNoOp sample_joined (Client.PeerConnect 0).

(** A Client that listens before it joins, and what may follow its
    [joinRoom]: the answer and the ['connect'] event in time, or the
    answer and the ['connect'] event when the bound is passed. *)
Definition sample_listening : list (@Client.Event sample_platform) :=
  [Client.SocketConnect; Client.CallListenForMessages 1].

Definition sample_connects : list (@Client.Event sample_platform) :=
  [Client.PeerSignal 0 "sdp-offer"; Client.Elapse 1200;
   @Client.SocketData sample_platform "RoomJoined:sdp-answer";
   Client.Elapse 28799; Client.PeerConnect 0; Client.Elapse 5000].

Definition sample_silence : list (@Client.Event sample_platform) :=
  [Client.PeerSignal 0 "sdp-offer"; Client.Elapse 30001;
   @Client.SocketData sample_platform "RoomJoined:sdp-answer";
   Client.PeerConnect 0].

(** What follows a [joinRoom] made with no message callback set: the
    offer, the answer, the ['connect'] event of the peer one second after
    the call, and then the rest of the thirty seconds and one millisecond
    more. *)
Definition sample_unbound : list (@Client.Event sample_platform) :=
  [Client.PeerSignal 0 "sdp-offer"; Client.Elapse 500;
   @Client.SocketData sample_platform "RoomJoined:sdp-answer";
   Client.Elapse 500; Client.PeerConnect 0; Client.Elapse 29001].

(** A Client that, connected, is given another callback, joins again, is
    connected again and gets a message on the new peer. *)
Definition sample_rejoin : list (@Client.Event sample_platform) :=
  (sample_joining
   ++ [Client.PeerConnect 0; Client.CallListenForMessages 2;
       Client.CallJoinRoom "XYZ789"; Client.PeerSignal 1 "sdp-offer-again";
       Client.PeerConnect 1;
       @Client.PeerData sample_platform 1 "hello"])%list.

(** A Host that has taken a request before any callback is set, one whose
    guest alice asks again, and one whose guest alice has left. *)
Definition sample_unheard : list (@Host.Event sample_platform) :=
  [Host.CallCreateRoom; Host.SocketConnect 0;
   @Host.SocketData sample_platform 0 "RoomCreated:ABC123";
   @Host.SocketData sample_platform 0 "GuestRequest:alice:sdp-offer-a";
   Host.PeerSignal 0 "sdp-answer-for-alice"].

Definition sample_again : list (@Host.Event sample_platform) :=
  (sample_guests
   ++ [@Host.SocketData sample_platform 0 "GuestRequest:alice:sdp-offer-c";
       Host.PeerSignal 2 "sdp-answer-for-alice-again"])%list.

Definition sample_left : list (@Host.Event sample_platform) :=
  (sample_guests ++ [Host.PeerClose 0])%list.

(** A Client that has called [joinRoom] twice, one that has its answer,
    and one whose [joinRoom] has timed out before the answer came. *)
Definition sample_twice : list (@Client.Event sample_platform) :=
  [Client.SocketConnect; Client.CallJoinRoom "ABC123";
   Client.PeerSignal 0 "sdp-offer"; Client.CallJoinRoom "XYZ789";
   Client.PeerSignal 1 "sdp-offer-again"].

Definition sample_answered : list (@Client.Event sample_platform) :=
  [Client.SocketConnect; Client.CallJoinRoom "ABC123";
   Client.PeerSignal 0 "sdp-offer";
   @Client.SocketData sample_platform "RoomJoined:sdp"].

Definition sample_timed_out : list (@Client.Event sample_platform) :=
  [Client.SocketConnect; Client.CallJoinRoom "ABC123";
   Client.PeerSignal 0 "sdp-offer"; Client.Elapse 30001;
   @Client.SocketData sample_platform "RoomJoined:sdp-answer"].

(** * What the statements speak of *)

Section Observations.
Context `{Platform}.

(** The room of the first RoomCreated message among the buffers received
    from the relay, as the ['data'] listener of the Host reads them. *)
Fixpoint first_RoomCreated (datas : list BufferSource) : option string :=
  match datas with
  | [] => None
  | data :: rest =>
      match JSON_parse (TextDecoder_decode data) with
      | Some decoded =>
          if decide (type decoded = RoomCreated) then Some (room decoded)
          else first_RoomCreated rest
      | None => first_RoomCreated rest
      end
  end.

(** The same over all that happens to a Host with [listening] sockets: a
    message counts when it comes on a socket the Host has opened. *)
Fixpoint first_RoomCreated_in (listening : nat) (evs : list Host.Event)
  : option string :=
  match evs with
  | [] => None
  | Host.CallCreateRoom :: rest => first_RoomCreated_in (S listening) rest
  | Host.SocketData s data :: rest =>
      match JSON_parse (TextDecoder_decode data) with
      | Some decoded =>
          if decide (s < listening ∧ type decoded = RoomCreated)
          then Some (room decoded)
          else first_RoomCreated_in listening rest
      | None => first_RoomCreated_in listening rest
      end
  | _ :: rest => first_RoomCreated_in listening rest
  end.

(** The clients whose ['connect'] listeners a peer of the Host holds, and
    the clients of all the handshakes of the Host, oldest first. *)
Definition handshake_clients
    (x : Peer Host.OnPeerSignal Host.OnPeerConnect Host.OnPeerData)
  : list string :=
  (λ l, match l with Host.Register request _ => client request end)
    <$> on_connect x.

Definition Host_guests (w : Host.World) : list string :=
  concat (handshake_clients <$> Host.peers w).

(** The clients of the GuestRequest messages that a Host with [listening]
    sockets takes in during [evs]: a message counts when it comes on a
    socket the Host has opened and the listener reaches the GuestRequest
    case. *)
Fixpoint requested (listening : nat) (evs : list Host.Event) : list string :=
  match evs with
  | [] => []
  | Host.CallCreateRoom :: rest => requested (S listening) rest
  | Host.SocketData s data :: rest =>
      match JSON_parse (TextDecoder_decode data) with
      | Some decoded =>
          if decide (s < listening ∧ type decoded ≠ RoomCreated
                     ∧ type decoded = GuestRequest)
          then client decoded :: requested listening rest
          else requested listening rest
      | None => requested listening rest
      end
  | _ :: rest => requested listening rest
  end.

(** The calls made to the guest-joined callback. *)
Definition guest_calls (cs : list Host.Call)
  : list (Host.GuestCallback * string) :=
  omap (λ c, match c with
             | Host.GuestJoined cb guest => Some (cb, guest)
             | Host.MessageReceived _ _ => None
             end) cs.

(** What the invariant of the Host looks at: the ['data'] listeners of each
    socket; for each peer whether it is connected, its ['connect']
    listeners and its ['data'] listeners; the registry; the guest-joined
    calls. *)
Definition shape
    (x : Peer Host.OnPeerSignal Host.OnPeerConnect Host.OnPeerData)
  : bool * list Host.OnPeerConnect * list Host.OnPeerData :=
  (connected x, on_connect x, on_data x).

(** A peer after one more chunk went out on it. *)
Definition with_sent {PS PC PD} (chunk : string) (x : Peer PS PC PD)
  : Peer PS PC PD :=
  {| initiator := initiator x; trickle := trickle x;
     connected := connected x; destroyed := destroyed x;
     signalled := signalled x; sent := sent x ++ [chunk];
     on_signal := on_signal x; on_connect := on_connect x;
     on_data := on_data x |}.

(** The client of the handshake a peer of the Host was made for. *)
Definition peer_guest
    (x : Peer Host.OnPeerSignal Host.OnPeerConnect Host.OnPeerData) : string :=
  match on_connect x with
  | Host.Register request _ :: _ => client request
  | [] => EmptyString
  end.

(** The clients of the handshakes, read from the shapes of the peers. *)
Definition shapes_guests
    (ps : list (bool * list Host.OnPeerConnect * list Host.OnPeerData))
  : list string :=
  concat ((λ sh : bool * list Host.OnPeerConnect * list Host.OnPeerData,
             (λ l, match l with Host.Register request _ => client request end)
               <$> sh.1.2) <$> ps).

Definition Host_view (w : Host.World) :=
  (socket_on_data <$> Host.sockets w, shape <$> Host.peers w,
   Host.connections w, guest_calls (Host.calls w)).

(** The peers whose ['connect'] event a Host with [listening] sockets and
    [guests] peers gets during [evs]; an event counts when it is the event
    of a peer the Host has made. *)
Fixpoint connects (listening guests : nat) (evs : list Host.Event) : list nat :=
  match evs with
  | [] => []
  | Host.CallCreateRoom :: rest => connects (S listening) guests rest
  | Host.SocketData s data :: rest =>
      match JSON_parse (TextDecoder_decode data) with
      | Some decoded =>
          if decide (s < listening ∧ type decoded ≠ RoomCreated
                     ∧ type decoded = GuestRequest)
          then connects listening (S guests) rest
          else connects listening guests rest
      | None => connects listening guests rest
      end
  | Host.PeerConnect p :: rest =>
      if decide (p < guests) then p :: connects listening guests rest
      else connects listening guests rest
  | _ :: rest => connects listening guests rest
  end.

(** What only the ['connect'] event of a peer brings about: an entry of the
    registry for the peer, a ['data'] listener on it, an open channel. *)
Definition touched (w : Host.World) (p : nat) : Prop :=
  p ∈ Map_values (Host.connections w)
  ∨ ∃ x, Host.peers w !! p = Some x ∧ (on_data x ≠ [] ∨ connected x = true).

(** Every socket has the one listener of [registerEvents]; every peer is a
    guest's, with the one ['connect'] listener of [registerGuest]; every
    entry of the registry maps the client of a peer to that peer; the
    client of every connected peer is registered; every guest-joined call
    named a registered client; the keys of the registry are distinct. *)
Definition view_ok
    (v : list (list Host.OnSocketData)
         * list (bool * list Host.OnPeerConnect * list Host.OnPeerData)
         * list (string * nat) * list (Host.GuestCallback * string)) : Prop :=
  let '(ss, ps, registry, joined) := v in
  (∀ s ls, ss !! s = Some ls → ls = [Host.HandleResponse])
  ∧ (∀ p c l d, ps !! p = Some (c, l, d) →
       ∃ request, l = [Host.Register request p])
  ∧ (∀ guest p, Map_get guest registry = Some p →
       ∃ c request d, ps !! p = Some (c, [Host.Register request p], d)
                      ∧ client request = guest)
  ∧ (∀ p request d, ps !! p = Some (true, [Host.Register request p], d) →
       is_Some (Map_get (client request) registry))
  ∧ (∀ cb guest, (cb, guest) ∈ joined → is_Some (Map_get guest registry))
  ∧ NoDup (Map_keys registry).

(** While no guest-joined callback was ever set, no peer has a ['data']
    listener. *)
Definition Host_quiet (w : Host.World) : Prop :=
  Host.guestJoinedCallback w = None →
  ∀ p x, Host.peers w !! p = Some x → on_data x = [].

Definition Host_inv (w : Host.World) : Prop := view_ok (Host_view w).
Arguments view_ok : simpl never.

(** The Client is in its Connected state when [this.peer] is a peer whose
    channel is open. *)
Definition Client_Connected (w : Client.World) : bool :=
  match Client.peer w with
  | Some p => from_option connected false (Client.peers w !! p)
  | None => false
  end.

(** Whether an event is the ['connect'] of some peer. *)
Definition is_PeerConnect (ev : Client.Event) : bool :=
  match ev with Client.PeerConnect _ => true | _ => false end.

(** The callbacks that are ['data'] listeners of some peer of the Client. *)
Definition attached (w : Client.World) (cb : Client.MessageReceivedCallback)
  : Prop :=
  ∃ p x, Client.peers w !! p = Some x ∧ Client.Listener cb ∈ on_data x.

(** The callbacks that [this.onMessageReceived] holds when a ['connect']
    event comes during [evs], [current] being what it holds at the start:
    those are the callbacks that a ['connect'] listener can attach. *)
Fixpoint bound (current : option Client.MessageReceivedCallback)
    (evs : list Client.Event) : list Client.MessageReceivedCallback :=
  match evs with
  | [] => []
  | Client.CallListenForMessages cb :: rest => bound (Some cb) rest
  | Client.PeerConnect _ :: rest =>
      match current with
      | Some cb => cb :: bound current rest
      | None => bound current rest
      end
  | _ :: rest => bound current rest
  end.

(** The calls that the ['data'] listeners [ls] of a peer make for [data]. *)
Definition heard (data : BufferSource) (ls : list Client.OnPeerData)
  : list Client.Call :=
  (λ l, match l with Client.Listener cb => Client.MessageReceived cb data end)
    <$> ls.

(** What the question of which callback is called looks at in a Client: the
    ['data'] listeners of each peer and the calls made. *)
Definition Client_listening (w : Client.World) :=
  (on_data <$> Client.peers w, Client.calls w).

(** The instant of the first ['connect'] event of peer [p] that comes
    while a message callback is set, in a run that starts at instant [t],
    [listening] telling whether a callback is set at the start; and the
    time that passes during a run. *)
Fixpoint first_connect (p : nat) (listening : bool) (t : N)
    (evs : list Client.Event) : option N :=
  match evs with
  | [] => None
  | Client.PeerConnect q :: rest =>
      if decide (q = p ∧ listening = true) then Some t
      else first_connect p listening t rest
  | Client.CallListenForMessages _ :: rest => first_connect p true t rest
  | Client.Elapse ms :: rest => first_connect p listening (t + ms) rest
  | _ :: rest => first_connect p listening t rest
  end.

(** Whether an event is a call of [listenForMessages]. *)
Definition is_CallListenForMessages (ev : Client.Event) : bool :=
  match ev with Client.CallListenForMessages _ => true | _ => false end.

Fixpoint elapsed (evs : list Client.Event) : N :=
  match evs with
  | [] => 0
  | Client.Elapse ms :: rest => ms + elapsed rest
  | _ :: rest => elapsed rest
  end.

(** What one event does to a timed promise whose completion signal is held
    by the ['connect'] listener of peer [p] alone, to the clock, and to
    whether a message callback is set: the listener reaches the completion
    signal when a callback is set. *)
Definition promise_step (p : nat) (s : TimedPromise * N * bool)
    (ev : Client.Event) : TimedPromise * N * bool :=
  match ev with
  | Client.CallListenForMessages _ => (s.1.1, s.1.2, true)
  | Client.PeerConnect q =>
      if decide (q = p ∧ s.2 = true)
      then (TimedPromise_resolve s.1.1, s.1.2, s.2) else s
  | Client.Elapse ms =>
      (if bool_decide (deadline s.1.1 < s.1.2 + ms)%N
       then TimedPromise_timeout s.1.1 else s.1.1, (s.1.2 + ms)%N, s.2)
  | Client.RunTimers =>
      (if bool_decide (deadline s.1.1 ≤ s.1.2)%N
       then TimedPromise_timeout s.1.1 else s.1.1, s.1.2, s.2)
  | _ => s
  end.

(** Peer [p] holds the completion signal of promise [k], and no other peer
    does. *)
Definition holds_signal (w : Client.World) (p k : nat) : Prop :=
  (on_connect <$> Client.peers w) !! p = Some [Client.Connected k]
  ∧ ∀ q l, q ≠ p → (on_connect <$> Client.peers w) !! q = Some l →
           Client.Connected k ∉ l.

(** Every completion signal a listener holds is of a promise made. *)
Definition signals_made (w : Client.World) : Prop :=
  ∀ q l j, (on_connect <$> Client.peers w) !! q = Some l →
           Client.Connected j ∈ l → j < length (Client.timed w).

(** The socket opened last, which is the one [this.socket] of a Host
    refers to once there is one. *)
Definition newest {A} (l : list A) : option nat :=
  match length l with
  | 0 => None
  | S n => Some n
  end.

(** Peer [p] of a Host is as [registerGuest] leaves it, but for the state
    of its channel, what went out on it and its ['data'] listeners: it
    answers, without trickle, its handshake was given the offer of its
    request and nothing else when the offer is a signalling descriptor,
    it is destroyed when the offer is none, and its ['signal'] and
    ['connect'] listeners are the two of [registerGuest]. *)
Definition wired (p : nat)
    (x : Peer Host.OnPeerSignal Host.OnPeerConnect Host.OnPeerData) : Prop :=
  ∃ request,
    initiator x = false ∧ trickle x = false
    ∧ signalled x
      = (if is_descriptor (offer request) then [offer request] else [])
    ∧ (is_descriptor (offer request) = false → destroyed x = true)
    ∧ on_signal x = [Host.SendAnswer request]
    ∧ on_connect x = [Host.Register request p].

(** The peers that [forEach] over [ps] sends to: those up to the first
    peer whose channel is not open, at which [send] throws. *)
Fixpoint reached
    (peers : list (Peer Host.OnPeerSignal Host.OnPeerConnect Host.OnPeerData))
    (ps : list nat) : list nat :=
  match ps with
  | [] => []
  | p :: rest =>
      if from_option connected false (peers !! p)
      then p :: reached peers rest else []
  end.

(** [this.socket] is the socket opened last, there is a socket when there
    is a peer, and every peer is wired. *)
Definition Host_wired (w : Host.World) : Prop :=
  Host.socket w = newest (Host.sockets w)
  ∧ (Host.peers w ≠ [] → Host.sockets w ≠ [])
  ∧ ∀ p x, Host.peers w !! p = Some x → wired p x.

(** A peer after the descriptions of [descriptions] were handed to its
    handshake, in that order; a peer after [signal] was called with each
    of them, in that order; and a socket after one more chunk went out on
    it. *)
Definition with_signalled {PS PC PD} (descriptions : list string)
    (x : Peer PS PC PD) : Peer PS PC PD :=
  {| initiator := initiator x; trickle := trickle x;
     connected := connected x; destroyed := destroyed x;
     signalled := signalled x ++ descriptions; sent := sent x;
     on_signal := on_signal x; on_connect := on_connect x;
     on_data := on_data x |}.

Definition signal_all {PS PC PD} (descriptions : list string)
    (x : Peer PS PC PD) : Peer PS PC PD :=
  foldl (λ x description, (Peer_signal description x).2) x descriptions.

Definition socket_with_sent {SC SD} (chunk : string) (s : Socket SC SD)
  : Socket SC SD :=
  {| url := url s; socket_connected := socket_connected s;
     socket_destroyed := socket_destroyed s;
     socket_sent := socket_sent s ++ [chunk];
     socket_on_connect := socket_on_connect s;
     socket_on_data := socket_on_data s |}.

(** What the bookkeeping of a Client consists of: [this.peer], the number
    of peers made, the value of [this.roomJoined], the number of reactions
    waiting for it, and the ['data'] listeners and the state of the relay
    socket. *)
Definition Client_shape (w : Client.World) :=
  (Client.peer w, length (Client.peers w), promise (Client.roomJoined w),
   Client.reactions w, socket_on_data (Client.socket w),
   socket_destroyed (Client.socket w)).

(** Between two events no promise job is pending; [this.peer] is the peer
    made last; while [this.roomJoined] is unresolved there is one reaction
    for each peer made; the relay socket has the one listener of
    [registerEvents] and is not destroyed. *)
Definition Client_inv (w : Client.World) : Prop :=
  Client.jobs w = []
  ∧ Client.peer w = newest (Client.peers w)
  ∧ (promise (Client.roomJoined w) = None →
     Client.reactions w = length (Client.peers w))
  ∧ socket_on_data (Client.socket w) = [Client.HandleResponse]
  ∧ socket_destroyed (Client.socket w) = false.

(** What goes out on the relay, read off the calls and events alone.

    For a Client: whether its socket is connected and what it has sent,
    and the rooms of the [joinRoom] calls made, oldest first; a ['signal']
    event of the peer of a [joinRoom] sends one [JoinRoomRequest] with the
    room of that call when the socket is connected, and nothing when it is
    not. *)
Definition offers_step (st : bool * list string * list string)
    (ev : Client.Event) : bool * list string * list string :=
  match ev with
  | Client.SocketConnect => (true, st.1.2, st.2)
  | Client.CallJoinRoom room => (st.1, (st.2 ++ [room])%list)
  | Client.PeerSignal p id =>
      match st.2 !! p with
      | Some room =>
          if st.1.1
          then (st.1.1,
                (st.1.2
                 ++ [JSON_stringify (JoinRoomRequest (JSON_stringify id) room)])%list,
                st.2)
          else st
      | None => st
      end
  | _ => st
  end.

(** A socket, as whether it is connected and what it has sent, after one
    more chunk was given to [send]: the chunk goes out when the socket is
    connected. *)
Definition try_send (chunk : string) (s : bool * list string)
  : bool * list string :=
  if s.1 then (s.1, (s.2 ++ [chunk])%list) else s.

(** For a Host: for each of its sockets whether it is connected and what
    it has sent, and the clients of the requests taken in, oldest first.
    A ['connect'] event of a socket gives a [CreateRoomRequest] and a
    ['signal'] event of the peer of a request gives an [AddToRoomRequest]
    with the client of that request to [send] of the socket opened last,
    whichever socket the event or the request came on; [closeRoom]
    disconnects the socket opened last. *)
Definition relay_step (st : list (bool * list string) * list string)
    (ev : Host.Event) : list (bool * list string) * list string :=
  match ev with
  | Host.CallCreateRoom => ((st.1 ++ [(false, [])])%list, st.2)
  | Host.CallCloseRoom =>
      (alter (λ s, (false, s.2)) (length st.1 - 1) st.1, st.2)
  | Host.SocketData s data =>
      match JSON_parse (TextDecoder_decode data) with
      | Some decoded =>
          if decide (s < length st.1 ∧ type decoded ≠ RoomCreated
                     ∧ type decoded = GuestRequest)
          then (st.1, (st.2 ++ [client decoded])%list)
          else st
      | None => st
      end
  | Host.SocketConnect s =>
      if decide (s < length st.1)
      then (alter (try_send (JSON_stringify CreateRoomRequest))
              (length st.1 - 1) (alter (λ s, (true, s.2)) s st.1), st.2)
      else st
  | Host.PeerSignal p id =>
      match st.2 !! p with
      | Some guest =>
          (alter (try_send (JSON_stringify (AddToRoomRequest id guest)))
             (length st.1 - 1) st.1, st.2)
      | None => st
      end
  | _ => st
  end.

(** What the relay traffic of a Host depends on: for each socket whether
    it is connected and what it has sent, the ['connect'] listeners of
    each socket, and the client each peer was made for. *)
Definition Host_traffic (w : Host.World) :=
  ((λ s, (socket_connected s, socket_sent s)) <$> Host.sockets w,
   socket_on_connect <$> Host.sockets w,
   peer_guest <$> Host.peers w).

(** What the ['connect'] event of a peer of a Client depends on and
    changes: [this.peer], for each peer the state of its channel and its
    ['connect'] and ['data'] listeners, the timed promises, and the
    callback field. *)
Definition Client_links (w : Client.World) :=
  (Client.peer w,
   (λ x, (connected x, on_connect x, on_data x)) <$> Client.peers w,
   Client.timed w, Client.onMessageReceived w).

(** The shapes of the peers after an event that is not the ['connect'] of
    a peer: the close of a channel leaves its peer unconnected. *)
Definition closed_by (ev : Host.Event)
    (ps : list (bool * list Host.OnPeerConnect * list Host.OnPeerData))
  : list (bool * list Host.OnPeerConnect * list Host.OnPeerData) :=
  match ev with
  | Host.PeerClose p => alter (λ sh, (false, sh.1.2, sh.2)) p ps
  | _ => ps
  end.

(** [touched], read from the view of the Host. *)
Definition touched_in
    (v : list (list Host.OnSocketData)
         * list (bool * list Host.OnPeerConnect * list Host.OnPeerData)
         * list (string * nat) * list (Host.GuestCallback * string))
    (p : nat) : Prop :=
  let '(ss, ps, registry, joined) := v in
  p ∈ Map_values registry
  ∨ ∃ c l d, ps !! p = Some (c, l, d) ∧ (d ≠ [] ∨ c = true).

End Observations.

(** * Properties *)

Ltac js :=
  repeat (unfold mbind, mret, JS_mbind, JS_mret, JS_bind, JS_ret, throw,
            gets, modify, exec, completion,
            Host.on_peer, Host.on_socket, Host.new_Peer, Host.new_Socket,
            Client.on_peer, Client.on_socket, Client.new_Peer,
            Client.console_log, Client.resolve_timed in *;
          simpl in *).

Lemma emit_fixed {W L} (run : L → JS W unit) (ls : list L) (w : W) :
  (∀ l, l ∈ ls → run l w = (Normal tt, w)) →
  emit run ls w = (Normal tt, w).
Proof.
  induction ls as [|l ls IH]; intros Hrun; [done|].
  simpl. js. rewrite (Hrun l) by left.
  apply IH. intros l' Hl'. apply Hrun. by right.
Qed.

Lemma emit_throws {W L} (run : L → JS W unit) (l : L) (ls : list L) (w : W) e :
  run l w = (Throw e, w) →
  emit run (l :: ls) w = (Throw e, w).
Proof. intros Hrun. simpl. js. by rewrite Hrun. Qed.

Lemma Map_get_None {V} (key : string) (m : list (string * V)) :
  Map_get key m = None ↔ key ∉ Map_keys m.
Proof.
  unfold Map_keys. induction m as [|[k v] m IH]; simpl.
  - split; [intros _; apply not_elem_of_nil | done].
  - rewrite not_elem_of_cons. destruct (decide (k = key)) as [->|Hne].
    + split; [done | intros [? _]; done].
    + rewrite IH. split; [intros ?; split; [congruence | done] | intros [_ ?]; done].
Qed.

Section Properties.
Context `{Platform}.
Variable policy : ResolveTwice.

Lemma Host_unknown_listener (data : BufferSource) decoded (w : Host.World) l :
  JSON_parse (TextDecoder_decode data) = Some decoded →
  type decoded ≠ RoomCreated →
  type decoded ≠ GuestRequest →
  type decoded ≠ RequestAccepted →
  Host.run_OnSocketData policy data l w
  = (Throw (ThrowString ("Unknown event received: " ++ JSON_stringify decoded)), w).
Proof.
  intros Hparse H1 H2 H3. destruct l. unfold Host.run_OnSocketData.
  rewrite Hparse. by rewrite !decide_False by done.
Qed.

Lemma Client_unknown_listener (data : BufferSource) decoded (w : Client.World) l :
  JSON_parse (TextDecoder_decode data) = Some decoded →
  type decoded ≠ RoomJoined →
  type decoded ≠ RequestAccepted →
  Client.run_OnSocketData policy data l w
  = (Throw (ThrowString ("Unknown event received: " ++ JSON_stringify decoded)), w).
Proof.
  intros Hparse H1 H2. destruct l. unfold Client.run_OnSocketData.
  rewrite Hparse. by rewrite !decide_False by done.
Qed.

(** C3.  A relay message whose discriminant is none of the kinds the role
    handles makes the ['data'] listener of the relay socket throw, with a
    text that holds the serialised payload, and leaves the world as it was:
    it is neither ignored nor mapped to a default.  For the Host the kinds
    are RoomCreated, GuestRequest and RequestAccepted, on any socket it
    listens on; for the Client they are RoomJoined and RequestAccepted. *)
Theorem unknown_discriminant_is_fatal (data : BufferSource) decoded :
  JSON_parse (TextDecoder_decode data) = Some decoded →
  (type decoded ≠ RoomCreated →
   type decoded ≠ GuestRequest →
   type decoded ≠ RequestAccepted →
   ∀ (w : Host.World) s sock,
     Host.sockets w !! s = Some sock →
     socket_on_data sock ≠ [] →
     Host.deliver policy (Host.SocketData s data) w
     = (Throw (ThrowString ("Unknown event received: " ++ JSON_stringify decoded)), w))
  ∧ (type decoded ≠ RoomJoined →
     type decoded ≠ RequestAccepted →
     ∀ w : Client.World,
       socket_on_data (Client.socket w) ≠ [] →
       Client.deliver policy (Client.SocketData data) w
       = (Throw (ThrowString ("Unknown event received: " ++ JSON_stringify decoded)), w)).
Proof.
  intros Hparse. split.
  - intros H1 H2 H3 w s sock Hs Hls. unfold Host.deliver, Host.socket_listeners.
    js. rewrite Hs. simpl.
    destruct (socket_on_data sock) as [|l ls]; [done|].
    apply emit_throws. by apply Host_unknown_listener.
  - intros H1 H2 w Hls. unfold Client.deliver. js.
    destruct (socket_on_data (Client.socket w)) as [|l ls]; [done|].
    apply emit_throws. by apply Client_unknown_listener.
Qed.

(** C6.  [sendTo] with a client identifier that is not a key of the
    registry throws the error of an unregistered client to its caller and
    leaves the world as it was: nothing is sent on any peer, and the
    registry and every other field are unchanged. *)
Theorem sendTo_unknown_client {T} (w : Host.World) (clientId : string) (message : T) :
  clientId ∉ Map_keys (Host.connections w) →
  Host.sendTo clientId message w
  = (Throw (ThrowError ("Cannot send message to unregisted client: " ++ clientId)), w).
Proof.
  intros Habsent. apply Map_get_None in Habsent.
  unfold Host.sendTo, Map_has. js. rewrite Habsent.
  rewrite bool_decide_eq_false_2; [done|]. by intros [? ?].
Qed.

(** C7.  A RequestAccepted message from the relay is left without effect by
    both roles: delivering it completes normally and the world after it is
    the world before it, so that the registry, the room-created and
    room-joined futures, the callbacks and what was sent on the socket and
    on the peers are all as they were.  The members of the enum are taken
    to be distinct. *)
Theorem RequestAccepted_changes_nothing (data : BufferSource) decoded :
  RequestAccepted ≠ RoomCreated →
  RequestAccepted ≠ GuestRequest →
  RequestAccepted ≠ RoomJoined →
  JSON_parse (TextDecoder_decode data) = Some decoded →
  type decoded = RequestAccepted →
  (∀ (w : Host.World) s,
     Host.deliver policy (Host.SocketData s data) w = (Normal tt, w))
  ∧ (∀ w : Client.World,
       Client.deliver policy (Client.SocketData data) w = (Normal tt, w)
       ∧ (Client.jobs w = [] →
          Client.step policy w (Client.SocketData data) = w)).
Proof.
  intros H1 H2 H3 Hparse Htype.
  assert (HC : ∀ w : Client.World,
             Client.deliver policy (Client.SocketData data) w = (Normal tt, w)).
  { intros w. unfold Client.deliver. js. apply emit_fixed.
    intros [] _. unfold Client.run_OnSocketData. rewrite Hparse, Htype.
    rewrite decide_False by done. by rewrite decide_True. }
  split.
  - intros w s. unfold Host.deliver, Host.socket_listeners. js.
    apply emit_fixed. intros [] _. unfold Host.run_OnSocketData.
    rewrite Hparse, Htype. rewrite !decide_False by done.
    by rewrite decide_True.
  - intros w. split; [apply HC|]. intros Hjobs.
    unfold Client.step, exec. rewrite HC. simpl.
    unfold Client.drain. rewrite Hjobs. simpl. by destruct w; simplify_eq/=.
Qed.

(** C8.  [closeRoom] destroys the socket behind [this.socket] and nothing
    else: the registry and the store of peers are the same after the call,
    so no registered peer is destroyed and no entry is removed. *)
Theorem closeRoom_keeps_peers (w : Host.World) :
  Host.connections (exec Host.closeRoom w) = Host.connections w
  ∧ Host.peers (exec Host.closeRoom w) = Host.peers w
  ∧ (∀ client p, Map_get client (Host.connections w) = Some p →
       Host.peers (exec Host.closeRoom w) !! p = Host.peers w !! p)
  ∧ exec Host.closeRoom w
    = match Host.socket w with
      | Some s => Host.set_sockets (alter Socket_destroy s (Host.sockets w)) w
      | None => w
      end.
Proof.
  unfold Host.closeRoom, Host.this_socket. js.
  destruct (Host.socket w); simpl; by repeat split.
Qed.

Lemma alter_snoc {A} (f : A → A) (l : list A) (x : A) :
  alter f (length l) (l ++ [x])%list = (l ++ [f x])%list.
Proof.
  replace (length l) with (length l + 0) by lia. by rewrite alter_app_r.
Qed.

Lemma createRoom_exec (w : Host.World) :
  exec Host.createRoom w
  = Host.set_socket (Some (length (Host.sockets w)))
      (Host.set_sockets
         (Host.sockets w
          ++ [Socket_on_connect Host.SendCreateRoom
                (Socket_on_data Host.HandleResponse
                   (Socket_new (Host.signalServer w)))]) w).
Proof.
  unfold Host.createRoom, Host.registerEvents. js.
  unfold Host.set_sockets, Host.set_socket. simpl. by rewrite !alter_snoc.
Qed.

Lemma insert_snoc {A} (l : list A) (x y : A) :
  <[length l := y]> (l ++ [x])%list = (l ++ [y])%list.
Proof.
  replace (length l) with (length l + 0) by lia. by rewrite insert_app_r.
Qed.

Lemma registerGuest_run (w : Host.World) request :
  Host.registerGuest request w
  = (Normal tt,
     Host.set_peers
       (Host.peers w
        ++ [Peer_on_connect (Host.Register request (length (Host.peers w)))
              (Peer_on_signal (Host.SendAnswer request)
                 (Peer_signal (offer request) (Peer_new false false)).2)]) w).
Proof.
  unfold Host.registerGuest, Host.peer_signal. js.
  rewrite lookup_app_r, Nat.sub_diag by done. simpl.
  unfold Peer_signal. simpl.
  destruct (is_descriptor (offer request)); simpl;
    unfold Host.set_peers; simpl; by rewrite insert_snoc, !alter_snoc.
Qed.

Lemma Host_data_step (w : Host.World) s sock (data : BufferSource) :
  Host.sockets w !! s = Some sock →
  socket_on_data sock = [Host.HandleResponse] →
  let w' := Host.step policy w (Host.SocketData s data) in
  Host.sockets w' = Host.sockets w
  ∧ promise (Host.roomCreated w')
    = match promise (Host.roomCreated w) with
      | Some r => Some r
      | None =>
          match JSON_parse (TextDecoder_decode data) with
          | Some decoded =>
              if decide (type decoded = RoomCreated) then Some (room decoded)
              else None
          | None => None
          end
      end.
Proof.
  intros Hs Hls. unfold Host.step, Host.deliver, Host.socket_listeners.
  js. rewrite Hs. simpl. rewrite Hls. simpl. js.
  destruct (JSON_parse (TextDecoder_decode data)) as [decoded|]; simpl;
    [|by destruct (promise (Host.roomCreated w))].
  destruct (decide (type decoded = RoomCreated)).
  { unfold Host.resolve_roomCreated, ManagedPromise_resolve. simpl.
    destruct (promise (Host.roomCreated w)) eqn:Hp; simpl;
      [destruct policy; simpl; by rewrite Hp | done]. }
  destruct (decide (type decoded = GuestRequest)).
  { rewrite registerGuest_run. simpl. by destruct (promise (Host.roomCreated w)). }
  destruct (decide (type decoded = RequestAccepted)); simpl;
    by destruct (promise (Host.roomCreated w)).
Qed.

(** ** The invariant of the Host *)

Lemma Map_get_set {V} (k key : string) (v : V) (m : list (string * V)) :
  Map_get k (Map_set key v m) = if decide (key = k) then Some v else Map_get k m.
Proof.
  induction m as [|[a b] m IH]; simpl.
  - done.
  - destruct (decide (a = key)) as [->|Hne]; simpl.
    + by destruct (decide (key = k)).
    + rewrite IH. destruct (decide (a = k)) as [->|]; [|done].
      by rewrite decide_False by done.
Qed.

Lemma Map_get_is_Some {V} (k : string) (m : list (string * V)) :
  is_Some (Map_get k m) ↔ k ∈ Map_keys m.
Proof.
  destruct (Map_get k m) as [v|] eqn:Hget.
  - split; [intros _|by eauto].
    destruct (decide (k ∈ Map_keys m)) as [|Hn]; [done|].
    apply Map_get_None in Hn. congruence.
  - apply Map_get_None in Hget. split; [by intros [? ?]|done].
Qed.

Lemma Map_keys_set {V} (key : string) (v : V) (m : list (string * V)) :
  Map_keys (Map_set key v m)
  = if decide (key ∈ Map_keys m) then Map_keys m else (Map_keys m ++ [key])%list.
Proof.
  unfold Map_keys. induction m as [|[a b] m IH].
  - destruct (decide (key ∈ ([] : list (string * V)).*1)) as [Hin|]; [|done].
    by apply elem_of_nil in Hin.
  - cbn [Map_set]. destruct (decide (a = key)) as [->|Hne].
    + destruct (decide (key ∈ ((key, b) :: m).*1)) as [|Hn]; [done|].
      destruct Hn. by left.
    + cbn [fmap list_fmap fst]. rewrite IH.
      destruct (decide (key ∈ m.*1)) as [Hin|Hin];
        destruct (decide (key ∈ a :: m.*1)) as [Hin'|Hin']; try done.
      * destruct Hin'. by right.
      * apply elem_of_cons in Hin' as [?|?]; congruence.
Qed.

Lemma Map_keys_set_NoDup {V} (key : string) (v : V) (m : list (string * V)) :
  NoDup (Map_keys m) → NoDup (Map_keys (Map_set key v m)).
Proof.
  intros Hm. rewrite Map_keys_set. destruct (decide (key ∈ Map_keys m)); [done|].
  apply NoDup_app. split; [done|]. split; [|apply NoDup_singleton].
  intros x Hx Hx'. apply list_elem_of_singleton in Hx'. by subst.
Qed.

Lemma Map_get_elem_of {V} (k : string) (v : V) (m : list (string * V)) :
  Map_get k m = Some v → (k, v) ∈ m.
Proof.
  induction m as [|[a b] m IH]; simpl; [done|].
  destruct (decide (a = k)) as [->|]; [intros [= ->]; by left|].
  intros ?. right. by apply IH.
Qed.

Lemma elem_of_Map_get {V} (k : string) (v : V) (m : list (string * V)) :
  NoDup (Map_keys m) → (k, v) ∈ m → Map_get k m = Some v.
Proof.
  unfold Map_keys. induction m as [|[a b] m IH]; simpl.
  - intros _ Hin. by apply elem_of_nil in Hin.
  - intros [Ha Hm]%NoDup_cons Hin. apply elem_of_cons in Hin as [[= -> ->]|Hin].
    + by rewrite decide_True.
    + rewrite decide_False; [by apply IH|].
      intros ->. apply Ha. apply list_elem_of_fmap. by exists (k, v).
Qed.

Lemma alter_None {A} (f : A → A) (i : nat) (l : list A) :
  l !! i = None → alter f i l = l.
Proof.
  intros Hi. apply list_eq. intros j. destruct (decide (i = j)) as [<-|Hne].
  - by rewrite list_lookup_alter_eq, Hi.
  - by rewrite list_lookup_alter_ne.
Qed.

Lemma fmap_alter_same {A B} (f : A → B) (g : A → A) (i : nat) (l : list A) :
  (∀ x, f (g x) = f x) → f <$> alter g i l = f <$> l.
Proof.
  intros Hfg. rewrite (list_fmap_alter f g id).
  - by apply list_alter_id.
  - apply Forall_forall. intros x _. apply Hfg.
Qed.

Lemma emit_preserves {W L V} (view : W → V) (run : L → JS W unit) (ls : list L) :
  (∀ l w, l ∈ ls → view (run l w).2 = view w) →
  ∀ w, view (emit run ls w).2 = view w.
Proof.
  induction ls as [|l ls IH]; intros Hrun w; [done|].
  simpl. unfold mbind, JS_mbind, JS_bind.
  specialize (Hrun l w) as Hl.
  destruct (run l w) as [[[]|e] w1] eqn:Hr; simpl in *.
  - rewrite <-Hl by left. apply IH. intros l' w' Hl'. apply Hrun. by right.
  - apply Hl. by left.
Qed.

Lemma emit_invariant {W L} (P : W → Prop) (run : L → JS W unit) (ls : list L) :
  (∀ l w, l ∈ ls → P w → P (run l w).2) →
  ∀ w, P w → P (emit run ls w).2.
Proof.
  induction ls as [|l ls IH]; intros Hrun w Hw; [done|].
  simpl. unfold mbind, JS_mbind, JS_bind.
  specialize (Hrun l w) as Hl.
  destruct (run l w) as [[[]|e] w1] eqn:Hr; simpl in *.
  - apply IH; [|apply Hl; [by left|done]].
    intros l' w' Hl'. apply Hrun. by right.
  - apply Hl; [by left|done].
Qed.

Lemma emit_one {W L} (run : L → JS W unit) (l : L) (w : W) :
  (emit run [l] w).2 = (run l w).2.
Proof.
  simpl. unfold mbind, JS_mbind, JS_bind. by destruct (run l w) as [[[]|e] w1].
Qed.

Lemma peer_send_view (p : nat) (chunk : string) (w : Host.World) :
  Host_view (exec (Host.peer_send p chunk) w) = Host_view w.
Proof.
  unfold Host.peer_send, exec, Host_view.
  destruct (Host.peers w !! p) as [x|] eqn:Hp; simpl; [|done].
  rewrite list_fmap_insert.
  replace (shape (Peer_send chunk x).2) with (shape x).
  2:{ unfold Peer_send, shape. destruct (connected x) eqn:Hc; simpl;
        by rewrite ?Hc. }
  rewrite list_insert_id; [done|]. by rewrite list_lookup_fmap, Hp.
Qed.

Lemma socket_send_run (s : nat) (chunk : string) (w : Host.World) :
  Host.socket_send s chunk w
  = match Host.sockets w !! s with
    | Some x =>
        if socket_connected x
        then (Normal tt,
              Host.set_sockets
                (<[s := socket_with_sent chunk x]> (Host.sockets w)) w)
        else (Throw NotConnected, w)
    | None => (Throw (TypeError "dangling socket"), w)
    end.
Proof.
  unfold Host.socket_send, Socket_send.
  destruct (Host.sockets w !! s) as [x|] eqn:Hs; [|done].
  destruct (socket_connected x) eqn:Hc; simpl;
    [unfold socket_with_sent; by rewrite Hc|].
  rewrite list_insert_id by done. by destruct w.
Qed.

Lemma socket_send_view (chunk : string) (w : Host.World) :
  Host_view (exec (s ← Host.this_socket; Host.socket_send s chunk) w)
  = Host_view w.
Proof.
  unfold Host.this_socket. js. destruct (Host.socket w) as [s|]; simpl; [|done].
  rewrite socket_send_run.
  destruct (Host.sockets w !! s) as [x|] eqn:Hs; [|done].
  destruct (socket_connected x); [|done].
  unfold Host_view. simpl. rewrite list_fmap_insert. simpl.
  rewrite list_insert_id; [done|]. by rewrite list_lookup_fmap, Hs.
Qed.

Lemma guest_calls_message (cs : list Host.Call) cb message :
  guest_calls (cs ++ [Host.MessageReceived cb message]) = guest_calls cs.
Proof. unfold guest_calls. rewrite omap_app. simpl. apply app_nil_r. Qed.

Lemma guest_calls_joined (cs : list Host.Call) cb guest :
  guest_calls (cs ++ [Host.GuestJoined cb guest])
  = (guest_calls cs ++ [(cb, guest)])%list.
Proof. unfold guest_calls. by rewrite omap_app. Qed.

Lemma Host_frame_step (w : Host.World) (ev : Host.Event) :
  match ev with
  | Host.CallCreateRoom | Host.SocketData _ _ | Host.PeerConnect _
  | Host.PeerClose _ => False
  | _ => True
  end →
  Host_view (Host.step policy w ev) = Host_view w.
Proof.
  intros Hev. unfold Host.step. destruct ev; try done; simpl.
  - (* closeRoom *)
    unfold Host.closeRoom, Host.this_socket. js.
    destruct (Host.socket w); simpl; [|done].
    unfold Host_view. simpl. by rewrite fmap_alter_same.
  - (* sendToAll *)
    unfold Host.sendToAll. js.
    apply (emit_preserves Host_view). intros. apply peer_send_view.
  - (* sendTo *)
    unfold Host.sendTo. js.
    destruct (Map_has clientId (Host.connections w)); simpl; [|done].
    destruct (Map_get clientId (Host.connections w)); simpl; [|done].
    apply peer_send_view.
  - (* socket connect *)
    unfold Host.socket_listeners. js.
    rewrite (emit_preserves Host_view).
    + unfold Host_view. simpl. by rewrite fmap_alter_same.
    + intros [] w' _. apply socket_send_view.
  - (* peer signal *)
    unfold Host.peer_listeners. js.
    apply (emit_preserves Host_view). intros [request] w' _. apply socket_send_view.
  - (* peer data *)
    unfold Host.peer_listeners. js.
    apply (emit_preserves Host_view). intros [] w' _.
    unfold Host.run_OnPeerData, Host.call_onMessageReceived, exec.
    destruct (Host.onMessageReceived w'); simpl; [|done].
    unfold Host_view. simpl. by rewrite guest_calls_message.
Qed.

Lemma Host_createRoom_view (w : Host.World) :
  Host_view (Host.step policy w Host.CallCreateRoom)
  = ((socket_on_data <$> Host.sockets w) ++ [[Host.HandleResponse]],
     shape <$> Host.peers w, Host.connections w, guest_calls (Host.calls w))%list.
Proof.
  unfold Host.step. simpl. rewrite createRoom_exec.
  unfold Host_view. simpl. by rewrite fmap_app.
Qed.

Lemma registerGuest_peer request n :
  let x := Peer_on_connect (Host.Register request n)
             (Peer_on_signal (Host.SendAnswer request)
                (Peer_signal (offer request) (Peer_new false false)).2) in
  shape x = (false, [Host.Register request n], [])
  ∧ on_signal x = [Host.SendAnswer request]
  ∧ initiator x = false ∧ trickle x = false
  ∧ signalled x = (if is_descriptor (offer request) then [offer request] else [])
  ∧ destroyed x = negb (is_descriptor (offer request)).
Proof.
  unfold Peer_signal, shape. simpl. by destruct (is_descriptor (offer request)).
Qed.

Lemma Host_data_view (w : Host.World) s (data : BufferSource) :
  (∀ sock, Host.sockets w !! s = Some sock →
           socket_on_data sock = [Host.HandleResponse]) →
  Host_view (Host.step policy w (Host.SocketData s data))
  = match JSON_parse (TextDecoder_decode data) with
    | Some decoded =>
        if decide (s < length (Host.sockets w) ∧ type decoded ≠ RoomCreated
                   ∧ type decoded = GuestRequest)
        then (socket_on_data <$> Host.sockets w,
              (shape <$> Host.peers w)
              ++ [(false, [Host.Register decoded (length (Host.peers w))], [])],
              Host.connections w, guest_calls (Host.calls w))%list
        else Host_view w
    | None => Host_view w
    end.
Proof.
  intros Hls. unfold Host.step, Host.deliver, Host.socket_listeners. js.
  destruct (Host.sockets w !! s) as [sock|] eqn:Hs; simpl.
  - rewrite (Hls _ eq_refl). simpl. js.
    apply lookup_lt_Some in Hs.
    destruct (JSON_parse (TextDecoder_decode data)) as [decoded|]; simpl; [|done].
    destruct (decide (type decoded = RoomCreated)).
    { rewrite decide_False by (intros (_ & ? & _); done).
      unfold Host.resolve_roomCreated. simpl.
      by destruct (ManagedPromise_resolve _ _ _).1. }
    destruct (decide (type decoded = GuestRequest)).
    { rewrite decide_True by done. rewrite registerGuest_run. simpl.
      unfold Host_view. simpl. rewrite fmap_app. simpl.
      by rewrite (proj1 (registerGuest_peer decoded _)). }
    rewrite (decide_False (P := _ ∧ _)) by (intros (_ & _ & ?); done).
    by destruct (decide (type decoded = RequestAccepted)).
  - apply lookup_ge_None in Hs.
    destruct (JSON_parse (TextDecoder_decode data)) as [decoded|]; [|done].
    rewrite decide_False; [done|]. intros [? _]. lia.
Qed.

Lemma Host_close_view (w : Host.World) p :
  Host_view (Host.step policy w (Host.PeerClose p))
  = (socket_on_data <$> Host.sockets w,
     alter (λ sh, (false, sh.1.2, sh.2)) p (shape <$> Host.peers w),
     Host.connections w, guest_calls (Host.calls w)).
Proof.
  unfold Host.step, Host.deliver. js. unfold Host_view. simpl.
  by rewrite (list_fmap_alter shape Peer_destroy (λ sh, (false, sh.1.2, sh.2)))
    by (by apply Forall_forall).
Qed.

Lemma Host_connect_exec (w : Host.World) p x request :
  Host.peers w !! p = Some x →
  on_connect x = [Host.Register request p] →
  Host.deliver policy (Host.PeerConnect p) w
  = match Host.guestJoinedCallback w with
    | Some cb =>
        (Normal tt,
         {| Host.socket := Host.socket w;
            Host.connections := Map_set (client request) p (Host.connections w);
            Host.onMessageReceived := Host.onMessageReceived w;
            Host.signalServer := Host.signalServer w;
            Host.guestJoinedCallback := Host.guestJoinedCallback w;
            Host.roomCreated := Host.roomCreated w;
            Host.sockets := Host.sockets w;
            Host.peers :=
              <[p := Peer_on_data Host.Forward (Peer_open x)]> (Host.peers w);
            Host.calls := Host.calls w ++ [Host.GuestJoined cb (client request)] |})
    | None =>
        (Throw (TypeError "this.guestJoinedCallback is not a function"),
         {| Host.socket := Host.socket w;
            Host.connections := Map_set (client request) p (Host.connections w);
            Host.onMessageReceived := Host.onMessageReceived w;
            Host.signalServer := Host.signalServer w;
            Host.guestJoinedCallback := Host.guestJoinedCallback w;
            Host.roomCreated := Host.roomCreated w;
            Host.sockets := Host.sockets w;
            Host.peers := <[p := Peer_open x]> (Host.peers w);
            Host.calls := Host.calls w |})
    end.
Proof.
  intros Hp Hl. unfold Host.deliver, Host.peer_listeners. js.
  rewrite list_lookup_alter_eq, Hp. simpl. rewrite Hl. simpl. js.
  unfold Host.call_guestJoinedCallback. simpl.
  assert (Ha : ∀ f, alter f p (Host.peers w) = <[p := f x]> (Host.peers w)).
  { intros f. apply list_eq. intros i. apply lookup_lt_Some in Hp as Hlt.
    destruct (decide (p = i)) as [<-|Hne].
    - by rewrite list_lookup_alter_eq, list_lookup_insert_eq, Hp.
    - by rewrite list_lookup_alter_ne, list_lookup_insert_ne. }
  destruct (Host.guestJoinedCallback w) eqn:Hcb; simpl;
    unfold Host.set_peers, Host.set_calls, Host.set_connections; simpl;
    rewrite ?list_alter_alter_eq, Ha, Hcb; done.
Qed.

Lemma view_ok_request ss ps registry joined request :
  view_ok (ss, ps, registry, joined) →
  view_ok (ss, (ps ++ [(false, [Host.Register request (length ps)], [])])%list,
           registry, joined).
Proof.
  intros (Hs & Hp & Hr & Hc & Hj & Hk). repeat split; [done| | | |done|done].
  - intros p c l d [Hold|[-> [= <- <- <-]]]%lookup_snoc_Some.
    + destruct Hold as [_ Hold]. by apply Hp in Hold.
    + by exists request.
  - intros guest p Hget. destruct (Hr _ _ Hget) as (c & r & d & Hlook & <-).
    exists c, r, d. split; [|done]. by apply lookup_app_l_Some.
  - intros p r d [[_ Hold]|[_ [=]]]%lookup_snoc_Some. by eapply Hc.
Qed.

Lemma view_ok_close ss ps registry joined p :
  view_ok (ss, ps, registry, joined) →
  view_ok (ss, alter (λ sh, (false, sh.1.2, sh.2)) p ps, registry, joined).
Proof.
  intros (Hs & Hp & Hr & Hc & Hj & Hk).
  assert (Hlook : ∀ q c l d,
            alter (λ sh : bool * list Host.OnPeerConnect * list Host.OnPeerData,
                     (false, sh.1.2, sh.2)) p ps !! q = Some (c, l, d) →
            ∃ c', ps !! q = Some (c', l, d) ∧ (c = true → c' = true)).
  { intros q c l d. destruct (decide (p = q)) as [<-|Hne].
    - rewrite list_lookup_alter_eq.
      destruct (ps !! p) as [[[c' l'] d']|]; [|done].
      simpl. intros [= <- <- <-]. by exists c'.
    - rewrite list_lookup_alter_ne by done. intros Hq. by exists c. }
  repeat split; [done| | | |done|done].
  - intros q c l d (c' & Hq & _)%Hlook. by eapply Hp.
  - intros guest q Hget. destruct (Hr _ _ Hget) as (c & r & d & Hq & <-).
    destruct (decide (p = q)) as [<-|Hne].
    + exists false, r, d. by rewrite list_lookup_alter_eq, Hq.
    + exists c, r, d. by rewrite list_lookup_alter_ne.
  - intros q r d (c' & Hq & Hc')%Hlook. rewrite Hc' in Hq by done. by eapply Hc.
Qed.

Lemma view_ok_connect ss ps registry joined joined' p c request d d' :
  view_ok (ss, ps, registry, joined) →
  ps !! p = Some (c, [Host.Register request p], d) →
  (∀ x, x ∈ joined' → x ∈ joined ∨ x.2 = client request) →
  view_ok (ss, <[p := (true, [Host.Register request p], d')]> ps,
           Map_set (client request) p registry, joined').
Proof.
  intros (Hs & Hp & Hr & Hc & Hj & Hk) Hlook Hjoined.
  apply lookup_lt_Some in Hlook as Hlt.
  assert (Hkeep : ∀ q cq r dq, ps !! q = Some (cq, [Host.Register r q], dq) →
            ∃ cq' dq', <[p := (true, [Host.Register request p], d')]> ps !! q
                       = Some (cq', [Host.Register r q], dq')).
  { intros q cq r dq Hq. destruct (decide (p = q)) as [<-|Hne].
    - rewrite list_lookup_insert_eq by done. exists true, d'.
      rewrite Hlook in Hq. by injection Hq as _ <- _.
    - exists cq, dq. by rewrite list_lookup_insert_ne. }
  repeat split; [done| | | | |by apply Map_keys_set_NoDup].
  - intros q c' l dq Hq. destruct (decide (p = q)) as [<-|Hne].
    + rewrite list_lookup_insert_eq in Hq by done. injection Hq as <- <- <-.
      by exists request.
    + rewrite list_lookup_insert_ne in Hq by done. by eapply Hp.
  - intros guest q. rewrite Map_get_set.
    destruct (decide (client request = guest)) as [<-|Hne].
    + intros [= <-]. exists true, request, d'. by rewrite list_lookup_insert_eq.
    + intros Hget. destruct (Hr _ _ Hget) as (cq & r & dq & Hq & <-).
      destruct (Hkeep _ _ _ _ Hq) as (cq' & dq' & Hq'). by exists cq', r, dq'.
  - intros q r dq Hq. rewrite Map_get_set.
    destruct (decide (client request = client r)); [by eexists|].
    destruct (decide (p = q)) as [<-|Hne].
    + rewrite list_lookup_insert_eq in Hq by done. by injection Hq as <- _.
    + rewrite list_lookup_insert_ne in Hq by done. by eapply Hc.
  - intros cb guest Hin. rewrite Map_get_set.
    destruct (decide (client request = guest)); [by eexists|].
    destruct (Hjoined _ Hin) as [Hold|Hnew]; [by eapply Hj|done].
Qed.

Lemma Host_connect_view (w : Host.World) p x request :
  Host.peers w !! p = Some x →
  on_connect x = [Host.Register request p] →
  ∃ d' joined',
    Host_view (Host.step policy w (Host.PeerConnect p))
    = (socket_on_data <$> Host.sockets w,
       <[p := (true, [Host.Register request p], d')]> (shape <$> Host.peers w),
       Map_set (client request) p (Host.connections w), joined')
    ∧ ∀ j, j ∈ joined' → j ∈ guest_calls (Host.calls w) ∨ j.2 = client request.
Proof.
  intros Hx Hl. unfold Host.step, exec.
  rewrite (Host_connect_exec w p x request Hx Hl). unfold Host_view.
  destruct (Host.guestJoinedCallback w) as [cb|]; simpl;
    rewrite list_fmap_insert; unfold shape at 1; simpl; rewrite Hl.
  - eexists _, _. split; [reflexivity|]. intros [cb' guest].
    rewrite guest_calls_joined.
    intros [?|Hin%list_elem_of_singleton]%elem_of_app; [by left|].
    right. by injection Hin as _ ->.
  - eexists _, _. split; [reflexivity|]. intros ? ?. by left.
Qed.

Lemma Host_inv_new server : Host_inv (Host.new server).
Proof.
  unfold Host_inv, Host_view. simpl. repeat split; try done.
  - intros cb guest Hin. by apply elem_of_nil in Hin.
  - apply NoDup_nil_2.
Qed.

Lemma Host_inv_step (w : Host.World) (ev : Host.Event) :
  Host_inv w → Host_inv (Host.step policy w ev).
Proof.
  intros Hinv. unfold Host_inv in *.
  destruct ev; try by rewrite Host_frame_step.
  all: try (rewrite Host_close_view; by apply view_ok_close).
  - (* createRoom *)
    rewrite Host_createRoom_view. unfold Host_view in Hinv.
    destruct Hinv as (Hs & Hrest). split; [|done].
    intros s ls [[_ Hold]|[_ <-]]%lookup_snoc_Some; [by eapply Hs | done].
  - (* a message from the relay *)
    rewrite Host_data_view.
    + destruct (JSON_parse (TextDecoder_decode data)) as [decoded|]; [|done].
      destruct (decide _); [|done].
      unfold Host_view in Hinv.
      apply (view_ok_request _ _ _ _ decoded) in Hinv.
      by rewrite length_fmap in Hinv.
    + intros sock Hsock. destruct Hinv as (Hs & _).
      apply (Hs s). by rewrite list_lookup_fmap, Hsock.
  - (* a peer channel opens *)
    destruct (Host.peers w !! p) as [x|] eqn:Hx.
    + assert (Hshape : (shape <$> Host.peers w) !! p = Some (shape x))
        by (by rewrite list_lookup_fmap, Hx).
      pose proof Hinv as (_ & Hp & _).
      destruct (Hp _ _ _ _ Hshape) as (request & Hl).
      destruct (Host_connect_view w p x request Hx Hl) as (d' & joined' & -> & Hj).
      eapply view_ok_connect; [exact Hinv| |exact Hj].
      unfold shape in Hshape. rewrite Hl in Hshape. exact Hshape.
    + replace (Host_view (Host.step policy w (Host.PeerConnect p)))
        with (Host_view w); [done|].
      unfold Host.step, Host.deliver, Host.peer_listeners. js.
      rewrite list_lookup_alter_eq, Hx. simpl.
      unfold Host_view. simpl. by rewrite alter_None.
Qed.

Lemma Host_inv_run (evs : list Host.Event) (w : Host.World) :
  Host_inv w → Host_inv (Host.run policy evs w).
Proof.
  revert w. induction evs as [|ev evs IH]; intros w Hinv; [done|].
  simpl. apply IH. by apply Host_inv_step.
Qed.

Lemma Host_inv_reachable server (evs : list Host.Event) :
  Host_inv (Host.run policy evs (Host.new server)).
Proof. apply Host_inv_run, Host_inv_new. Qed.

Lemma tuple4_eq {A B C D} (a a' : A) (b b' : B) (c c' : C) (d d' : D) :
  (a, b, c, d) = (a', b', c', d') → a = a' ∧ b = b' ∧ c = c' ∧ d = d'.
Proof. by intros [= -> -> -> ->]. Qed.

(** An event other than the opening of a peer channel leaves the registry
    and the guest-joined calls alone; it at most closes the channel of one
    peer and adds peers that are not connected and have no ['data']
    listener. *)
Lemma Host_other_view (w : Host.World) (ev : Host.Event) :
  Host_inv w →
  (∀ p, ev ≠ Host.PeerConnect p) →
  ∃ ss extra,
    Host_view (Host.step policy w ev)
    = (ss, (closed_by ev (shape <$> Host.peers w) ++ extra)%list,
       Host.connections w, guest_calls (Host.calls w))
    ∧ Forall (λ sh, sh.1.1 = false ∧ sh.2 = []) extra.
Proof.
  intros Hinv Hev. destruct ev;
    try (rewrite Host_frame_step by done; eexists _, [];
         by rewrite app_nil_r).
  - rewrite Host_createRoom_view. eexists _, []. by rewrite app_nil_r.
  - rewrite Host_data_view.
    + destruct (JSON_parse (TextDecoder_decode data)) as [decoded|];
        [destruct (decide _)|]; try (eexists _, []; by rewrite app_nil_r).
      eexists _, _. split; [done|]. by apply Forall_singleton.
    + intros sock Hsock. destruct Hinv as (Hs & _).
      apply (Hs s). by rewrite list_lookup_fmap, Hsock.
  - by destruct (Hev p).
  - rewrite Host_close_view. eexists _, []. by rewrite app_nil_r.
Qed.

Lemma Map_values_elem_of {V} (v : V) (m : list (string * V)) :
  v ∈ Map_values m → ∃ k, (k, v) ∈ m.
Proof.
  unfold Map_values. intros ([k v'] & -> & Hin)%list_elem_of_fmap. by exists k.
Qed.

Lemma Map_values_set {V} (key : string) (v v' : V) (m : list (string * V)) :
  v' ∈ Map_values (Map_set key v m) → v' = v ∨ v' ∈ Map_values m.
Proof.
  unfold Map_values. induction m as [|[k u] m IH]; simpl.
  - intros ->%list_elem_of_singleton. by left.
  - destruct (decide (k = key)) as [->|Hne]; simpl.
    + intros [->|Hin]%elem_of_cons; [by left|]. right. by right.
    + intros [->|Hin]%elem_of_cons; [right; by left|].
      destruct (IH Hin) as [->|Hold]; [by left|]. right. by right.
Qed.

Lemma touched_view (w : Host.World) p : touched w p ↔ touched_in (Host_view w) p.
Proof.
  unfold touched, touched_in, Host_view. split.
  - intros [Hin|(x & Hx & Hd)]; [by left|]. right.
    exists (connected x), (on_connect x), (on_data x).
    by rewrite list_lookup_fmap, Hx.
  - intros [Hin|(c & l & d & Hlook & Hd)]; [by left|]. right.
    rewrite list_lookup_fmap in Hlook.
    destruct (Host.peers w !! p) as [x|]; [|done].
    injection Hlook as <- <- <-. by exists x.
Qed.

Lemma closed_by_lookup (ev : Host.Event) ps p c l d :
  closed_by ev ps !! p = Some (c, l, d) →
  ∃ c', ps !! p = Some (c', l, d)
        ∧ (c = c' ∨ (ev = Host.PeerClose p ∧ c = false)).
Proof.
  destruct ev; simpl; try (intros Hp; exists c; by auto).
  rename p0 into q. destruct (decide (q = p)) as [->|Hne].
  - rewrite list_lookup_alter_eq.
    destruct (ps !! p) as [[[c' l'] d']|]; [|done]. simpl.
    intros [= <- <- <-]. exists c'. by auto.
  - rewrite list_lookup_alter_ne by done. intros Hp. exists c. by auto.
Qed.

(** Only the ['connect'] event of a peer of the store makes it touched. *)
Lemma Host_step_touched (w : Host.World) (ev : Host.Event) p :
  Host_inv w →
  touched (Host.step policy w ev) p →
  touched w p ∨ (ev = Host.PeerConnect p ∧ p < length (Host.peers w)).
Proof.
  intros Hinv. rewrite !touched_view.
  assert (Hother : (∀ q, ev ≠ Host.PeerConnect q) →
            touched_in (Host_view (Host.step policy w ev)) p →
            touched_in (Host_view w) p).
  { intros Hev.
    destruct (Host_other_view w ev Hinv Hev) as (ss & extra & -> & Hextra).
    unfold Host_view. simpl.
    intros [Hin|(c & l & d & Hlook & Hd)]; [by left|]. right.
    apply lookup_app_Some in Hlook as [Hlook|[_ Hlook]].
    - apply closed_by_lookup in Hlook as (c' & Hlook & Hc).
      exists c', l, d. split; [done|].
      destruct Hd as [Hd| ->]; [by left|]. right.
      by destruct Hc as [<-|[_ ?]].
    - apply list_elem_of_lookup_2 in Hlook.
      rewrite Forall_forall in Hextra. apply Hextra in Hlook as [Hc Hd'].
      simpl in *. subst. by destruct Hd. }
  destruct ev; try (intros Hin; left; by apply Hother).
  rename p0 into q.
  destruct (Host.peers w !! q) as [x|] eqn:Hx.
  - assert (Hshape : (shape <$> Host.peers w) !! q = Some (shape x))
      by (by rewrite list_lookup_fmap, Hx).
    pose proof Hinv as (_ & Hp & _).
    destruct (Hp _ _ _ _ Hshape) as (request & Hl).
    destruct (Host_connect_view w q x request Hx Hl) as (d' & joined' & -> & _).
    destruct (decide (q = p)) as [->|Hne].
    { intros _. right. split; [done|]. by apply lookup_lt_Some in Hx. }
    intros [Hin|(c & l & d & Hlook & Hd)]; left.
    + apply Map_values_set in Hin as [->|Hin]; [done|]. by left.
    + right. rewrite list_lookup_insert_ne in Hlook by done. by exists c, l, d.
  - replace (Host_view (Host.step policy w (Host.PeerConnect q)))
      with (Host_view w); [by left|].
    unfold Host.step, Host.deliver, Host.peer_listeners. js.
    rewrite list_lookup_alter_eq, Hx. simpl.
    unfold Host_view. simpl. by rewrite alter_None.
Qed.

(** The numbers of sockets and of peers after an event. *)
Lemma Host_step_counts (w : Host.World) (ev : Host.Event) :
  Host_inv w →
  length (Host.sockets (Host.step policy w ev))
  = match ev with
    | Host.CallCreateRoom => S (length (Host.sockets w))
    | _ => length (Host.sockets w)
    end
  ∧ length (Host.peers (Host.step policy w ev))
    = match ev with
      | Host.SocketData s data =>
          match JSON_parse (TextDecoder_decode data) with
          | Some decoded =>
              if decide (s < length (Host.sockets w)
                         ∧ type decoded ≠ RoomCreated
                         ∧ type decoded = GuestRequest)
              then S (length (Host.peers w))
              else length (Host.peers w)
          | None => length (Host.peers w)
          end
      | _ => length (Host.peers w)
      end.
Proof.
  intros Hinv.
  assert (Hview : ∀ ss ps registry joined,
            Host_view (Host.step policy w ev) = (ss, ps, registry, joined) →
            length (Host.sockets (Host.step policy w ev)) = length ss
            ∧ length (Host.peers (Host.step policy w ev)) = length ps).
  { intros ss ps registry joined Hv. unfold Host_view in Hv.
    injection Hv as <- <- _ _. by rewrite !length_fmap. }
  assert (Hframe : Host_view (Host.step policy w ev) = Host_view w →
            length (Host.sockets (Host.step policy w ev))
            = length (Host.sockets w)
            ∧ length (Host.peers (Host.step policy w ev))
              = length (Host.peers w)).
  { intros Hv. apply Hview in Hv as [-> ->]. by rewrite !length_fmap. }
  destruct ev; try (apply Hframe; by apply Host_frame_step).
  - destruct (Hview _ _ _ _ (Host_createRoom_view w)) as [-> ->].
    rewrite length_app, !length_fmap. simpl. split; [lia|done].
  - assert (Hls : ∀ sock, Host.sockets w !! s = Some sock →
                    socket_on_data sock = [Host.HandleResponse]).
    { intros sock Hsock. destruct Hinv as (Hs & _).
      apply (Hs s). by rewrite list_lookup_fmap, Hsock. }
    pose proof (Host_data_view w s data Hls) as Hv.
    destruct (JSON_parse (TextDecoder_decode data)) as [decoded|];
      [destruct (decide _)|]; try by apply Hframe.
    apply Hview in Hv as [-> ->]. rewrite length_app, !length_fmap. simpl.
    split; [done|lia].
  - destruct (Host.peers w !! p) as [x|] eqn:Hx.
    + assert (Hshape : (shape <$> Host.peers w) !! p = Some (shape x))
        by (by rewrite list_lookup_fmap, Hx).
      pose proof Hinv as (_ & Hp & _).
      destruct (Hp _ _ _ _ Hshape) as (request & Hl).
      destruct (Host_connect_view w p x request Hx Hl) as (d' & joined' & Hv & _).
      apply Hview in Hv as [-> ->]. by rewrite length_insert, !length_fmap.
    + apply Hframe.
      unfold Host.step, Host.deliver, Host.peer_listeners. js.
      rewrite list_lookup_alter_eq, Hx. simpl.
      unfold Host_view. simpl. by rewrite alter_None.
  - destruct (Hview _ _ _ _ (Host_close_view w p)) as [-> ->].
    by rewrite length_alter, !length_fmap.
Qed.

Lemma Host_run_touched (evs : list Host.Event) (w : Host.World) p :
  Host_inv w →
  touched (Host.run policy evs w) p →
  touched w p
  ∨ p ∈ connects (length (Host.sockets w)) (length (Host.peers w)) evs.
Proof.
  revert w. induction evs as [|ev evs IH]; intros w Hinv; [by left|].
  change (Host.run policy (ev :: evs) w)
    with (Host.run policy evs (Host.step policy w ev)).
  intros Ht. apply IH in Ht; [|by apply Host_inv_step].
  destruct (Host_step_counts w ev Hinv) as [Hs Hp]. rewrite Hs, Hp in Ht.
  destruct Ht as [Ht|Hin].
  - apply Host_step_touched in Ht; [|done].
    destruct Ht as [Ht|[-> Hlt]]; [by left|].
    right. simpl. rewrite decide_True by done. by left.
  - right. destruct ev; simpl; try done.
    + destruct (JSON_parse (TextDecoder_decode data)) as [decoded|]; [|done].
      by destruct (decide _).
    + destruct (decide _); [by right|done].
Qed.

Lemma Host_peer_listener (w : Host.World) p x :
  Host_inv w → Host.peers w !! p = Some x →
  ∃ request, on_connect x = [Host.Register request p].
Proof.
  intros (_ & Hp & _) Hx.
  destruct (Hp p (connected x) (on_connect x) (on_data x)) as (request & Hl).
  - by rewrite list_lookup_fmap, Hx.
  - by exists request.
Qed.

(** A connected peer stays connected until its channel closes, and the
    ['connect'] event of a peer connects it. *)
Lemma Host_step_connected (w : Host.World) (ev : Host.Event) p x :
  Host_inv w →
  ev ≠ Host.PeerClose p →
  Host.peers w !! p = Some x →
  connected x = true ∨ ev = Host.PeerConnect p →
  ∃ x', Host.peers (Host.step policy w ev) !! p = Some x'
        ∧ connected x' = true.
Proof.
  intros Hinv Hev Hx Hc.
  assert (Hshape : ∀ l d,
            (shape <$> Host.peers (Host.step policy w ev)) !! p
            = Some (true, l, d) →
            ∃ x', Host.peers (Host.step policy w ev) !! p = Some x'
                  ∧ connected x' = true).
  { intros l d Hlook. rewrite list_lookup_fmap in Hlook.
    destruct (Host.peers (Host.step policy w ev) !! p) as [x'|]; [|done].
    injection Hlook as Hcx _ _. by exists x'. }
  assert (Hold : (shape <$> Host.peers w) !! p = Some (shape x))
    by (by rewrite list_lookup_fmap, Hx).
  assert (Hcase : (∃ q, ev = Host.PeerConnect q) ∨ ∀ q, ev ≠ Host.PeerConnect q)
    by (destruct ev; try (by right); left; by eexists).
  destruct Hcase as [[q ->]|Hne].
  - destruct (Host.peers w !! q) as [y|] eqn:Hy.
    + destruct (Host_peer_listener w q y Hinv Hy) as [request Hl].
      destruct (Host_connect_view w q y request Hy Hl) as (d' & joined' & Hv & _).
      unfold Host_view in Hv. apply tuple4_eq in Hv as (_ & Hps & _ & _).
      destruct (decide (q = p)) as [->|Hqp].
      * eapply Hshape. rewrite Hps.
        apply list_lookup_insert_eq. rewrite length_fmap.
        by eapply lookup_lt_Some.
      * destruct Hc as [Hc|[= Heq]]; [|done].
        apply (Hshape (on_connect x) (on_data x)).
        rewrite Hps, list_lookup_insert_ne by done.
        rewrite Hold. unfold shape. by rewrite Hc.
    + destruct Hc as [Hc|[= Heq]]; [|by rewrite Heq, Hx in Hy].
      exists x. split; [|done].
      unfold Host.step, Host.deliver, Host.peer_listeners. js.
      rewrite list_lookup_alter_eq, Hy. simpl. by rewrite alter_None.
  - destruct Hc as [Hc|Heq]; [|by destruct (Hne p)].
    destruct (Host_other_view w ev Hinv Hne) as (ss & extra & Hv & _).
    unfold Host_view in Hv. apply tuple4_eq in Hv as (_ & Hps & _ & _).
    apply (Hshape (on_connect x) (on_data x)). rewrite Hps.
    apply lookup_app_l_Some. destruct ev; simpl; try (by rewrite Hold, <-Hc).
    rewrite list_lookup_alter_ne by congruence. by rewrite Hold, <-Hc.
Qed.

Lemma Host_run_connected (evs : list Host.Event) (w : Host.World) p :
  Host_inv w →
  Host.PeerClose p ∉ evs →
  (touched w p → ∃ x, Host.peers w !! p = Some x ∧ connected x = true) →
  touched (Host.run policy evs w) p →
  ∃ x, Host.peers (Host.run policy evs w) !! p = Some x ∧ connected x = true.
Proof.
  revert w. induction evs as [|ev evs IH]; intros w Hinv Hevs Hw; [done|].
  apply not_elem_of_cons in Hevs as [Hev Hevs].
  change (Host.run policy (ev :: evs) w)
    with (Host.run policy evs (Host.step policy w ev)).
  apply IH; [by apply Host_inv_step|done|].
  intros Ht. apply Host_step_touched in Ht; [|done].
  destruct Ht as [Ht|[-> Hlt]].
  - destruct (Hw Ht) as (x & Hx & Hc).
    apply (Host_step_connected w ev p x); auto.
  - destruct (Host.peers w !! p) as [x|] eqn:Hx;
      [|apply lookup_ge_None in Hx; lia].
    apply (Host_step_connected w _ p x); auto.
Qed.

Lemma Host_new_untouched server p : ¬ touched (Host.new server) p.
Proof.
  intros [Hin|(x & Hx & _)]; [by apply elem_of_nil in Hin|done].
Qed.

(** C5.  In every state a Host reaches from its construction, by any calls
    and any events of its sockets and peers: an entry of the registry maps
    the client of a handshake to the peer of that handshake, and that peer
    has had its ['connect'] event; a peer that has not had its ['connect']
    event is in no entry, has no ['data'] listener and is not connected;
    every call of the guest-joined callback named the client of a peer
    that has had its ['connect'] event.  An event that is not the
    ['connect'] of a peer changes neither the registry, nor the
    guest-joined calls, nor the ['data'] listeners of any peer, and it
    connects no peer: a peer stays connected or unconnected as it was,
    but for the peer whose channel closes.  The ['connect'] event of a
    peer, when a guest-joined callback is set, registers that peer under
    the client of its own handshake, calls the callback with that client
    and attaches the ['data'] listener to that peer.  As long as the
    channel of a peer has not closed, the peer is connected when it is
    in the registry, and it is in no entry and has no ['data'] listener
    when it is not connected. *)
Theorem guest_registered_on_own_connect server (evs : list Host.Event) :
  let w := Host.run policy evs (Host.new server) in
  (∀ guest p, (guest, p) ∈ Host.connections w →
     p ∈ connects 0 0 evs
     ∧ ∃ x request, Host.peers w !! p = Some x
                    ∧ on_connect x = [Host.Register request p]
                    ∧ client request = guest)
  ∧ (∀ p x, Host.peers w !! p = Some x → p ∉ connects 0 0 evs →
       on_data x = [] ∧ (p ∉ Map_values (Host.connections w))
       ∧ connected x = false)
  ∧ (∀ cb guest, Host.GuestJoined cb guest ∈ Host.calls w →
       ∃ p x request, p ∈ connects 0 0 evs
                      ∧ Host.peers w !! p = Some x
                      ∧ on_connect x = [Host.Register request p]
                      ∧ client request = guest)
  ∧ (∀ ev, (∀ p, ev ≠ Host.PeerConnect p) →
       Host.connections (Host.step policy w ev) = Host.connections w
       ∧ guest_calls (Host.calls (Host.step policy w ev))
         = guest_calls (Host.calls w)
       ∧ ∀ p x, Host.peers w !! p = Some x →
           ∃ x', Host.peers (Host.step policy w ev) !! p = Some x'
                 ∧ on_data x' = on_data x
                 ∧ (connected x' = connected x
                    ∨ (ev = Host.PeerClose p ∧ connected x' = false)))
  ∧ (∀ p x cb, Host.peers w !! p = Some x →
       Host.guestJoinedCallback w = Some cb →
       ∃ request,
         on_connect x = [Host.Register request p]
         ∧ Host.deliver policy (Host.PeerConnect p) w
           = (Normal tt,
              Host.set_peers
                (<[p := Peer_on_data Host.Forward (Peer_open x)]> (Host.peers w))
                (Host.set_calls
                   (Host.calls w ++ [Host.GuestJoined cb (client request)])
                   (Host.set_connections
                      (Map_set (client request) p (Host.connections w)) w))))
  ∧ (∀ p x, Host.PeerClose p ∉ evs → Host.peers w !! p = Some x →
       (p ∈ Map_values (Host.connections w) → connected x = true)
       ∧ (connected x = false →
          on_data x = [] ∧ p ∉ Map_values (Host.connections w))).
Proof.
  intros w. pose proof (Host_inv_reachable server evs) as Hinv. fold w in Hinv.
  pose proof Hinv as (Hs & Hp & Hr & Hc & Hj & Hk).
  assert (Hshape : ∀ p c l d, (shape <$> Host.peers w) !! p = Some (c, l, d) →
            ∃ x, Host.peers w !! p = Some x ∧ connected x = c
                 ∧ on_connect x = l ∧ on_data x = d).
  { intros p c l d Hlook. rewrite list_lookup_fmap in Hlook.
    destruct (Host.peers w !! p) as [x|]; [|done].
    injection Hlook as <- <- <-. by exists x. }
  assert (Htouched : ∀ p, touched w p → p ∈ connects 0 0 evs).
  { intros p Ht. apply Host_run_touched in Ht; [|apply Host_inv_new].
    destruct Ht as [Ht|Hin]; [by apply Host_new_untouched in Ht|done]. }
  assert (Hget : ∀ guest p, Map_get guest (Host.connections w) = Some p →
     p ∈ connects 0 0 evs
     ∧ ∃ x request, Host.peers w !! p = Some x
                    ∧ on_connect x = [Host.Register request p]
                    ∧ client request = guest).
  { intros guest p Hin. split.
    - apply Htouched. left. apply Map_get_elem_of in Hin.
      unfold Map_values. apply list_elem_of_fmap. by exists (guest, p).
    - destruct (Hr _ _ Hin) as (c & request & d & Hlook & <-).
      destruct (Hshape _ _ _ _ Hlook) as (x & Hx & Hcx & Hlx & _).
      by exists x, request. }
  split; [|split; [|split; [|split; [|split]]]].
  - intros guest p Hin. apply Hget. by apply elem_of_Map_get.
  - intros p x Hx Hnot. split; [|split].
    + destruct (on_data x) eqn:Hd; [done|]. destruct Hnot. apply Htouched.
      right. exists x. split; [done|]. left. by rewrite Hd.
    + intros Hin. destruct Hnot. apply Htouched. by left.
    + destruct (connected x) eqn:Hcx; [|done]. destruct Hnot. apply Htouched.
      right. exists x. by auto.
  - intros cb guest Hin.
    assert (Hin' : (cb, guest) ∈ guest_calls (Host.calls w)).
    { apply list_elem_of_omap. by exists (Host.GuestJoined cb guest). }
    destruct (Hj _ _ Hin') as [p Hp'].
    destruct (Hget _ _ Hp') as (Hconn & x & request & Hx & Hl & Hg).
    by exists p, x, request.
  - intros ev Hev.
    destruct (Host_other_view w ev Hinv Hev) as (ss & extra & Hv & _).
    unfold Host_view in Hv. apply tuple4_eq in Hv as (_ & Hps & Hconn & Hcalls).
    split; [done|]. split; [done|]. intros p x Hx.
    assert (Hlook : ∃ c, (shape <$> Host.peers (Host.step policy w ev)) !! p
                         = Some (c, on_connect x, on_data x)
                         ∧ (c = connected x
                            ∨ (ev = Host.PeerClose p ∧ c = false))).
    { rewrite Hps.
      assert (Hold : (shape <$> Host.peers w) !! p = Some (shape x))
        by (by rewrite list_lookup_fmap, Hx).
      destruct ev; simpl;
        try (exists (connected x); split; [by apply lookup_app_l_Some|by left]).
      rename p0 into q. destruct (decide (q = p)) as [->|Hne].
      - exists false. split; [|by right]. apply lookup_app_l_Some.
        by rewrite list_lookup_alter_eq, Hold.
      - exists (connected x). split; [|by left]. apply lookup_app_l_Some.
        by rewrite list_lookup_alter_ne. }
    destruct Hlook as (c & Hlook & Hcc). rewrite list_lookup_fmap in Hlook.
    destruct (Host.peers (Host.step policy w ev) !! p) as [x'|]; [|done].
    injection Hlook as Hc' Hl' Hd'. exists x'. subst c. by auto.
  - intros p x cb Hx Hcb.
    assert (Hlook : (shape <$> Host.peers w) !! p = Some (shape x))
      by (by rewrite list_lookup_fmap, Hx).
    destruct (Hp _ _ _ _ Hlook) as (request & Hl). exists request.
    split; [done|]. rewrite (Host_connect_exec w p x request Hx Hl), Hcb.
    by rewrite <-Hcb.
  - intros p x Hclose Hx.
    assert (Hopen : touched w p → connected x = true).
    { intros Ht.
      destruct (Host_run_connected evs (Host.new server) p) as (x' & Hx' & Hc');
        [apply Host_inv_new|done| |done|].
      - by intros ?%Host_new_untouched.
      - fold w in Hx'. congruence. }
    split.
    + intros Hin. apply Hopen. by left.
    + intros Hcx. split.
      * destruct (on_data x) eqn:Hd; [done|].
        rewrite Hopen in Hcx; [done|]. right. exists x. split; [done|].
        left. by rewrite Hd.
      * intros Hin. rewrite Hopen in Hcx; [done|]. by left.
Qed.

(** ** The handshakes of the Host and the requests it received *)

Lemma Host_guests_shapes (w : Host.World) :
  Host_guests w = shapes_guests (shape <$> Host.peers w).
Proof.
  unfold Host_guests, shapes_guests. by rewrite <-list_fmap_compose.
Qed.

Lemma Host_step_guests (w : Host.World) (ev : Host.Event) :
  Host_inv w →
  Host_guests (Host.step policy w ev)
  = (Host_guests w ++ requested (length (Host.sockets w)) [ev])%list
  ∧ length (Host.sockets (Host.step policy w ev))
    = match ev with
      | Host.CallCreateRoom => S (length (Host.sockets w))
      | _ => length (Host.sockets w)
      end.
Proof.
  intros Hinv. rewrite !Host_guests_shapes.
  assert (Hlisten : ∀ s sock, Host.sockets w !! s = Some sock →
                      socket_on_data sock = [Host.HandleResponse]).
  { intros s sock Hsock. destruct Hinv as (Hs & _).
    apply (Hs s). by rewrite list_lookup_fmap, Hsock. }
  assert (Hview : ∀ ss ps registry joined,
            Host_view (Host.step policy w ev) = (ss, ps, registry, joined) →
            shape <$> Host.peers (Host.step policy w ev) = ps
            ∧ length (Host.sockets (Host.step policy w ev)) = length ss).
  { intros ss ps registry joined Hv. unfold Host_view in Hv.
    injection Hv as <- <- _ _. by rewrite length_fmap. }
  assert (Hframe : Host_view (Host.step policy w ev) = Host_view w →
            shape <$> Host.peers (Host.step policy w ev) = shape <$> Host.peers w
            ∧ length (Host.sockets (Host.step policy w ev))
              = length (Host.sockets w)).
  { intros Hv. apply Hview in Hv as [-> ->]. by rewrite length_fmap. }
  destruct ev;
    try (destruct Hframe as [-> ->]; [by apply Host_frame_step|];
         simpl; by rewrite app_nil_r).
  - (* createRoom *)
    destruct (Hview _ _ _ _ (Host_createRoom_view w)) as [-> ->].
    simpl. rewrite app_nil_r, length_app, length_fmap. simpl. split; [done|lia].
  - (* a message from the relay *)
    pose proof (Host_data_view w s data (Hlisten s)) as Hv. simpl.
    destruct (JSON_parse (TextDecoder_decode data)) as [decoded|].
    + destruct (decide _).
      * apply Hview in Hv as [-> ->]. rewrite length_fmap. split; [|done].
        unfold shapes_guests. by rewrite fmap_app, concat_app.
      * apply Hframe in Hv as [-> ->]. by rewrite app_nil_r.
    + apply Hframe in Hv as [-> ->]. by rewrite app_nil_r.
  - (* a peer channel opens *)
    simpl. rewrite app_nil_r.
    destruct (Host.peers w !! p) as [x|] eqn:Hx.
    + assert (Hshape : (shape <$> Host.peers w) !! p = Some (shape x))
        by (by rewrite list_lookup_fmap, Hx).
      pose proof Hinv as (_ & Hp & _).
      destruct (Hp _ _ _ _ Hshape) as (request & Hl).
      destruct (Host_connect_view w p x request Hx Hl) as (d' & joined' & Hv & _).
      apply Hview in Hv as [-> ->]. rewrite length_fmap. split; [|done].
      unfold shapes_guests. rewrite list_fmap_insert. simpl.
      rewrite list_insert_id; [done|].
      rewrite list_lookup_fmap, Hshape. simpl. by rewrite Hl.
    + destruct Hframe as [-> ->]; [|done].
      unfold Host.step, Host.deliver, Host.peer_listeners. js.
      rewrite list_lookup_alter_eq, Hx. simpl.
      unfold Host_view. simpl. by rewrite alter_None.
  - (* a peer channel closes *)
    destruct (Hview _ _ _ _ (Host_close_view w p)) as [-> ->].
    rewrite length_fmap. simpl. rewrite app_nil_r. split; [|done].
    unfold shapes_guests. by rewrite fmap_alter_same.
Qed.

Lemma requested_cons listening ev (evs : list Host.Event) :
  requested listening (ev :: evs)
  = (requested listening [ev]
     ++ requested (match ev with
                   | Host.CallCreateRoom => S listening
                   | _ => listening
                   end) evs)%list.
Proof.
  destruct ev; simpl; try done.
  destruct (JSON_parse (TextDecoder_decode data)) as [decoded|]; [|done].
  by destruct (decide _).
Qed.

Lemma Host_run_guests (evs : list Host.Event) (w : Host.World) :
  Host_inv w →
  Host_guests (Host.run policy evs w)
  = (Host_guests w ++ requested (length (Host.sockets w)) evs)%list.
Proof.
  revert w. induction evs as [|ev evs IH]; intros w Hinv.
  - simpl. by rewrite app_nil_r.
  - change (Host.run policy (ev :: evs) w)
      with (Host.run policy evs (Host.step policy w ev)).
    destruct (Host_step_guests w ev Hinv) as [Hg Hn].
    rewrite IH by (by apply Host_inv_step).
    rewrite Hg, Hn, (requested_cons _ ev evs). by rewrite <-app_assoc.
Qed.

(** ** The room-created promise *)

Lemma Host_step_roomCreated_other (w : Host.World) (ev : Host.Event) :
  match ev with Host.SocketData _ _ => False | _ => True end →
  Host.roomCreated (Host.step policy w ev) = Host.roomCreated w.
Proof.
  intros Hev. unfold Host.step. destruct ev; try done; js.
  - unfold Host.closeRoom, Host.this_socket. js. by destruct (Host.socket w).
  - unfold Host.sendToAll. js. apply (emit_preserves Host.roomCreated).
    intros p w' _. unfold Host.peer_send. by destruct (Host.peers w' !! p).
  - unfold Host.sendTo, Host.peer_send. js.
    destruct (Map_has clientId (Host.connections w)); simpl; [|done].
    destruct (Map_get clientId (Host.connections w)) as [p|]; simpl; [|done].
    by destruct (Host.peers w !! p).
  - unfold Host.socket_listeners. js.
    rewrite (emit_preserves Host.roomCreated); [done|].
    intros [] w' _. unfold Host.run_OnSocketConnect, Host.this_socket. js.
    destruct (Host.socket w') as [s'|]; simpl; [|done].
    unfold Host.socket_send. by destruct (Host.sockets w' !! s').
  - unfold Host.peer_listeners. js. apply (emit_preserves Host.roomCreated).
    intros [request] w' _. unfold Host.run_OnPeerSignal, Host.this_socket. js.
    destruct (Host.socket w') as [s'|]; simpl; [|done].
    unfold Host.socket_send. by destruct (Host.sockets w' !! s').
  - unfold Host.peer_listeners. js.
    rewrite (emit_preserves Host.roomCreated); [done|].
    intros [request newPeer] w' _.
    unfold Host.run_OnPeerConnect, Host.call_guestJoinedCallback. js.
    by destruct (Host.guestJoinedCallback w').
  - unfold Host.peer_listeners. js. apply (emit_preserves Host.roomCreated).
    intros [] w' _. unfold Host.run_OnPeerData, Host.call_onMessageReceived.
    by destruct (Host.onMessageReceived w').
Qed.

Lemma Host_step_roomCreated (w : Host.World) (ev : Host.Event) :
  Host_inv w →
  promise (Host.roomCreated (Host.step policy w ev))
  = match promise (Host.roomCreated w) with
    | Some r => Some r
    | None => first_RoomCreated_in (length (Host.sockets w)) [ev]
    end.
Proof.
  intros (Hs & _).
  destruct ev;
    try (rewrite Host_step_roomCreated_other by done; simpl;
         by destruct (promise (Host.roomCreated w))).
  destruct (Host.sockets w !! s) as [sock|] eqn:Hsock.
  - destruct (Host_data_step w s sock data Hsock) as [_ ->].
    { apply (Hs s). by rewrite list_lookup_fmap, Hsock. }
    apply lookup_lt_Some in Hsock. simpl.
    destruct (promise (Host.roomCreated w)); [done|].
    destruct (JSON_parse (TextDecoder_decode data)) as [decoded|]; [|done].
    destruct (decide (type decoded = RoomCreated)).
    + by rewrite decide_True.
    + rewrite decide_False; [done|]. by intros [_ ?].
  - unfold Host.step, Host.deliver, Host.socket_listeners. js.
    rewrite Hsock. simpl. apply lookup_ge_None in Hsock.
    destruct (promise (Host.roomCreated w)); [done|].
    destruct (JSON_parse (TextDecoder_decode data)) as [decoded|]; [|done].
    rewrite decide_False; [done|]. intros [? _]. lia.
Qed.

Lemma first_RoomCreated_in_cons listening ev (evs : list Host.Event) :
  first_RoomCreated_in listening (ev :: evs)
  = match first_RoomCreated_in listening [ev] with
    | Some r => Some r
    | None =>
        first_RoomCreated_in (match ev with
                              | Host.CallCreateRoom => S listening
                              | _ => listening
                              end) evs
    end.
Proof.
  destruct ev; simpl; try done.
  destruct (JSON_parse (TextDecoder_decode data)) as [decoded|]; [|done].
  by destruct (decide _).
Qed.

Lemma Host_run_roomCreated (evs : list Host.Event) (w : Host.World) :
  Host_inv w →
  promise (Host.roomCreated (Host.run policy evs w))
  = match promise (Host.roomCreated w) with
    | Some r => Some r
    | None => first_RoomCreated_in (length (Host.sockets w)) evs
    end.
Proof.
  revert w. induction evs as [|ev evs IH]; intros w Hinv.
  - simpl. by destruct (promise (Host.roomCreated w)).
  - change (Host.run policy (ev :: evs) w)
      with (Host.run policy evs (Host.step policy w ev)).
    rewrite IH by (by apply Host_inv_step).
    rewrite (Host_step_roomCreated w ev Hinv).
    destruct (Host_step_guests w ev Hinv) as [_ ->].
    rewrite (first_RoomCreated_in_cons _ ev evs).
    destruct (promise (Host.roomCreated w)); [done|].
    by destruct (first_RoomCreated_in (length (Host.sockets w)) [ev]).
Qed.

(** C1.  After [createRoom], whatever buffers the relay socket it opened
    then receives, the promise [createRoom] returned (the promise of
    [this.roomCreated]) holds the room of the first RoomCreated message
    among them, and is pending when there is none; a promise that held a
    value already keeps it.  Hence a second RoomCreated message does not
    change the value the first one gave.  The same holds when calls and
    events of the peers come in between: after all that happens to a Host
    from its construction on, the promise holds the room of the first
    RoomCreated message received on a socket it opened. *)
Theorem createRoom_resolves_with_first_room (w : Host.World)
    (datas : list BufferSource) :
  let s := length (Host.sockets w) in
  let w' := Host.run policy (Host.SocketData s <$> datas) (exec Host.createRoom w) in
  Host.roomCreated (exec Host.createRoom w) = Host.roomCreated w
  ∧ promise (Host.roomCreated w')
    = match promise (Host.roomCreated w) with
      | Some r => Some r
      | None => first_RoomCreated datas
      end
  ∧ (∀ data decoded,
      JSON_parse (TextDecoder_decode data) = Some decoded →
      type decoded = RoomCreated →
      is_Some (promise (Host.roomCreated w')) →
      promise (Host.roomCreated (Host.step policy w' (Host.SocketData s data)))
      = promise (Host.roomCreated w'))
  ∧ ∀ server (evs : list Host.Event),
      promise (Host.roomCreated (Host.run policy evs (Host.new server)))
      = first_RoomCreated_in 0 evs.
Proof.
  intros s w'.
  assert (Hall : ∀ server (evs : list Host.Event),
            promise (Host.roomCreated (Host.run policy evs (Host.new server)))
            = first_RoomCreated_in 0 evs).
  { intros server evs. by rewrite Host_run_roomCreated by apply Host_inv_new. }
  assert (Hlisten : ∃ sock, Host.sockets (exec Host.createRoom w) !! s = Some sock
                            ∧ socket_on_data sock = [Host.HandleResponse]).
  { rewrite createRoom_exec. simpl. eexists. split.
    - subst s. rewrite lookup_app_r by done. rewrite Nat.sub_diag. reflexivity.
    - reflexivity. }
  assert (Hpromise : Host.roomCreated (exec Host.createRoom w) = Host.roomCreated w).
  { by rewrite createRoom_exec. }
  split; [done|].
  assert (Hgen : ∀ w1, (∃ sock, Host.sockets w1 !! s = Some sock
                         ∧ socket_on_data sock = [Host.HandleResponse]) →
     (∃ sock, Host.sockets (Host.run policy (Host.SocketData s <$> datas) w1) !! s
              = Some sock
              ∧ socket_on_data sock = [Host.HandleResponse])
     ∧ promise (Host.roomCreated (Host.run policy (Host.SocketData s <$> datas) w1))
       = match promise (Host.roomCreated w1) with
         | Some r => Some r
         | None => first_RoomCreated datas
         end).
  { clear. induction datas as [|data datas IH]; intros w1 Hl.
    - split; [done|]. simpl. by destruct (promise (Host.roomCreated w1)).
    - destruct Hl as (sock & Hs & Hls).
      destruct (Host_data_step w1 s sock data Hs Hls) as [Hsock Hp].
      destruct (IH (Host.step policy w1 (Host.SocketData s data))) as [Hl' Hq].
      { exists sock. by rewrite Hsock. }
      split; [exact Hl'|].
      change (Host.run policy (Host.SocketData s <$> data :: datas) w1)
        with (Host.run policy (Host.SocketData s <$> datas)
                (Host.step policy w1 (Host.SocketData s data))).
      rewrite Hq, Hp. simpl.
      destruct (promise (Host.roomCreated w1)); [done|].
      destruct (JSON_parse (TextDecoder_decode data)) as [decoded|]; [|done].
      by destruct (decide (type decoded = RoomCreated)). }
  destruct (Hgen _ Hlisten) as [(sock & Hs & Hls) Hp].
  split; [|split; [|exact Hall]].
  - subst w'. rewrite Hp. by rewrite Hpromise.
  - intros data decoded Hparse Htype [r Hr].
    destruct (Host_data_step w' s sock data Hs Hls) as [_ Hq].
    rewrite Hq. fold w' in Hr. by rewrite Hr.
Qed.

(** ** Broadcast *)

Lemma emit_peer_send (chunk : string) (ps : list nat) (w : Host.World) :
  NoDup ps →
  (∀ p, p ∈ ps → ∃ x, Host.peers w !! p = Some x ∧ connected x = true) →
  ∃ peers',
    emit (λ p, Host.peer_send p chunk) ps w = (Normal tt, Host.set_peers peers' w)
    ∧ ∀ q, peers' !! q
           = if decide (q ∈ ps) then with_sent chunk <$> Host.peers w !! q
             else Host.peers w !! q.
Proof.
  revert w. induction ps as [|p ps IH]; intros w Hnd Hps.
  - exists (Host.peers w). split; [by destruct w|]. intros q.
    rewrite decide_False; [done|]. apply not_elem_of_nil.
  - apply NoDup_cons in Hnd as [Hp Hnd].
    destruct (Hps p) as (x & Hx & Hcx); [by left|].
    assert (Hsend : Host.peer_send p chunk w
                    = (Normal tt,
                       Host.set_peers (<[p := with_sent chunk x]> (Host.peers w)) w)).
    { unfold Host.peer_send, Peer_send, with_sent. rewrite Hx. simpl.
      by destruct (connected x). }
    destruct (IH (Host.set_peers (<[p := with_sent chunk x]> (Host.peers w)) w))
      as (peers' & Hemit & Hlook); [done| |].
    { intros q Hq. simpl. rewrite list_lookup_insert_ne by (by intros ->).
      apply Hps. by right. }
    exists peers'. split.
    + simpl. unfold mbind, JS_mbind, JS_bind. rewrite Hsend, Hemit. by destruct w.
    + intros q. rewrite Hlook. simpl. apply lookup_lt_Some in Hx as Hlt.
      destruct (decide (q = p)) as [->|Hne].
      * rewrite decide_False by done. rewrite decide_True by left.
        by rewrite list_lookup_insert_eq, Hx.
      * rewrite list_lookup_insert_ne by done.
        destruct (decide (q ∈ ps)) as [Hin|Hin].
        -- rewrite decide_True; [done|]. by right.
        -- rewrite decide_False; [done|].
           rewrite not_elem_of_cons. by split.
Qed.

Lemma concat_singletons {A B} (f : A → list B) (g : A → B) (l : list A) :
  (∀ x, x ∈ l → f x = [g x]) → concat (f <$> l) = g <$> l.
Proof.
  induction l as [|x l IH]; intros Hf; [done|].
  simpl. rewrite (Hf x) by left. simpl. f_equal.
  apply IH. intros y Hy. apply Hf. by right.
Qed.

Lemma Host_guests_fmap (w : Host.World) :
  Host_inv w → Host_guests w = peer_guest <$> Host.peers w.
Proof.
  intros Hinv. unfold Host_guests. apply concat_singletons.
  intros x [p Hx]%list_elem_of_lookup_1.
  destruct (Host_peer_listener w p x Hinv Hx) as [request Hl].
  unfold handshake_clients, peer_guest. by rewrite Hl.
Qed.

(** C4.  Let a Host, from its construction on, go through any calls and
    events, and let the GuestRequest messages it took in name pairwise
    distinct clients.  Once every peer it made for them has had its
    ['connect'] event, the handshakes are those of the requests, the keys
    of the registry are the clients of the requests, each once, the
    registry has as many entries as there were requests, and the entry of
    a client is the peer made for it.  [sendToAll] then completes normally
    and leaves the world as it was but for the peers, on each of which the
    one serialisation of the message has gone out. *)
Theorem all_guests_registered server (evs : list Host.Event) :
  let w := Host.run policy evs (Host.new server) in
  NoDup (requested 0 evs) →
  Forall (λ x, connected x = true) (Host.peers w) →
  Host_guests w = requested 0 evs
  ∧ Map_keys (Host.connections w) ≡ₚ requested 0 evs
  ∧ length (Host.connections w) = length (requested 0 evs)
  ∧ (∀ p x, Host.peers w !! p = Some x →
       Map_get (peer_guest x) (Host.connections w) = Some p)
  ∧ ∀ T (message : T),
      Host.sendToAll message w
      = (Normal tt,
         Host.set_peers (with_sent (JSON_stringify message) <$> Host.peers w) w).
Proof.
  intros w Hnd Hconn.
  pose proof (Host_inv_reachable server evs) as Hinv. fold w in Hinv.
  assert (Hg : Host_guests w = requested 0 evs).
  { unfold w. by rewrite Host_run_guests by apply Host_inv_new. }
  rewrite <-Hg in *. rewrite Host_guests_fmap in Hnd |- * by done.
  pose proof Hinv as (_ & _ & Hr & Hc & _ & Hk).
  assert (Hshape : ∀ p x, Host.peers w !! p = Some x →
            (shape <$> Host.peers w) !! p = Some (shape x)).
  { intros p x Hx. by rewrite list_lookup_fmap, Hx. }
  assert (Hentry : ∀ guest p, Map_get guest (Host.connections w) = Some p →
            ∃ x, Host.peers w !! p = Some x ∧ connected x = true
                 ∧ peer_guest x = guest).
  { intros guest p Hget. destruct (Hr _ _ Hget) as (c & r & d & Hlook & <-).
    rewrite list_lookup_fmap in Hlook.
    destruct (Host.peers w !! p) as [x|] eqn:Hx; [|done].
    injection Hlook as Hcx Hlx _. exists x. split; [done|]. split.
    - rewrite Forall_forall in Hconn. apply Hconn.
      by eapply list_elem_of_lookup_2.
    - unfold peer_guest. by rewrite Hlx. }
  assert (Hown : ∀ p x, Host.peers w !! p = Some x →
            Map_get (peer_guest x) (Host.connections w) = Some p).
  { intros p x Hx.
    destruct (Host_peer_listener w p x Hinv Hx) as [r Hl].
    assert (Hcx : connected x = true).
    { rewrite Forall_forall in Hconn. apply Hconn.
      by eapply list_elem_of_lookup_2. }
    destruct (Hc p r (on_data x)) as [p' Hget].
    { rewrite (Hshape _ _ Hx). unfold shape. by rewrite Hcx, Hl. }
    assert (Hgx : peer_guest x = client r) by (unfold peer_guest; by rewrite Hl).
    rewrite Hgx, Hget. f_equal.
    destruct (Hentry _ _ Hget) as (x' & Hx' & _ & Hgx').
    apply (NoDup_lookup _ _ _ (client r) Hnd).
    - by rewrite list_lookup_fmap, Hx', <-Hgx'.
    - by rewrite list_lookup_fmap, Hx, <-Hgx. }
  assert (Hperm : Map_keys (Host.connections w) ≡ₚ peer_guest <$> Host.peers w).
  { apply NoDup_Permutation; [done..|]. intros guest.
    rewrite <-Map_get_is_Some. split.
    - intros [p Hget]. destruct (Hentry _ _ Hget) as (x & Hx & _ & <-).
      apply list_elem_of_fmap_2. by eapply list_elem_of_lookup_2.
    - intros (x & -> & [p Hx]%list_elem_of_lookup_1)%list_elem_of_fmap.
      rewrite (Hown _ _ Hx). by eexists. }
  split; [done|]. split; [done|]. split.
  { rewrite <-Hperm. unfold Map_keys. by rewrite length_fmap. }
  split; [done|]. intros T message.
  destruct (emit_peer_send (JSON_stringify message)
              (Map_values (Host.connections w)) w) as (peers' & Hemit & Hlook).
  - apply NoDup_fmap_2_strong; [|by eapply NoDup_fmap_1].
    intros [k1 v1] [k2 v2] Hin1 Hin2. simpl. intros <-.
    apply elem_of_Map_get in Hin1, Hin2; [|done..].
    destruct (Hentry _ _ Hin1) as (x1 & Hx1 & _ & <-).
    destruct (Hentry _ _ Hin2) as (x2 & Hx2 & _ & <-). congruence.
  - intros p [guest Hin]%Map_values_elem_of.
    apply elem_of_Map_get in Hin; [|done].
    destruct (Hentry _ _ Hin) as (x & Hx & Hcx & _). by exists x.
  - unfold Host.sendToAll. js. rewrite Hemit. do 2 f_equal.
    apply list_eq. intros q. rewrite Hlook, list_lookup_fmap.
    destruct (decide _) as [|Hout]; [done|].
    destruct (Host.peers w !! q) as [x|] eqn:Hx; [|done].
    destruct Hout. apply Hown, Map_get_elem_of in Hx.
    unfold Map_values. apply list_elem_of_fmap. by eexists (_, _).
Qed.

(** ** The Client: sending *)

(** C9.  [send] before the Client is Connected fails and does nothing else:
    while [joinRoom] has not made the peer, reading [this.peer.send] is a
    [TypeError]; once the peer is made and until its channel is open, the
    peer refuses the chunk.  When the Client is Connected neither happens:
    [send] completes normally and the serialised message goes out on
    [this.peer]. *)
Theorem send_needs_connected {T} (message : T) (w : Client.World) :
  (Client.peer w = None →
   Client.send message w = (Throw (TypeError "this.peer is undefined"), w))
  ∧ (Client_Connected w = false → ∃ e, Client.send message w = (Throw e, w))
  ∧ (Client_Connected w = true →
     ∃ p x, Client.peer w = Some p ∧ Client.peers w !! p = Some x
            ∧ Client.send message w
              = (Normal tt,
                 Client.set_peers
                   (<[p := with_sent (JSON_stringify message) x]> (Client.peers w))
                   w)).
Proof.
  unfold Client.send, Client.this_peer, Client_Connected, Client.peer_send. js.
  split; [by intros ->|].
  destruct (Client.peer w) as [p|]; [|split; [by eexists|done]].
  destruct (Client.peers w !! p) as [x|] eqn:Hx; simpl;
    [|split; [by eexists|done]].
  unfold Peer_send, with_sent. split; intros Hc.
  - rewrite Hc. simpl. eexists. f_equal.
    rewrite list_insert_id by done. by destruct w.
  - exists p, x. by rewrite Hc.
Qed.

(** ** The Client: which callback hears the peer *)

Lemma joinRoom_run (room : string) (w : Client.World) :
  Client.joinRoom room w
  = (Normal (length (Client.timed w)),
     {| Client.peer := Some (length (Client.peers w));
        Client.onMessageReceived := Client.onMessageReceived w;
        Client.socket := Client.socket w;
        Client.roomJoined := Client.roomJoined w;
        Client.reactions :=
          match promise (Client.roomJoined w) with
          | None => S (Client.reactions w)
          | Some _ => Client.reactions w
          end;
        Client.peers :=
          Client.peers w
          ++ [Peer_on_connect (Client.Connected (length (Client.timed w)))
                (Peer_on_signal (Client.SendOffer room) (Peer_new true false))];
        Client.timed :=
          Client.timed w ++ [TimedPromise_new (Client.now w) (30 * 1000)];
        Client.jobs :=
          match promise (Client.roomJoined w) with
          | None => Client.jobs w
          | Some value => Client.jobs w ++ [value]
          end;
        Client.now := Client.now w;
        Client.calls := Client.calls w;
        Client.console := Client.console w |}).
Proof.
  unfold Client.joinRoom, Client.TimedPromise_make, Client.then_roomJoined,
    Client.this_peer. js.
  destruct (promise (Client.roomJoined w)); simpl; by rewrite !alter_snoc.
Qed.

Lemma Peer_signal_listeners {PS PC PD} (d : string) (x : Peer PS PC PD) :
  on_data (Peer_signal d x).2 = on_data x
  ∧ on_connect (Peer_signal d x).2 = on_connect x
  ∧ on_signal (Peer_signal d x).2 = on_signal x.
Proof. unfold Peer_signal. by destruct (destroyed x), (is_descriptor d). Qed.

Lemma insert_alter {A} (f : A → A) (l : list A) i x :
  l !! i = Some x → <[i := f x]> l = alter f i l.
Proof.
  intros Hx. apply list_eq. intros j. apply lookup_lt_Some in Hx as Hlt.
  destruct (decide (i = j)) as [<-|Hne].
  - by rewrite list_lookup_alter_eq, list_lookup_insert_eq, Hx.
  - by rewrite list_lookup_alter_ne, list_lookup_insert_ne.
Qed.

Lemma Client_peer_signal_exec p d (w : Client.World) :
  (Client.peer_signal p d w).2
  = Client.set_peers (alter (λ x, (Peer_signal d x).2) p (Client.peers w)) w.
Proof.
  unfold Client.peer_signal. destruct (Client.peers w !! p) as [x|] eqn:Hx; simpl.
  - by rewrite (insert_alter (λ x, (Peer_signal d x).2) _ _ _ Hx).
  - rewrite alter_None by done. by destruct w.
Qed.

Lemma Client_drain_preserves {V} (view : Client.World → V) (w : Client.World) :
  (∀ v w', view (Client.set_jobs v w') = view w') →
  (∀ p f w', (∀ x, on_data (f x) = on_data x ∧ on_connect (f x) = on_connect x) →
     view (Client.set_peers (alter f p (Client.peers w')) w') = view w') →
  view (Client.drain w) = view w.
Proof.
  intros Hjobs Hpeers. unfold Client.drain.
  rewrite <-(Hjobs [] w). generalize (Client.set_jobs [] w).
  induction (Client.jobs w) as [|a l IH]; intros w'; [done|].
  simpl. rewrite IH. unfold Client.run_reaction, Client.this_peer. js.
  destruct (Client.peer w'); simpl; [|done].
  rewrite Client_peer_signal_exec. apply Hpeers. intros x.
  by destruct (Peer_signal_listeners a x) as (? & ? & _).
Qed.

Lemma Client_drain_listening (w : Client.World) :
  Client_listening (Client.drain w) = Client_listening w.
Proof.
  apply (Client_drain_preserves Client_listening); [done|].
  intros p f w' Hf. unfold Client_listening. simpl.
  rewrite fmap_alter_same; [done|]. intros x. apply Hf.
Qed.

Lemma emit_data_heard (data : BufferSource) (ls : list Client.OnPeerData)
    (w : Client.World) :
  emit (Client.run_OnPeerData data) ls w
  = (Normal tt, Client.set_calls (Client.calls w ++ heard data ls) w).
Proof.
  revert w. induction ls as [|[cb] ls IH]; intros w.
  - simpl. rewrite app_nil_r. by destruct w.
  - simpl. js. rewrite IH. simpl. unfold Client.set_calls. simpl.
    by rewrite <-app_assoc.
Qed.

Lemma heard_attached (data : BufferSource) (ls : list Client.OnPeerData) c :
  c ∈ heard data ls →
  ∃ cb, c = Client.MessageReceived cb data ∧ Client.Listener cb ∈ ls.
Proof.
  unfold heard. intros ([cb] & -> & Hin)%list_elem_of_fmap. by exists cb.
Qed.

Lemma Client_peer_data_run (w : Client.World) p (data : BufferSource) :
  Client.deliver policy (Client.PeerData p data) w
  = (Normal tt,
     Client.set_calls
       (Client.calls w
        ++ heard data (from_option on_data [] (Client.peers w !! p))) w).
Proof.
  unfold Client.deliver, Client.peer_listeners. js. apply emit_data_heard.
Qed.

Lemma run_OnPeerConnect_run (w : Client.World) k :
  Client.run_OnPeerConnect (Client.Connected k) w
  = match Client.peer w, Client.onMessageReceived w with
    | Some p, Some cb =>
        (Normal tt,
         Client.set_timed (alter TimedPromise_resolve k (Client.timed w))
           (Client.set_peers
              (alter (Peer_on_data (Client.Listener cb)) p (Client.peers w))
              (Client.set_console (Client.console w ++ ["connected"]) w)))
    | Some p, None =>
        (Throw (TypeError "The listener argument must be of type function"),
         Client.set_console (Client.console w ++ ["connected"]) w)
    | None, _ =>
        (Throw (TypeError "this.peer is undefined"),
         Client.set_console (Client.console w ++ ["connected"]) w)
    end.
Proof.
  unfold Client.run_OnPeerConnect, Client.this_peer, Client.peer_on_data. js.
  destruct (Client.peer w) eqn:Hp, (Client.onMessageReceived w) eqn:Hcb;
    simpl; rewrite ?Hcb; done.
Qed.

Lemma Client_step_listening (w : Client.World) (ev : Client.Event) :
  is_PeerConnect ev = false →
  ∃ extra cs,
    Client_listening (Client.step policy w ev)
    = (((on_data <$> Client.peers w) ++ extra)%list, (Client.calls w ++ cs)%list)
    ∧ Forall (.= []) extra
    ∧ Forall (λ c, ∃ cb data, c = Client.MessageReceived cb data
                              ∧ attached w cb) cs.
Proof.
  intros Hev. unfold Client.step. rewrite Client_drain_listening.
  assert (Hsame : Client_listening (exec (Client.deliver policy ev) w)
                  = Client_listening w →
    ∃ extra cs,
      Client_listening (exec (Client.deliver policy ev) w)
      = (((on_data <$> Client.peers w) ++ extra)%list, (Client.calls w ++ cs)%list)
      ∧ Forall (.= []) extra
      ∧ Forall (λ c, ∃ cb data, c = Client.MessageReceived cb data
                                ∧ attached w cb) cs).
  { intros ->. exists [], []. by rewrite !app_nil_r. }
  destruct ev; try done; simpl.
  - (* leaveRoom *)
    apply Hsame. clear Hsame. js. unfold Client.leaveRoom, Client.this_peer. js.
    destruct (Client.peer w); simpl; [|done].
    unfold Client_listening. simpl. by rewrite fmap_alter_same.
  - (* listenForMessages *) by apply Hsame.
  - (* joinRoom *)
    clear Hsame. js. rewrite joinRoom_run. simpl. exists [[]], [].
    unfold Client_listening. simpl. rewrite fmap_app, app_nil_r.
    repeat split; [|done]. by constructor.
  - (* send *)
    apply Hsame. clear Hsame. js.
    unfold Client.send, Client.this_peer, Client.peer_send. js.
    destruct (Client.peer w) as [p|]; simpl; [|done].
    destruct (Client.peers w !! p) as [x|] eqn:Hx; simpl; [|done].
    unfold Client_listening. simpl. rewrite list_fmap_insert.
    replace (on_data (Peer_send (JSON_stringify message) x).2) with (on_data x)
      by (unfold Peer_send; by destruct (connected x)).
    rewrite list_insert_id; [|by rewrite list_lookup_fmap, Hx].
    by destruct (Peer_send (JSON_stringify message) x).1.
  - (* a message from the relay *)
    apply Hsame. clear Hsame. js. apply (emit_preserves Client_listening).
    intros [] w' _. unfold Client.run_OnSocketData.
    destruct (JSON_parse (TextDecoder_decode data)) as [decoded|]; [|done].
    destruct (decide (type decoded = RoomJoined)).
    { unfold Client.resolve_roomJoined, exec. simpl.
      by destruct (promise (Client.roomJoined w')). }
    by destruct (decide (type decoded = RequestAccepted)).
  - (* peer signal *)
    apply Hsame. clear Hsame. js. unfold Client.peer_listeners. js.
    apply (emit_preserves Client_listening). by intros [room] w' _.
  - (* peer data *)
    clear Hsame. js. unfold Client.peer_listeners. js.
    rewrite emit_data_heard. simpl. eexists [], _. unfold Client_listening. simpl. rewrite app_nil_r.
    repeat split; [done|]. apply Forall_forall.
    intros c (cb & -> & Hin)%heard_attached. exists cb, data. split; [done|].
    destruct (Client.peers w !! p) as [x|] eqn:Hx; simpl in Hin.
    + by exists p, x.
    + by apply elem_of_nil in Hin.
  - (* time passes *) apply Hsame. clear Hsame. js. unfold Client.fire_timers. by js.
  - (* timers *) apply Hsame. clear Hsame. js. unfold Client.fire_timers. by js.
  - (* the relay socket opens *) apply Hsame. clear Hsame. by js.
  - (* a peer channel closes *)
    apply Hsame. clear Hsame. js.
    unfold Client_listening. simpl. by rewrite fmap_alter_same.
Qed.

Lemma Client_run_listening (evs : list Client.Event) (w : Client.World) :
  forallb (λ ev, negb (is_PeerConnect ev)) evs = true →
  ∃ extra cs,
    Client_listening (Client.run policy evs w)
    = (((on_data <$> Client.peers w) ++ extra)%list, (Client.calls w ++ cs)%list)
    ∧ Forall (.= []) extra
    ∧ Forall (λ c, ∃ cb data, c = Client.MessageReceived cb data
                              ∧ attached w cb) cs.
Proof.
  revert w. induction evs as [|ev evs IH]; intros w Hevs.
  - exists [], []. by rewrite !app_nil_r.
  - simpl in Hevs. apply andb_prop in Hevs as [Hev Hevs].
    apply negb_true_iff in Hev.
    destruct (Client_step_listening w ev Hev) as (extra1 & cs1 & Hv1 & He1 & Hc1).
    destruct (IH (Client.step policy w ev) Hevs) as (extra2 & cs2 & Hv2 & He2 & Hc2).
    unfold Client_listening in Hv1. injection Hv1 as Hp1 Hcalls1.
    exists (extra1 ++ extra2)%list, (cs1 ++ cs2)%list.
    change (Client.run policy (ev :: evs) w)
      with (Client.run policy evs (Client.step policy w ev)).
    rewrite Hv2, Hp1, Hcalls1, <-!app_assoc. split; [done|].
    split; [by apply Forall_app|]. apply Forall_app. split; [done|].
    eapply Forall_impl; [exact Hc2|]. intros c (cb & data & -> & p & x & Hx & Hin).
    exists cb, data. split; [done|].
    assert (Hlook : (on_data <$> Client.peers (Client.step policy w ev)) !! p
                    = Some (on_data x)) by (by rewrite list_lookup_fmap, Hx).
    rewrite Hp1 in Hlook. apply lookup_app_Some in Hlook as [Hold|[_ Hnew]].
    + rewrite list_lookup_fmap in Hold.
      destruct (Client.peers w !! p) as [x0|] eqn:Hx0; [|done].
      injection Hold as Hd. exists p, x0. by rewrite Hd.
    + apply list_elem_of_lookup_2 in Hnew. rewrite Forall_forall in He1.
      rewrite (He1 _ Hnew) in Hin. by apply elem_of_nil in Hin.
Qed.

(** [attached], read from the ['data'] listeners of the peers. *)
Lemma attached_listening (w : Client.World) cb :
  attached w cb
  ↔ ∃ p d, (on_data <$> Client.peers w) !! p = Some d ∧ Client.Listener cb ∈ d.
Proof.
  unfold attached. split.
  - intros (p & x & Hx & Hin). exists p, (on_data x).
    by rewrite list_lookup_fmap, Hx.
  - intros (p & d & Hd & Hin). rewrite list_lookup_fmap in Hd.
    destruct (Client.peers w !! p) as [x|] eqn:Hx; [|done].
    injection Hd as <-. by exists p, x.
Qed.

(** What the ['connect'] event of a peer does to the ['data'] listeners,
    the calls and the callback field. *)
Lemma Client_connect_heard (w : Client.World) q :
  let w' := Client.step policy w (Client.PeerConnect q) in
  Client.calls w' = Client.calls w
  ∧ Client.onMessageReceived w' = Client.onMessageReceived w
  ∧ ∀ cb, attached w' cb →
          attached w cb ∨ Client.onMessageReceived w = Some cb.
Proof.
  intros w'.
  set (P := λ v : Client.World,
         Client.calls v = Client.calls w
         ∧ Client.onMessageReceived v = Client.onMessageReceived w
         ∧ ∀ cb, attached v cb →
                 attached w cb ∨ Client.onMessageReceived w = Some cb).
  assert (Hdrain : ∀ v, P v → P (Client.drain v)).
  { intros v (Hc & Hm & Ha). unfold P.
    pose proof (Client_drain_listening v) as Hl. unfold Client_listening in Hl.
    injection Hl as Hd Hc'. rewrite Hc'.
    rewrite (Client_drain_preserves Client.onMessageReceived) by done.
    split; [done|]. split; [done|]. intros cb Hcb. apply Ha.
    apply attached_listening. apply attached_listening in Hcb.
    by rewrite <-Hd. }
  apply Hdrain. unfold Client.deliver, Client.peer_listeners. js.
  apply (emit_invariant P).
  - intros [k] v _ (Hc & Hm & Ha). rewrite run_OnPeerConnect_run.
    assert (Hlog : P (Client.set_console (Client.console v ++ ["connected"]) v)).
    { split; [done|]. split; [done|]. intros cb Hcb. by apply Ha. }
    destruct (Client.peer v) as [p|]; [|done].
    destruct (Client.onMessageReceived v) as [cb0|] eqn:Hcb0; [|done].
    simpl. clear Hlog.
    split; [done|]. split; [by rewrite <-Hm|]. intros cb (p' & x & Hx & Hin).
    simpl in Hx. destruct (decide (p = p')) as [<-|Hne].
    + rewrite list_lookup_alter_eq in Hx.
      destruct (Client.peers v !! p) as [x0|] eqn:Hx0; [|done].
      injection Hx as <-. simpl in Hin.
      apply elem_of_app in Hin as [Hin|Hin%list_elem_of_singleton].
      * apply Ha. by exists p, x0.
      * injection Hin as ->. right. by rewrite <-Hm.
    + rewrite list_lookup_alter_ne in Hx by done. apply Ha. by exists p', x.
  - split; [done|]. split; [done|]. intros cb (p' & x & Hx & Hin). left.
    simpl in Hx. destruct (decide (q = p')) as [<-|Hne].
    + rewrite list_lookup_alter_eq in Hx.
      destruct (Client.peers w !! q) as [x0|] eqn:Hx0; [|done].
      injection Hx as <-. by exists q, x0.
    + rewrite list_lookup_alter_ne in Hx by done. by exists p', x.
Qed.

Lemma Client_step_callback (w : Client.World) (ev : Client.Event) :
  Client.onMessageReceived (Client.step policy w ev)
  = match ev with
    | Client.CallListenForMessages cb => Some cb
    | _ => Client.onMessageReceived w
    end.
Proof.
  destruct (is_PeerConnect ev) eqn:Hev.
  { destruct ev; try done. apply Client_connect_heard. }
  unfold Client.step.
  rewrite (Client_drain_preserves Client.onMessageReceived) by done.
  destruct ev; try done; js.
  - unfold Client.leaveRoom, Client.this_peer. js. by destruct (Client.peer w).
  - by rewrite joinRoom_run.
  - unfold Client.send, Client.this_peer, Client.peer_send. js.
    destruct (Client.peer w) as [p|]; simpl; [|done].
    by destruct (Client.peers w !! p).
  - apply (emit_preserves Client.onMessageReceived).
    intros [] w' _. unfold Client.run_OnSocketData.
    destruct (JSON_parse (TextDecoder_decode data)) as [decoded|]; [|done].
    destruct (decide (type decoded = RoomJoined)).
    { unfold Client.resolve_roomJoined. simpl.
      by destruct (promise (Client.roomJoined w')). }
    by destruct (decide (type decoded = RequestAccepted)).
  - unfold Client.peer_listeners. js.
    apply (emit_preserves Client.onMessageReceived). by intros [room] w' _.
  - unfold Client.peer_listeners. js. by rewrite emit_data_heard.
Qed.

Lemma Client_step_heard (w : Client.World) (ev : Client.Event) cb :
  (∀ data,
     Client.MessageReceived cb data ∈ Client.calls (Client.step policy w ev) →
     Client.MessageReceived cb data ∈ Client.calls w ∨ attached w cb)
  ∧ (attached (Client.step policy w ev) cb →
     attached w cb
     ∨ (is_PeerConnect ev = true ∧ Client.onMessageReceived w = Some cb)).
Proof.
  destruct (is_PeerConnect ev) eqn:Hev.
  { destruct ev; try done.
    destruct (Client_connect_heard w p) as (Hc & _ & Ha). split.
    - intros data. rewrite Hc. by left.
    - intros [?|?]%Ha; [by left|by right]. }
  destruct (Client_step_listening w ev Hev) as (extra & cs & Hv & He & Hcs).
  unfold Client_listening in Hv. injection Hv as Hd Hc. split.
  - intros data. rewrite Hc. intros [Hold|Hnew]%elem_of_app; [by left|]. right.
    rewrite Forall_forall in Hcs.
    by destruct (Hcs _ Hnew) as (cb' & data' & [= <- <-] & Hatt).
  - intros (p & d & Hlook & Hin)%attached_listening. left.
    apply attached_listening. rewrite Hd in Hlook.
    apply lookup_app_Some in Hlook as [Hold|[_ Hnew]]; [by exists p, d|].
    apply list_elem_of_lookup_2 in Hnew. rewrite Forall_forall in He.
    rewrite (He _ Hnew) in Hin. by apply elem_of_nil in Hin.
Qed.

(** A callback is called, or is a ['data'] listener, only if it was so at
    the start or it was the value of the field at a ['connect'] event. *)
Lemma Client_run_heard (evs : list Client.Event) (w : Client.World) cb :
  (attached (Client.run policy evs w) cb
   ∨ ∃ data, Client.MessageReceived cb data ∈ Client.calls (Client.run policy evs w)) →
  attached w cb
  ∨ (∃ data, Client.MessageReceived cb data ∈ Client.calls w)
  ∨ cb ∈ bound (Client.onMessageReceived w) evs.
Proof.
  revert w. induction evs as [|ev evs IH]; intros w.
  { intros [?|?]; [by left|right; by left]. }
  change (Client.run policy (ev :: evs) w)
    with (Client.run policy evs (Client.step policy w ev)).
  intros Hrun. apply IH in Hrun.
  destruct (Client_step_heard w ev cb) as [Hcalls Hatt].
  rewrite Client_step_callback in Hrun.
  assert (Hbound : cb ∈ bound (match ev with
                               | Client.CallListenForMessages cb' => Some cb'
                               | _ => Client.onMessageReceived w
                               end) evs →
                   cb ∈ bound (Client.onMessageReceived w) (ev :: evs)).
  { destruct ev; simpl; try done.
    destruct (Client.onMessageReceived w); [by right|done]. }
  destruct Hrun as [Ha|[[data Hc]|Hb]].
  - destruct (Hatt Ha) as [?|[Hev Hcb]]; [by left|]. right. right.
    destruct ev; try done. simpl. rewrite Hcb. by left.
  - destruct (Hcalls data Hc) as [?|?]; [right; left; by exists data|by left].
  - right. right. by apply Hbound.
Qed.

Lemma Client_connect_deliver (w : Client.World) p :
  Client.deliver policy (Client.PeerConnect p) w
  = emit Client.run_OnPeerConnect
      (from_option on_connect [] (Client.peers w !! p))
      (Client.set_peers (alter Peer_open p (Client.peers w)) w).
Proof.
  unfold Client.deliver, Client.peer_listeners. js.
  rewrite list_lookup_alter_eq. by destruct (Client.peers w !! p).
Qed.

(** The ['data'] listeners and the calls after the ['connect'] event of
    [this.peer], after [listenForMessages], and after a ['data'] event. *)
Lemma Client_connect_listening (w : Client.World) p x k cb :
  Client.peer w = Some p →
  Client.peers w !! p = Some x →
  on_connect x = [Client.Connected k] →
  Client.onMessageReceived w = Some cb →
  Client_listening (Client.step policy w (Client.PeerConnect p))
  = (<[p := (on_data x ++ [Client.Listener cb])%list]> (on_data <$> Client.peers w),
     Client.calls w).
Proof.
  intros Hp Hx Hl Hcb. unfold Client.step. rewrite Client_drain_listening.
  unfold exec. rewrite Client_connect_deliver, Hx. cbn [from_option].
  rewrite Hl, emit_one, run_OnPeerConnect_run. simpl. rewrite Hp, Hcb. simpl.
  unfold Client_listening. simpl. f_equal.
  rewrite list_alter_alter_eq.
  rewrite <-(insert_alter _ _ _ _ Hx). by rewrite list_fmap_insert.
Qed.

Lemma Client_data_listening (w : Client.World) p (data : BufferSource) :
  Client_listening (Client.step policy w (Client.PeerData p data))
  = (on_data <$> Client.peers w,
     (Client.calls w
      ++ heard data (default [] ((on_data <$> Client.peers w) !! p)))%list).
Proof.
  unfold Client.step. rewrite Client_drain_listening. unfold exec.
  rewrite Client_peer_data_run. unfold Client_listening. simpl. rewrite list_lookup_fmap.
  by destruct (Client.peers w !! p).
Qed.

Lemma emit_forward (data : BufferSource) (ls : list Host.OnPeerData)
    (w : Host.World) cb :
  Host.onMessageReceived w = Some cb →
  exec (emit (Host.run_OnPeerData data) ls) w
  = Host.set_calls
      (Host.calls w
       ++ replicate (length ls) (Host.MessageReceived cb (TextDecoder_decode data)))
      w.
Proof.
  revert w. induction ls as [|[] ls IH]; intros w Hcb.
  - simpl. rewrite app_nil_r. by destruct w.
  - simpl. js. unfold Host.call_onMessageReceived. rewrite Hcb. simpl.
    rewrite IH by done. simpl. unfold Host.set_calls. simpl.
    by rewrite <-app_assoc.
Qed.


(** ** The Client: the timed promise of [joinRoom] *)

Lemma Client_step_refs (w : Client.World) (ev : Client.Event) :
  (on_connect <$> Client.peers (Client.step policy w ev),
   length (Client.timed (Client.step policy w ev)))
  = match ev with
    | Client.CallJoinRoom _ =>
        (((on_connect <$> Client.peers w)
          ++ [[Client.Connected (length (Client.timed w))]])%list,
         S (length (Client.timed w)))
    | _ => (on_connect <$> Client.peers w, length (Client.timed w))
    end.
Proof.
  set (view := λ w : Client.World,
         (on_connect <$> Client.peers w, length (Client.timed w))).
  change (view (Client.step policy w ev)
          = match ev with
            | Client.CallJoinRoom _ =>
                (((on_connect <$> Client.peers w)
                  ++ [[Client.Connected (length (Client.timed w))]])%list,
                 S (length (Client.timed w)))
            | _ => view w
            end).
  unfold Client.step. rewrite (Client_drain_preserves view); [|done|].
  2:{ intros p f w' Hf. unfold view. simpl.
      rewrite fmap_alter_same; [done|]. intros x. apply Hf. }
  destruct ev; unfold exec.
  - simpl. unfold Client.leaveRoom, Client.this_peer. js.
    destruct (Client.peer w); simpl; [|done].
    unfold view. simpl. by rewrite fmap_alter_same.
  - done.
  - unfold Client.deliver, mbind, JS_mbind, JS_bind. rewrite joinRoom_run.
    unfold view. simpl.
    rewrite fmap_app, length_app. simpl. f_equal. lia.
  - simpl. unfold Client.send, Client.this_peer, Client.peer_send. js.
    destruct (Client.peer w) as [p|]; simpl; [|done].
    destruct (Client.peers w !! p) as [x|] eqn:Hx; simpl; [|done].
    unfold view. simpl. rewrite list_fmap_insert.
    replace (on_connect (Peer_send (JSON_stringify message) x).2)
      with (on_connect x) by (unfold Peer_send; by destruct (connected x)).
    rewrite list_insert_id; [|by rewrite list_lookup_fmap, Hx].
    by destruct (Peer_send (JSON_stringify message) x).1.
  - simpl. js. apply (emit_preserves view).
    intros [] w' _. unfold Client.run_OnSocketData.
    destruct (JSON_parse (TextDecoder_decode data)) as [decoded|]; [|done].
    destruct (decide (type decoded = RoomJoined)).
    { unfold Client.resolve_roomJoined, exec. simpl.
      by destruct (promise (Client.roomJoined w')). }
    by destruct (decide (type decoded = RequestAccepted)).
  - simpl. unfold Client.peer_listeners. js.
    apply (emit_preserves view). by intros [room] w' _.
  - rewrite Client_connect_deliver. rewrite (emit_preserves view).
    + unfold view. simpl. by rewrite fmap_alter_same.
    + intros [j] w' _. rewrite run_OnPeerConnect_run.
      destruct (Client.peer w'); [|done].
      destruct (Client.onMessageReceived w'); [|done].
      unfold view. simpl. by rewrite fmap_alter_same, length_alter.
  - by rewrite Client_peer_data_run.
  - simpl. unfold Client.fire_timers. js. unfold view. simpl.
    by rewrite length_fmap.
  - simpl. unfold Client.fire_timers. js. unfold view. simpl.
    by rewrite length_fmap.
  - done.
  - simpl. js. unfold view. simpl. by rewrite fmap_alter_same.
Qed.

Lemma Client_step_promise (w : Client.World) (ev : Client.Event) p k tp :
  Client.timed w !! k = Some tp →
  holds_signal w p k →
  is_Some (Client.peer w) →
  let s := promise_step p
             (tp, Client.now w,
              bool_decide (is_Some (Client.onMessageReceived w))) ev in
  (Client.timed (Client.step policy w ev) !! k,
   Client.now (Client.step policy w ev),
   bool_decide (is_Some (Client.onMessageReceived (Client.step policy w ev))),
   bool_decide (is_Some (Client.peer (Client.step policy w ev))))
  = (Some s.1.1, s.1.2, s.2, true).
Proof.
  intros Hk [Hp Hothers] Hpeer s. subst s.
  set (view := λ w : Client.World,
         (Client.timed w !! k, Client.now w,
          bool_decide (is_Some (Client.onMessageReceived w)),
          bool_decide (is_Some (Client.peer w)))).
  set (l := bool_decide (is_Some (Client.onMessageReceived w))).
  change (view (Client.step policy w ev)
          = (Some (promise_step p (tp, Client.now w, l) ev).1.1,
             (promise_step p (tp, Client.now w, l) ev).1.2,
             (promise_step p (tp, Client.now w, l) ev).2, true)).
  assert (Hw : view w = (Some tp, Client.now w, l, true)).
  { unfold view. by rewrite Hk, (bool_decide_eq_true_2 _ Hpeer). }
  unfold Client.step. rewrite (Client_drain_preserves view); [|done|done].
  destruct ev; unfold exec; try exact Hw.
  - simpl. unfold Client.leaveRoom, Client.this_peer. js.
    by destruct (Client.peer w).
  - unfold view. simpl. rewrite Hk.
    by rewrite (bool_decide_eq_true_2 (is_Some (Client.peer w))) by done.
  - unfold Client.deliver, mbind, JS_mbind, JS_bind. rewrite joinRoom_run.
    unfold view. simpl.
    by rewrite (lookup_app_l_Some _ _ _ _ Hk).
  - simpl. unfold Client.send, Client.this_peer, Client.peer_send. js.
    destruct (Client.peer w) as [p'|]; simpl; [|done].
    destruct (Client.peers w !! p') as [x|] eqn:Hx; simpl; [|done].
    by destruct (Peer_send (JSON_stringify message) x).1.
  - simpl. js. rewrite <-Hw. apply (emit_preserves view).
    intros [] w' _. unfold Client.run_OnSocketData.
    destruct (JSON_parse (TextDecoder_decode data)) as [decoded|]; [|done].
    destruct (decide (type decoded = RoomJoined)).
    { unfold Client.resolve_roomJoined. simpl.
      by destruct (promise (Client.roomJoined w')). }
    by destruct (decide (type decoded = RequestAccepted)).
  - simpl. rewrite <-Hw. unfold Client.peer_listeners. js.
    apply (emit_preserves view). by intros [room] w' _.
  - (* the channel of a peer opens *)
    rewrite Client_connect_deliver. rewrite list_lookup_fmap in Hp.
    rename p0 into q. simpl.
    destruct (decide (q = p)) as [->|Hne].
    + destruct (Client.peers w !! p) as [x|]; [|done].
      injection Hp as Hl. simpl. rewrite Hl, emit_one, run_OnPeerConnect_run.
      simpl. destruct Hpeer as [p' Hp']. rewrite Hp'. subst l.
      destruct (Client.onMessageReceived w) as [cb|] eqn:Hcb.
      * rewrite decide_True by done. unfold view. simpl.
        by rewrite list_lookup_alter_eq, Hk, Hp', Hcb.
      * rewrite decide_False by (by intros [_ ?]). unfold view. simpl.
        by rewrite Hk, Hp', Hcb.
    + rewrite decide_False by (by intros [? _]). simpl. rewrite <-Hw.
      rewrite (emit_preserves view); [done|].
      intros [j] w' Hin. rewrite run_OnPeerConnect_run.
      destruct (Client.peer w'); [|done].
      destruct (Client.onMessageReceived w'); [|done].
      unfold view. simpl. rewrite list_lookup_alter_ne; [done|].
      intros ->. apply (Hothers q (from_option on_connect [] (Client.peers w !! q)));
        [done| |].
      * rewrite list_lookup_fmap.
        destruct (Client.peers w !! q); [done|]. by apply elem_of_nil in Hin.
      * exact Hin.
  - by rewrite Client_peer_data_run.
  - simpl. unfold Client.fire_timers. js. unfold view. simpl.
    rewrite list_lookup_fmap, Hk. simpl.
    by rewrite (bool_decide_eq_true_2 (is_Some (Client.peer w))) by done.
  - simpl. unfold Client.fire_timers. js. unfold view. simpl.
    rewrite list_lookup_fmap, Hk. simpl.
    by rewrite (bool_decide_eq_true_2 (is_Some (Client.peer w))) by done.
Qed.

Lemma Client_step_holds (w : Client.World) (ev : Client.Event) p k :
  k < length (Client.timed w) →
  holds_signal w p k →
  k < length (Client.timed (Client.step policy w ev))
  ∧ holds_signal (Client.step policy w ev) p k.
Proof.
  intros Hk [Hp Hothers]. pose proof (Client_step_refs w ev) as Hrefs.
  unfold holds_signal.
  pose proof (f_equal fst Hrefs) as Hc. pose proof (f_equal snd Hrefs) as Ht.
  clear Hrefs. destruct ev; cbn [fst snd] in Hc, Ht; rewrite Hc, Ht; try done.
  split; [lia|]. split; [by apply lookup_app_l_Some|].
  intros q l Hq [Hold|[_ Hnew]]%lookup_app_Some; [by eapply Hothers|].
  apply list_lookup_singleton_Some in Hnew as [_ <-].
  intros [= Heq]%list_elem_of_singleton. lia.
Qed.

Lemma Client_run_promise (evs : list Client.Event) (w : Client.World) p k tp :
  Client.timed w !! k = Some tp →
  holds_signal w p k →
  is_Some (Client.peer w) →
  Client.timed (Client.run policy evs w) !! k
  = Some (foldl (promise_step p)
            (tp, Client.now w,
             bool_decide (is_Some (Client.onMessageReceived w))) evs).1.1.
Proof.
  revert w tp. induction evs as [|ev evs IH]; intros w tp Hk Hholds Hpeer; [done|].
  change (Client.run policy (ev :: evs) w)
    with (Client.run policy evs (Client.step policy w ev)).
  pose proof (Client_step_promise w ev p k tp Hk Hholds Hpeer) as Hstep.
  cbv zeta in Hstep. apply tuple4_eq in Hstep as (Hk' & Hnow' & Hcb' & Hpeer').
  apply bool_decide_eq_true_1 in Hpeer'.
  destruct (Client_step_holds w ev p k) as [_ Hholds']; [|done|].
  { by eapply lookup_lt_Some. }
  rewrite (IH _ _ Hk' Hholds' Hpeer'). simpl. rewrite Hnow', Hcb'.
  by destruct (promise_step p _ ev) as [[? ?] ?].
Qed.

Lemma signals_made_step (w : Client.World) (ev : Client.Event) :
  signals_made w → signals_made (Client.step policy w ev).
Proof.
  intros Hw. pose proof (Client_step_refs w ev) as Hrefs. unfold signals_made.
  pose proof (f_equal fst Hrefs) as Hc. pose proof (f_equal snd Hrefs) as Ht.
  clear Hrefs. destruct ev; cbn [fst snd] in Hc, Ht; rewrite Hc, Ht; try done.
  intros q l j [Hold|[_ Hnew]]%lookup_app_Some Hin.
  - specialize (Hw q l j Hold Hin). lia.
  - apply list_lookup_singleton_Some in Hnew as [_ <-].
    apply list_elem_of_singleton in Hin as [= Heq]. lia.
Qed.

Lemma signals_made_run (evs : list Client.Event) (w : Client.World) :
  signals_made w → signals_made (Client.run policy evs w).
Proof.
  revert w. induction evs as [|ev evs IH]; intros w Hw; [done|].
  apply IH. by apply signals_made_step.
Qed.

Lemma promise_settled_stable p (evs : list Client.Event) tp t l s :
  settlement tp = Some s →
  settlement (foldl (promise_step p) (tp, t, l) evs).1.1 = Some s.
Proof.
  revert tp t l. induction evs as [|ev evs IH]; intros tp t l Hs; [done|].
  simpl. destruct (promise_step p (tp, t, l) ev) as [[tp' t'] l'] eqn:Hstep.
  apply IH.
  replace tp' with (promise_step p (tp, t, l) ev).1.1 by (by rewrite Hstep).
  destruct ev; simpl; try done; unfold TimedPromise_resolve, TimedPromise_timeout;
    repeat case_decide; repeat case_bool_decide; simpl; by rewrite ?Hs.
Qed.

Lemma first_connect_ge p (evs : list Client.Event) l t t' :
  first_connect p l t evs = Some t' → (t ≤ t')%N.
Proof.
  revert l t. induction evs as [|ev evs IH]; intros l t; [done|].
  destruct ev; simpl; try apply IH.
  - case_decide; [intros [= ->]; lia|apply IH].
  - intros Hf%IH. lia.
Qed.

Lemma promise_fulfilled p (evs : list Client.Event) tp t l t' :
  settlement tp = None →
  first_connect p l t evs = Some t' →
  (t' < deadline tp)%N →
  settlement (foldl (promise_step p) (tp, t, l) evs).1.1 = Some Fulfilled.
Proof.
  revert tp t l. induction evs as [|ev evs IH]; intros tp t l Hs Hf Ht'; [done|].
  destruct ev; simpl in *; try by eapply IH.
  - case_decide.
    + apply promise_settled_stable. unfold TimedPromise_resolve. by rewrite Hs.
    + by eapply IH.
  - apply first_connect_ge in Hf as Hge.
    rewrite bool_decide_eq_false_2 by lia. by eapply IH.
  - apply first_connect_ge in Hf as Hge.
    rewrite bool_decide_eq_false_2 by lia. by eapply IH.
Qed.

Lemma promise_timed_out p (evs : list Client.Event) tp t l :
  settlement tp = None →
  (t ≤ deadline tp)%N →
  (∀ t', first_connect p l t evs = Some t' → (deadline tp < t')%N) →
  (deadline tp < t + elapsed evs)%N →
  settlement (foldl (promise_step p) (tp, t, l) evs).1.1
  = Some (Rejected Timeout).
Proof.
  revert tp t l. induction evs as [|ev evs IH]; intros tp t l Hs Ht Hf He.
  { simpl in He. lia. }
  destruct ev; simpl in *; try by eapply IH.
  - case_decide.
    + specialize (Hf t eq_refl). lia.
    + by eapply IH.
  - case_bool_decide.
    + apply promise_settled_stable. unfold TimedPromise_timeout. by rewrite Hs.
    + apply IH; [done|lia|done|lia].
  - case_bool_decide.
    + apply promise_settled_stable. unfold TimedPromise_timeout. by rewrite Hs.
    + by apply IH.
Qed.

(** While no callback is set and [listenForMessages] is not called, no
    ['connect'] event counts. *)
Lemma first_connect_unheard p (evs : list Client.Event) t :
  forallb (λ ev, negb (is_CallListenForMessages ev)) evs = true →
  first_connect p false t evs = None.
Proof.
  revert t. induction evs as [|ev evs IH]; intros t Hevs; [done|].
  simpl in Hevs. apply andb_prop in Hevs as [Hev Hevs].
  destruct ev; simpl in *; try done; try by apply IH.
  case_decide as Hd; [by destruct Hd as [_ ?]|by apply IH].
Qed.

Lemma signals_made_new server : signals_made (Client.new server).
Proof. intros q l j Hq. done. Qed.

(** [joinRoom] in a state a Client reaches from its construction: the
    promise it returns, the peer it makes, and what becomes of the
    promise. *)
Lemma joinRoom_promise server (pre : list Client.Event)
    (room : string) (evs : list Client.Event) :
  let w0 := Client.run policy pre (Client.new server) in
  let p := length (Client.peers w0) in
  let k := length (Client.timed w0) in
  let w1 := Client.step policy w0 (Client.CallJoinRoom room) in
  let w := Client.run policy evs w1 in
  completion (Client.joinRoom room) w0 = Normal k
  ∧ Client.peer w1 = Some p
  ∧ Client.timed w1 !! k
    = Some {| deadline := Client.now w0 + 30000; settlement := None |}
  ∧ Client.timed w !! k
    = Some (foldl (promise_step p)
              ({| deadline := Client.now w0 + 30000; settlement := None |},
               Client.now w0,
               bool_decide (is_Some (Client.onMessageReceived w0))) evs).1.1.
Proof.
  intros w0 p k w1 w.
  assert (Hmade : signals_made w0) by apply signals_made_run, signals_made_new.
  set (view := λ w : Client.World,
         (Client.timed w, Client.now w, Client.peer w,
          Client.onMessageReceived w)).
  assert (Hview : view w1
                  = ((Client.timed w0
                      ++ [TimedPromise_new (Client.now w0) (30 * 1000)])%list,
                     Client.now w0, Some p, Client.onMessageReceived w0)).
  { unfold w1, Client.step. rewrite (Client_drain_preserves view); [|done|done].
    js. by rewrite joinRoom_run. }
  apply tuple4_eq in Hview as (Htimed & Hnow & Hpeer & Hcb).
  assert (Hk : Client.timed w1 !! k
               = Some {| deadline := Client.now w0 + 30000; settlement := None |}).
  { rewrite Htimed, lookup_app_r by done. subst k. by rewrite Nat.sub_diag. }
  assert (Hholds : holds_signal w1 p k).
  { pose proof (f_equal fst (Client_step_refs w0 (Client.CallJoinRoom room))) as Hc.
    cbn [fst] in Hc. fold w1 in Hc. unfold holds_signal. rewrite Hc.
    assert (Hlen : length (on_connect <$> Client.peers w0) = p)
      by apply length_fmap.
    split.
    - rewrite lookup_app_r by lia. by rewrite Hlen, Nat.sub_diag.
    - intros q l Hq [Hold|[Hge Hnew]]%lookup_app_Some Hin.
      + specialize (Hmade q l k Hold Hin). unfold k in Hmade. lia.
      + apply list_lookup_singleton_Some in Hnew as [Hz _]. lia. }
  split; [unfold completion; by rewrite joinRoom_run|].
  split; [done|]. split; [done|].
  assert (Hrun := Client_run_promise evs w1 p k _ Hk Hholds).
  fold w in Hrun. rewrite Hrun by (by rewrite Hpeer). by rewrite Hnow, Hcb.
Qed.

(** C2.  Take a Client in any state it reaches from its construction in
    which no message callback is set, at instant [now], and call
    [joinRoom]: it returns a new timed promise, due at [now + 30000].
    While [listenForMessages] is not called, the ['connect'] listener of
    [joinRoom] throws a [TypeError] where it attaches the ['data']
    listener, before it reaches [resolve()]: whatever events come, the
    ['connect'] event of the new peer at any instant among them, once
    more than 30000 ms have gone by the promise is rejected with
    [Timeout]. *)
Theorem joinRoom_times_out_without_callback server (pre : list Client.Event)
    (room : string) (evs : list Client.Event) :
  let w0 := Client.run policy pre (Client.new server) in
  let p := length (Client.peers w0) in
  let k := length (Client.timed w0) in
  let w1 := Client.step policy w0 (Client.CallJoinRoom room) in
  let w := Client.run policy evs w1 in
  Client.onMessageReceived w0 = None →
  forallb (λ ev, negb (is_CallListenForMessages ev)) evs = true →
  (30000 < elapsed evs)%N →
  completion (Client.joinRoom room) w0 = Normal k
  ∧ Client.peer w1 = Some p
  ∧ Client.timed w1 !! k
    = Some {| deadline := Client.now w0 + 30000; settlement := None |}
  ∧ Client.run_OnPeerConnect (Client.Connected k) w1
    = (Throw (TypeError "The listener argument must be of type function"),
       Client.set_console (Client.console w1 ++ ["connected"]) w1)
  ∧ settlement <$> Client.timed w !! k = Some (Some (Rejected Timeout)).
Proof.
  intros w0 p k w1 w Hnone Hevs He.
  destruct (joinRoom_promise server pre room evs) as (Hc & Hp & Hk & Hrun).
  fold w0 p k w1 w in Hc, Hp, Hk, Hrun.
  split; [done|]. split; [done|]. split; [done|]. split.
  - rewrite run_OnPeerConnect_run, Hp.
    replace (Client.onMessageReceived w1) with (Client.onMessageReceived w0);
      [by rewrite Hnone|].
    unfold w1. by rewrite Client_step_callback.
  - rewrite Hrun, Hnone. simpl. f_equal.
    apply promise_timed_out; simpl; [done|lia| |lia].
    intros t'. by rewrite first_connect_unheard.
Qed.

(** ** More of the Host: the relay socket *)

Lemma Host_socket_connect_run (w : Host.World) s sock s0 :
  Host.socket w = Some s0 →
  Host.sockets w !! s = Some sock →
  socket_on_connect sock = [Host.SendCreateRoom] →
  Host.deliver policy (Host.SocketConnect s) w
  = Host.socket_send s0 (JSON_stringify CreateRoomRequest)
      (Host.set_sockets (alter Socket_open s (Host.sockets w)) w).
Proof.
  intros Hs0 Hs Hl. unfold Host.deliver, Host.socket_listeners. js.
  rewrite list_lookup_alter_eq, Hs. simpl. rewrite Hl. simpl. js.
  unfold Host.this_socket. simpl. rewrite Hs0.
  by destruct (Host.socket_send s0 _ _) as [[[]|e] w'].
Qed.

Lemma Host_connect_newest_run (w : Host.World) s sock :
  Host.socket w = Some s →
  Host.sockets w !! s = Some sock →
  socket_on_connect sock = [Host.SendCreateRoom] →
  Host.deliver policy (Host.SocketConnect s) w
  = (Normal tt,
     Host.set_sockets
       (alter (λ sock, socket_with_sent (JSON_stringify CreateRoomRequest)
                         (Socket_open sock)) s
          (Host.sockets w)) w).
Proof.
  intros Hs0 Hs Hl. rewrite (Host_socket_connect_run w s sock s Hs0 Hs Hl).
  rewrite socket_send_run. simpl. rewrite list_lookup_alter_eq, Hs. simpl.
  rewrite <-(insert_alter _ _ _ _ Hs), list_insert_insert_eq.
  by rewrite (insert_alter (λ sock, socket_with_sent _ (Socket_open sock))
                _ _ _ Hs).
Qed.

Lemma Host_connect_other_run (w : Host.World) s sock s0 sock0 :
  Host.socket w = Some s0 →
  s ≠ s0 →
  Host.sockets w !! s = Some sock →
  socket_on_connect sock = [Host.SendCreateRoom] →
  Host.sockets w !! s0 = Some sock0 →
  socket_connected sock0 = false →
  Host.deliver policy (Host.SocketConnect s) w
  = (Throw NotConnected,
     Host.set_sockets (alter Socket_open s (Host.sockets w)) w).
Proof.
  intros Hs0 Hne Hs Hl Hsock0 Hc.
  rewrite (Host_socket_connect_run w s sock s0 Hs0 Hs Hl).
  rewrite socket_send_run. simpl.
  by rewrite list_lookup_alter_ne, Hsock0, Hc by done.
Qed.

(** X1.  [createRoom] opens a socket, which is connecting, and sends
    nothing on it; the ['connect'] event of that socket then sends the
    serialised [CreateRoomRequest] on it, once, and changes nothing else
    but the state of the socket, which is connected.  This holds in
    whatever state the Host is. *)
Theorem createRoom_request_sent_on_connect (w : Host.World) :
  let s := length (Host.sockets w) in
  let w1 := Host.step policy w Host.CallCreateRoom in
  let w2 := Host.step policy w1 (Host.SocketConnect s) in
  Host.socket w1 = Some s
  ∧ socket_sent <$> Host.sockets w1 !! s = Some []
  ∧ completion (Host.deliver policy (Host.SocketConnect s)) w1 = Normal tt
  ∧ socket_sent <$> Host.sockets w2 !! s = Some [JSON_stringify CreateRoomRequest]
  ∧ w2 = Host.set_sockets
           (alter (λ sock, socket_with_sent (JSON_stringify CreateRoomRequest)
                             (Socket_open sock)) s
              (Host.sockets w1)) w1.
Proof.
  intros s w1 w2.
  assert (Hw1 : w1 = exec Host.createRoom w) by done.
  rewrite createRoom_exec in Hw1. fold s in Hw1.
  assert (Hs : Host.sockets w1 !! s
               = Some (Socket_on_connect Host.SendCreateRoom
                         (Socket_on_data Host.HandleResponse
                            (Socket_new (Host.signalServer w))))).
  { rewrite Hw1. simpl. rewrite lookup_app_r by done.
    subst s. by rewrite Nat.sub_diag. }
  assert (Hrun := Host_connect_newest_run w1 s _
                    ltac:(by rewrite Hw1) Hs eq_refl).
  assert (Hw2 : w2 = Host.set_sockets
                       (alter (λ sock,
                                 socket_with_sent
                                   (JSON_stringify CreateRoomRequest)
                                   (Socket_open sock)) s
                          (Host.sockets w1)) w1).
  { unfold w2, Host.step, exec. by rewrite Hrun. }
  split; [by rewrite Hw1|]. split; [by rewrite Hs|].
  split; [unfold completion; by rewrite Hrun|]. split; [|done].
  rewrite Hw2. unfold Host.set_sockets. cbn [Host.sockets].
  by rewrite list_lookup_alter_eq, Hs.
Qed.

(** X2.  The ['connect'] listener reads [this.socket] when it runs.  After
    a second [createRoom], the ['connect'] event of the first socket gives
    the [CreateRoomRequest] to the second socket, which is still
    connecting and refuses it: the listener throws, nothing goes out on
    either socket, and the only change is that the first socket is
    connected.  The ['connect'] event of the second socket then sends the
    request on the second socket. *)
Theorem second_createRoom_takes_the_request (w : Host.World) :
  let s := length (Host.sockets w) in
  let w2 := Host.step policy (Host.step policy w Host.CallCreateRoom)
              Host.CallCreateRoom in
  let w3 := Host.step policy w2 (Host.SocketConnect s) in
  let w4 := Host.step policy w3 (Host.SocketConnect (S s)) in
  Host.socket w2 = Some (S s)
  ∧ Host.deliver policy (Host.SocketConnect s) w2
    = (Throw NotConnected,
       Host.set_sockets (alter Socket_open s (Host.sockets w2)) w2)
  ∧ socket_sent <$> Host.sockets w3 !! s = Some []
  ∧ socket_sent <$> Host.sockets w3 !! S s = Some []
  ∧ socket_sent <$> Host.sockets w4 !! s = Some []
  ∧ socket_sent <$> Host.sockets w4 !! S s
    = Some [JSON_stringify CreateRoomRequest].
Proof.
  intros s w2 w3 w4.
  assert (Hw2 : w2 = exec Host.createRoom (exec Host.createRoom w)) by done.
  rewrite !createRoom_exec in Hw2. simpl in Hw2.
  rewrite length_app in Hw2. simpl in Hw2. fold s in Hw2.
  replace (s + 1) with (S s) in Hw2 by lia.
  set (sock := Socket_on_connect Host.SendCreateRoom
                 (Socket_on_data Host.HandleResponse
                    (Socket_new (Host.signalServer w)))) in *.
  assert (Hs : Host.sockets w2 !! s = Some sock).
  { rewrite Hw2. simpl. rewrite lookup_app_l by (rewrite length_app; simpl; lia).
    rewrite lookup_app_r by done. subst s. by rewrite Nat.sub_diag. }
  assert (Hs' : Host.sockets w2 !! S s = Some sock).
  { rewrite Hw2. simpl. rewrite lookup_app_r by (rewrite length_app; simpl; lia).
    rewrite length_app. simpl. subst s.
    by replace (S (length (Host.sockets w)) - (length (Host.sockets w) + 1))
      with 0 by lia. }
  assert (Hrun := Host_connect_other_run w2 s sock (S s) sock
                    ltac:(by rewrite Hw2) ltac:(lia) Hs eq_refl Hs' eq_refl).
  assert (Hw3 : w3 = Host.set_sockets (alter Socket_open s (Host.sockets w2)) w2).
  { unfold w3, Host.step, exec. by rewrite Hrun. }
  assert (Hs3 : Host.sockets w3 !! S s = Some sock).
  { rewrite Hw3. simpl. by rewrite list_lookup_alter_ne by lia. }
  assert (Hrun' := Host_connect_newest_run w3 (S s) sock
                     ltac:(by rewrite Hw3, Hw2) Hs3 eq_refl).
  assert (Hw4 : Host.sockets w4
                = alter (λ sock,
                           socket_with_sent (JSON_stringify CreateRoomRequest)
                             (Socket_open sock)) (S s) (Host.sockets w3)).
  { unfold w4, Host.step, exec. by rewrite Hrun'. }
  split; [by rewrite Hw2|]. split; [done|].
  rewrite Hw4, list_lookup_alter_ne, list_lookup_alter_eq by lia.
  rewrite Hs3, Hw3. cbn [Host.sockets Host.set_sockets].
  by rewrite list_lookup_alter_eq, Hs.
Qed.

(** X3.  A buffer from the relay that [JSON.parse] does not take makes the
    ['data'] listener of either role throw before it reads a discriminant,
    and leaves the world as it was. *)
Theorem malformed_relay_data_is_thrown (data : BufferSource) :
  JSON_parse (TextDecoder_decode data) = None →
  (∀ (w : Host.World) s sock,
     Host.sockets w !! s = Some sock →
     socket_on_data sock ≠ [] →
     Host.deliver policy (Host.SocketData s data) w = (Throw SyntaxError, w))
  ∧ (∀ w : Client.World,
       socket_on_data (Client.socket w) ≠ [] →
       Client.deliver policy (Client.SocketData data) w = (Throw SyntaxError, w)).
Proof.
  intros Hparse. split.
  - intros w s sock Hs Hls. unfold Host.deliver, Host.socket_listeners.
    js. rewrite Hs. simpl.
    destruct (socket_on_data sock) as [|[] ls]; [done|].
    apply emit_throws. unfold Host.run_OnSocketData. by rewrite Hparse.
  - intros w Hls. unfold Client.deliver. js.
    destruct (socket_on_data (Client.socket w)) as [|[] ls]; [done|].
    apply emit_throws. unfold Client.run_OnSocketData. by rewrite Hparse.
Qed.

(** ** More of the Host: the registry *)

Lemma Host_step_connections (w : Host.World) (ev : Host.Event) :
  (∀ p, ev ≠ Host.PeerConnect p) →
  Host.connections (Host.step policy w ev) = Host.connections w.
Proof.
  intros Hev. unfold Host.step. destruct ev; try done; js.
  - unfold Host.closeRoom, Host.this_socket. js. by destruct (Host.socket w).
  - unfold Host.sendToAll. js. apply (emit_preserves Host.connections).
    intros p w' _. unfold Host.peer_send. by destruct (Host.peers w' !! p).
  - unfold Host.sendTo, Host.peer_send. js.
    destruct (Map_has clientId (Host.connections w)); simpl; [|done].
    destruct (Map_get clientId (Host.connections w)) as [p|]; simpl; [|done].
    by destruct (Host.peers w !! p).
  - unfold Host.socket_listeners. js.
    rewrite (emit_preserves Host.connections); [done|].
    intros [] w' _. unfold Host.run_OnSocketConnect, Host.this_socket. js.
    destruct (Host.socket w') as [s'|]; simpl; [|done].
    unfold Host.socket_send. by destruct (Host.sockets w' !! s').
  - unfold Host.socket_listeners. js. apply (emit_preserves Host.connections).
    intros [] w' _. unfold Host.run_OnSocketData.
    destruct (JSON_parse (TextDecoder_decode data)) as [decoded|]; [|done].
    destruct (decide (type decoded = RoomCreated)).
    { unfold Host.resolve_roomCreated. simpl.
      by destruct (ManagedPromise_resolve policy (room decoded)
                     (Host.roomCreated w')).1. }
    destruct (decide (type decoded = GuestRequest)).
    { by rewrite registerGuest_run. }
    by destruct (decide (type decoded = RequestAccepted)).
  - unfold Host.peer_listeners. js. apply (emit_preserves Host.connections).
    intros [request] w' _. unfold Host.run_OnPeerSignal, Host.this_socket. js.
    destruct (Host.socket w') as [s'|]; simpl; [|done].
    unfold Host.socket_send. by destruct (Host.sockets w' !! s').
  - by destruct (Hev p).
  - unfold Host.peer_listeners. js. apply (emit_preserves Host.connections).
    intros [] w' _. unfold Host.run_OnPeerData, Host.call_onMessageReceived.
    by destruct (Host.onMessageReceived w').
Qed.

Lemma Host_step_keeps_key (w : Host.World) (ev : Host.Event) guest :
  guest ∈ Map_keys (Host.connections w) →
  guest ∈ Map_keys (Host.connections (Host.step policy w ev)).
Proof.
  intros Hin.
  assert (Hcase : (∃ p, ev = Host.PeerConnect p) ∨ ∀ p, ev ≠ Host.PeerConnect p)
    by (destruct ev; try (by right); left; by eexists).
  destruct Hcase as [[p ->]|Hne].
  - unfold Host.step, Host.deliver, Host.peer_listeners. js.
    apply (emit_invariant (λ w', guest ∈ Map_keys (Host.connections w')));
      [|done].
    intros [request newPeer] w' _ Hw'.
    unfold Host.run_OnPeerConnect, Host.call_guestJoinedCallback. js.
    assert (guest ∈ Map_keys (Map_set (client request) newPeer
                                (Host.connections w'))).
    { rewrite Map_keys_set. case_decide; [done|].
      apply elem_of_app. by left. }
    by destruct (Host.guestJoinedCallback w').
  - by rewrite Host_step_connections.
Qed.

(** X4.  The registry has no removal path: a client that is a key of the
    registry stays a key through every call and event that follows,
    [closeRoom] included, from whatever state the Host is in.  So [sendTo]
    with that client never again fails as for an unregistered client. *)
Theorem registered_client_stays_registered (w : Host.World)
    (evs : list Host.Event) guest :
  guest ∈ Map_keys (Host.connections w) →
  guest ∈ Map_keys (Host.connections (Host.run policy evs w))
  ∧ ∀ T (message : T),
      completion (Host.sendTo guest message) (Host.run policy evs w)
      ≠ Throw (ThrowError ("Cannot send message to unregisted client: " ++ guest)).
Proof.
  intros Hin.
  assert (Hkept : guest ∈ Map_keys (Host.connections (Host.run policy evs w))).
  { revert w Hin. induction evs as [|ev evs IH]; intros w Hin; [done|].
    apply IH. by apply Host_step_keeps_key. }
  split; [done|]. intros T message.
  apply Map_get_is_Some in Hkept as [p Hget].
  unfold completion, Host.sendTo, Map_has, Host.peer_send. js. rewrite Hget.
  rewrite bool_decide_eq_true_2 by (by eexists). simpl.
  destruct (Host.peers _ !! p) as [x|]; simpl; [|done].
  unfold Peer_send. by destruct (connected x).
Qed.

Lemma Host_registry_peers (w : Host.World) :
  Host_inv w →
  NoDup (Map_values (Host.connections w))
  ∧ ∀ guest p, Map_get guest (Host.connections w) = Some p →
      ∃ x, Host.peers w !! p = Some x ∧ peer_guest x = guest.
Proof.
  intros (_ & _ & Hr & _ & _ & Hk).
  assert (Hentry : ∀ guest p, Map_get guest (Host.connections w) = Some p →
            ∃ x, Host.peers w !! p = Some x ∧ peer_guest x = guest).
  { intros guest p Hget. destruct (Hr _ _ Hget) as (c & r & d & Hlook & <-).
    rewrite list_lookup_fmap in Hlook.
    destruct (Host.peers w !! p) as [x|]; [|done].
    injection Hlook as Hcx Hlx _. exists x. unfold peer_guest. by rewrite Hlx. }
  split; [|done].
  apply NoDup_fmap_2_strong; [|by eapply NoDup_fmap_1].
  intros [k1 v1] [k2 v2] Hin1 Hin2. simpl. intros <-.
  apply elem_of_Map_get in Hin1, Hin2; [|done..].
  destruct (Hentry _ _ Hin1) as (x1 & Hx1 & <-).
  destruct (Hentry _ _ Hin2) as (x2 & Hx2 & <-). congruence.
Qed.

Lemma reached_insert (peers : list (Peer Host.OnPeerSignal Host.OnPeerConnect
                                      Host.OnPeerData)) p x ps :
  p ∉ ps → reached (<[p := x]> peers) ps = reached peers ps.
Proof.
  induction ps as [|q ps IH]; intros Hp; [done|].
  apply not_elem_of_cons in Hp as [Hne Hp]. simpl.
  rewrite list_lookup_insert_ne by done. by rewrite IH.
Qed.

Lemma reached_all (peers : list (Peer Host.OnPeerSignal Host.OnPeerConnect
                                   Host.OnPeerData)) ps :
  reached peers ps = ps
  ↔ ∀ p, p ∈ ps → from_option connected false (peers !! p) = true.
Proof.
  induction ps as [|q ps IH]; simpl.
  - split; [|done]. intros _ p Hp. by apply elem_of_nil in Hp.
  - destruct (from_option connected false (peers !! q)) eqn:Hq.
    + split.
      * intros [= Hr] p [->|Hp]%elem_of_cons; [done|]. by apply IH.
      * intros Hall. f_equal. apply IH. intros p Hp. apply Hall. by right.
    + split; [done|]. intros Hall. rewrite Hall in Hq by left. done.
Qed.

(** [forEach] over the registry: the chunk goes out on the peers up to the
    first one that is not connected, where [send] throws. *)
Lemma emit_peer_send_reached (chunk : string) (ps : list nat) (w : Host.World) :
  NoDup ps →
  (∀ p, p ∈ ps → is_Some (Host.peers w !! p)) →
  ∃ peers',
    emit (λ p, Host.peer_send p chunk) ps w
    = (if decide (reached (Host.peers w) ps = ps) then Normal tt
       else Throw NotConnected,
       Host.set_peers peers' w)
    ∧ ∀ q, peers' !! q
           = if decide (q ∈ reached (Host.peers w) ps)
             then with_sent chunk <$> Host.peers w !! q
             else Host.peers w !! q.
Proof.
  revert w. induction ps as [|p ps IH]; intros w Hnd Hps.
  - exists (Host.peers w). split; [by destruct w|]. intros q.
    rewrite decide_False; [done|]. apply not_elem_of_nil.
  - apply NoDup_cons in Hnd as [Hp Hnd].
    destruct (Hps p) as [x Hx]; [by left|].
    simpl. rewrite Hx. simpl. destruct (connected x) eqn:Hcx.
    + assert (Hsend : Host.peer_send p chunk w
                      = (Normal tt,
                         Host.set_peers
                           (<[p := with_sent chunk x]> (Host.peers w)) w)).
      { unfold Host.peer_send, Peer_send, with_sent. by rewrite Hx, Hcx. }
      destruct (IH (Host.set_peers (<[p := with_sent chunk x]> (Host.peers w)) w))
        as (peers' & Hemit & Hlook); [done| |].
      { intros q Hq. simpl. rewrite list_lookup_insert_ne by (by intros ->).
        apply Hps. by right. }
      simpl in Hemit, Hlook. rewrite reached_insert in Hemit, Hlook by done.
      exists peers'. split.
      * unfold mbind, JS_mbind, JS_bind. rewrite Hsend, Hemit.
        destruct (decide (reached (Host.peers w) ps = ps)) as [Heq|Hneq].
        -- rewrite decide_True by (by rewrite Heq). by destruct w.
        -- rewrite decide_False by (by intros [= ?]). by destruct w.
      * intros q. rewrite Hlook. apply lookup_lt_Some in Hx as Hlt.
        destruct (decide (q = p)) as [->|Hne].
        -- rewrite decide_False.
           2:{ clear -Hp. revert Hp. generalize (Host.peers w).
               induction ps as [|q ps IH]; intros peers Hp; [apply not_elem_of_nil|].
               simpl. apply not_elem_of_cons in Hp as [Hne Hp].
               destruct (from_option connected false (peers !! q));
                 [|apply not_elem_of_nil].
               apply not_elem_of_cons. split; [done|by apply IH]. }
           rewrite decide_True by left.
           by rewrite list_lookup_insert_eq, Hx.
        -- rewrite list_lookup_insert_ne by done.
           destruct (decide (q ∈ reached (Host.peers w) ps)) as [Hin|Hin].
           ++ rewrite decide_True; [done|]. by right.
           ++ rewrite decide_False; [done|].
              rewrite not_elem_of_cons. by split.
    + exists (Host.peers w). split.
      * unfold mbind, JS_mbind, JS_bind.
        unfold Host.peer_send, Peer_send. rewrite Hx, Hcx. simpl.
        by rewrite list_insert_id by done.
      * intros q. rewrite decide_False; [done|]. apply not_elem_of_nil.
Qed.

(** X5.  In every state a Host reaches from its construction, [sendToAll]
    visits the peers of the registry in the order of the registry and
    sends the serialised message on each, up to the first peer that is
    not connected: there [send] throws, [sendToAll] ends with that
    exception, and the later peers get nothing.  It completes normally
    when every peer of the registry is connected.  The world is as it was
    but for the peers reached, on each of which the message has gone out
    once more.  With an empty registry nothing changes at all. *)
Theorem sendToAll_reaches_the_registered server (evs : list Host.Event)
    {T} (message : T) :
  let w := Host.run policy evs (Host.new server) in
  let ps := Map_values (Host.connections w) in
  (∃ peers',
     Host.sendToAll message w
     = (if decide (reached (Host.peers w) ps = ps) then Normal tt
        else Throw NotConnected,
        Host.set_peers peers' w)
     ∧ ∀ p, peers' !! p
            = if decide (p ∈ reached (Host.peers w) ps)
              then with_sent (JSON_stringify message) <$> Host.peers w !! p
              else Host.peers w !! p)
  ∧ (reached (Host.peers w) ps = ps
     ↔ ∀ p, p ∈ ps → from_option connected false (Host.peers w !! p) = true)
  ∧ (Host.connections w = [] → Host.sendToAll message w = (Normal tt, w)).
Proof.
  intros w ps. pose proof (Host_inv_reachable server evs) as Hinv.
  fold w in Hinv.
  destruct (Host_registry_peers w Hinv) as [Hnd Hentry].
  unfold ps in *. clear ps. split; [|split].
  - destruct (emit_peer_send_reached (JSON_stringify message) _ w Hnd)
      as (peers' & Hemit & Hlook).
    + intros p [guest Hin]%Map_values_elem_of.
      apply elem_of_Map_get in Hin; [|by destruct Hinv as (_&_&_&_&_&?)].
      destruct (Hentry _ _ Hin) as (x & Hx & _). by exists x.
    + exists peers'. split; [|done]. unfold Host.sendToAll. js. by rewrite Hemit.
  - apply reached_all.
  - intros Hempty. unfold Host.sendToAll. js. by rewrite Hempty.
Qed.

(** X6.  In every state a Host reaches from its construction, [sendTo] with
    a client of the registry gives the serialised message to the peer
    registered for that client, which is the peer of that client's own
    handshake.  When that peer is connected the message goes out on it
    and nothing else changes; when its channel is not open, the guest
    having left, [send] throws and nothing changes. *)
Theorem sendTo_reaches_the_client server (evs : list Host.Event) guest p
    {T} (message : T) :
  let w := Host.run policy evs (Host.new server) in
  Map_get guest (Host.connections w) = Some p →
  ∃ x, Host.peers w !! p = Some x
       ∧ peer_guest x = guest
       ∧ Host.sendTo guest message w
         = if connected x
           then (Normal tt,
                 Host.set_peers
                   (<[p := with_sent (JSON_stringify message) x]> (Host.peers w))
                   w)
           else (Throw NotConnected, w).
Proof.
  intros w Hget. pose proof (Host_inv_reachable server evs) as Hinv.
  fold w in Hinv. destruct (Host_registry_peers w Hinv) as [_ Hentry].
  destruct (Hentry _ _ Hget) as (x & Hx & Hgx). exists x.
  split; [done|]. split; [done|].
  unfold Host.sendTo, Map_has, Host.peer_send. js. rewrite Hget.
  rewrite bool_decide_eq_true_2 by (by eexists). simpl. rewrite Hx. simpl.
  unfold Peer_send, with_sent. destruct (connected x); simpl; [done|].
  rewrite list_insert_id by done. by destruct w.
Qed.

(** X7.  In every state a Host reaches from its construction, the
    ['connect'] event of a guest's peer makes the registry map the client
    of that handshake to that peer, whether or not a guest-joined callback
    is set.  An entry the client had is replaced where it stands, so the
    peer of an earlier handshake under the same client is no longer
    reached; the entries of all other clients are as they were. *)
Theorem connect_registers_under_own_client server (evs : list Host.Event) p x :
  let w := Host.run policy evs (Host.new server) in
  let w' := Host.step policy w (Host.PeerConnect p) in
  Host.peers w !! p = Some x →
  Map_get (peer_guest x) (Host.connections w') = Some p
  ∧ (∀ guest, guest ≠ peer_guest x →
       Map_get guest (Host.connections w') = Map_get guest (Host.connections w))
  ∧ Map_keys (Host.connections w')
    = if decide (peer_guest x ∈ Map_keys (Host.connections w))
      then Map_keys (Host.connections w)
      else (Map_keys (Host.connections w) ++ [peer_guest x])%list.
Proof.
  intros w w' Hx. pose proof (Host_inv_reachable server evs) as Hinv.
  fold w in Hinv.
  destruct (Host_peer_listener w p x Hinv Hx) as [request Hl].
  assert (Hg : peer_guest x = client request)
    by (unfold peer_guest; by rewrite Hl).
  assert (Hconn : Host.connections w'
                  = Map_set (client request) p (Host.connections w)).
  { unfold w', Host.step, exec.
    rewrite (Host_connect_exec w p x request Hx Hl).
    by destruct (Host.guestJoinedCallback w). }
  rewrite Hconn, Hg. split; [|split].
  - rewrite Map_get_set. by rewrite decide_True.
  - intros guest Hne. rewrite Map_get_set. by rewrite decide_False.
  - apply Map_keys_set.
Qed.

Lemma Host_step_guestCallback (w : Host.World) (ev : Host.Event) :
  Host.guestJoinedCallback (Host.step policy w ev)
  = match ev with
    | Host.CallListenForGuests cb => Some cb
    | _ => Host.guestJoinedCallback w
    end.
Proof.
  unfold Host.step. destruct ev; try done; js.
  - unfold Host.closeRoom, Host.this_socket. js. by destruct (Host.socket w).
  - unfold Host.sendToAll. js. apply (emit_preserves Host.guestJoinedCallback).
    intros p w' _. unfold Host.peer_send. by destruct (Host.peers w' !! p).
  - unfold Host.sendTo, Host.peer_send. js.
    destruct (Map_has clientId (Host.connections w)); simpl; [|done].
    destruct (Map_get clientId (Host.connections w)) as [p|]; simpl; [|done].
    by destruct (Host.peers w !! p).
  - unfold Host.socket_listeners. js.
    rewrite (emit_preserves Host.guestJoinedCallback); [done|].
    intros [] w' _. unfold Host.run_OnSocketConnect, Host.this_socket. js.
    destruct (Host.socket w') as [s'|]; simpl; [|done].
    unfold Host.socket_send. by destruct (Host.sockets w' !! s').
  - unfold Host.socket_listeners. js.
    apply (emit_preserves Host.guestJoinedCallback).
    intros [] w' _. unfold Host.run_OnSocketData.
    destruct (JSON_parse (TextDecoder_decode data)) as [decoded|]; [|done].
    destruct (decide (type decoded = RoomCreated)).
    { unfold Host.resolve_roomCreated. simpl.
      by destruct (ManagedPromise_resolve policy (room decoded)
                     (Host.roomCreated w')).1. }
    destruct (decide (type decoded = GuestRequest)).
    { by rewrite registerGuest_run. }
    by destruct (decide (type decoded = RequestAccepted)).
  - unfold Host.peer_listeners. js.
    apply (emit_preserves Host.guestJoinedCallback).
    intros [request] w' _. unfold Host.run_OnPeerSignal, Host.this_socket. js.
    destruct (Host.socket w') as [s'|]; simpl; [|done].
    unfold Host.socket_send. by destruct (Host.sockets w' !! s').
  - unfold Host.peer_listeners. js.
    rewrite (emit_preserves Host.guestJoinedCallback); [done|].
    intros [request newPeer] w' _.
    unfold Host.run_OnPeerConnect, Host.call_guestJoinedCallback. js.
    destruct (Host.guestJoinedCallback w') eqn:E; simpl; by rewrite ?E.
  - unfold Host.peer_listeners. js.
    apply (emit_preserves Host.guestJoinedCallback).
    intros [] w' _. unfold Host.run_OnPeerData, Host.call_onMessageReceived.
    by destruct (Host.onMessageReceived w').
Qed.

Lemma Host_quiet_step (w : Host.World) (ev : Host.Event) :
  Host_inv w → Host_quiet w → Host_quiet (Host.step policy w ev).
Proof.
  intros Hinv Hq Hnone p x' Hx'.
  rewrite Host_step_guestCallback in Hnone.
  assert (Hcb : Host.guestJoinedCallback w = None) by (by destruct ev).
  specialize (Hq Hcb).
  assert (Hcase : (∃ q, ev = Host.PeerConnect q) ∨ ∀ q, ev ≠ Host.PeerConnect q)
    by (destruct ev; try (by right); left; by eexists).
  destruct Hcase as [[q ->]|Hne].
  - destruct (Host.peers w !! q) as [x|] eqn:Hx.
    + destruct (Host_peer_listener w q x Hinv Hx) as [request Hl].
      unfold Host.step, exec in Hx'.
      rewrite (Host_connect_exec w q x request Hx Hl), Hcb in Hx'.
      simpl in Hx'. destruct (decide (q = p)) as [->|Hqp].
      * rewrite list_lookup_insert_eq in Hx' by (by eapply lookup_lt_Some).
        injection Hx' as <-. simpl. by eapply Hq.
      * rewrite list_lookup_insert_ne in Hx' by done. by eapply Hq.
    + unfold Host.step, Host.deliver, Host.peer_listeners in Hx'. js.
      rewrite list_lookup_alter_eq, Hx in Hx'. simpl in Hx'.
      rewrite alter_None in Hx' by done. by eapply Hq.
  - destruct (Host_other_view w ev Hinv Hne) as (ss & extra & Hv & Hextra).
    unfold Host_view in Hv. apply tuple4_eq in Hv as (_ & Hps & _ & _).
    assert (Hlook : (shape <$> Host.peers (Host.step policy w ev)) !! p
                    = Some (shape x')) by (by rewrite list_lookup_fmap, Hx').
    rewrite Hps in Hlook. unfold shape in Hlook.
    apply lookup_app_Some in Hlook as [Hlook|[_ Hlook]].
    + apply closed_by_lookup in Hlook as (c' & Hlook & _).
      rewrite list_lookup_fmap in Hlook.
      destruct (Host.peers w !! p) as [x|] eqn:Hx; [|done].
      injection Hlook as _ _ Hd. rewrite <-Hd. by eapply Hq.
    + apply list_elem_of_lookup_2 in Hlook.
      rewrite Forall_forall in Hextra. by apply Hextra in Hlook as [_ Hd].
Qed.

Lemma Host_quiet_reachable server (evs : list Host.Event) :
  Host_quiet (Host.run policy evs (Host.new server)).
Proof.
  assert (Hgen : ∀ w, Host_inv w → Host_quiet w →
                      Host_quiet (Host.run policy evs w)).
  { induction evs as [|ev evs IH]; intros w Hinv Hq; [done|].
    simpl. apply IH; [by apply Host_inv_step|by apply Host_quiet_step]. }
  apply Hgen; [apply Host_inv_new|]. by intros _ p x Hx.
Qed.

(** X8.  The ['connect'] listener calls the guest-joined callback between
    registering the peer and attaching the ['data'] listener.  In a state a
    Host reaches from its construction with no guest-joined callback set,
    the ['connect'] event of a guest's peer that was not connected
    registers the peer and then throws, so the peer is left without a
    ['data'] listener: whatever callback [listenForMessages] sets
    afterwards, a message of that peer calls nothing. *)
Theorem connect_without_guest_callback server (evs : list Host.Event) p x :
  let w := Host.run policy evs (Host.new server) in
  let w' := Host.step policy w (Host.PeerConnect p) in
  Host.peers w !! p = Some x →
  connected x = false →
  Host.guestJoinedCallback w = None →
  completion (Host.deliver policy (Host.PeerConnect p)) w
  = Throw (TypeError "this.guestJoinedCallback is not a function")
  ∧ Map_get (peer_guest x) (Host.connections w') = Some p
  ∧ Host.peers w' !! p = Some (Peer_open x)
  ∧ on_data (Peer_open x) = []
  ∧ ∀ cb (data : BufferSource),
      Host.calls (Host.step policy
                    (Host.step policy w' (Host.CallListenForMessages cb))
                    (Host.PeerData p data))
      = Host.calls w.
Proof.
  intros w w' Hx Hcx Hcb. pose proof (Host_inv_reachable server evs) as Hinv.
  fold w in Hinv.
  destruct (Host_peer_listener w p x Hinv Hx) as [request Hl].
  assert (Hd : on_data x = []).
  { by apply (Host_quiet_reachable server evs Hcb p x). }
  pose proof (Host_connect_exec w p x request Hx Hl) as Hrun.
  rewrite Hcb in Hrun.
  assert (Hw' : w' = (Host.deliver policy (Host.PeerConnect p) w).2) by done.
  rewrite Hrun in Hw'. simpl in Hw'.
  apply lookup_lt_Some in Hx as Hlt.
  split; [unfold completion; by rewrite Hrun|].
  split.
  { rewrite Hw'. simpl. rewrite Map_get_set.
    unfold peer_guest. rewrite Hl. by rewrite decide_True. }
  split; [rewrite Hw'; simpl; by rewrite list_lookup_insert_eq|].
  split; [done|]. intros cb data.
  unfold Host.step at 1. unfold Host.deliver, Host.peer_listeners. js.
  rewrite Hw'. simpl. rewrite list_lookup_insert_eq by done. simpl.
  by rewrite Hd.
Qed.

(** ** More of the Host: the wiring of the guests' peers *)

Lemma newest_length {A B} (l : list A) (l' : list B) :
  length l' = length l → newest l' = newest l.
Proof. unfold newest. by intros ->. Qed.

Lemma Host_wired_frame (w w' : Host.World) :
  Host.socket w' = Host.socket w →
  length (Host.sockets w') = length (Host.sockets w) →
  length (Host.peers w') = length (Host.peers w) →
  (∀ p x x', Host.peers w !! p = Some x → Host.peers w' !! p = Some x' →
             wired p x → wired p x') →
  Host_wired w → Host_wired w'.
Proof.
  intros Hs Hss Hps Hx (Hsock & Hsome & Hwired). split; [|split].
  - rewrite Hs, Hsock. symmetry. by apply newest_length.
  - intros Hne. assert (Host.peers w ≠ []) as Hne'%Hsome.
    { intros Hnil. rewrite Hnil in Hps. by destruct (Host.peers w'). }
    intros Hnil. rewrite Hnil in Hss. by destruct (Host.sockets w).
  - intros p x' Hp'.
    destruct (Host.peers w !! p) as [x|] eqn:Hp.
    + eapply Hx; [done..|]. by apply Hwired.
    + apply lookup_ge_None in Hp. apply lookup_lt_Some in Hp'. lia.
Qed.

Lemma Host_wired_peer (w : Host.World) p f :
  (∀ x, wired p x → wired p (f x)) →
  Host_wired w → Host_wired (Host.set_peers (alter f p (Host.peers w)) w).
Proof.
  intros Hf. apply Host_wired_frame; simpl; [done|done|by rewrite length_alter|].
  intros q x x' Hq Hq' Hw. destruct (decide (p = q)) as [->|Hne].
  - rewrite list_lookup_alter_eq, Hq in Hq'. injection Hq' as <-. by apply Hf.
  - rewrite list_lookup_alter_ne, Hq in Hq' by done. by injection Hq' as <-.
Qed.

Lemma Host_wired_socket (w : Host.World) s f :
  Host_wired w → Host_wired (Host.set_sockets (alter f s (Host.sockets w)) w).
Proof.
  apply Host_wired_frame; simpl; [done|by rewrite length_alter|done|].
  intros q x x' Hq Hq' Hw. rewrite Hq in Hq'. by injection Hq' as <-.
Qed.

Lemma Host_wired_peer_send (w : Host.World) p chunk :
  Host_wired w → Host_wired (Host.peer_send p chunk w).2.
Proof.
  unfold Host.peer_send. destruct (Host.peers w !! p) as [x|] eqn:Hp; [|done].
  apply Host_wired_frame; simpl; [done|done|by rewrite length_insert|].
  intros q y y' Hq Hq' Hw. destruct (decide (p = q)) as [->|Hne].
  - rewrite list_lookup_insert_eq in Hq' by (by eapply lookup_lt_Some).
    injection Hq' as <-. rewrite Hp in Hq. injection Hq as <-.
    unfold Peer_send. by destruct (connected x).
  - rewrite list_lookup_insert_ne, Hq in Hq' by done. by injection Hq' as <-.
Qed.

Lemma Host_wired_this_socket (w : Host.World) f :
  Host_wired w →
  Host_wired ((s ← Host.this_socket; Host.on_socket s f) w).2.
Proof.
  intros Hw. unfold Host.this_socket. js.
  destruct (Host.socket w) as [s|]; simpl; [|done].
  by apply Host_wired_socket.
Qed.

Lemma Host_wired_socket_send (w : Host.World) chunk :
  Host_wired w →
  Host_wired ((s ← Host.this_socket; Host.socket_send s chunk) w).2.
Proof.
  intros Hw. unfold Host.this_socket. js.
  destruct (Host.socket w) as [s|]; simpl; [|done].
  rewrite socket_send_run. destruct (Host.sockets w !! s) as [x|] eqn:Hs; [|done].
  destruct (socket_connected x); [|done]. simpl.
  rewrite (insert_alter (socket_with_sent chunk) _ _ _ Hs).
  by apply Host_wired_socket.
Qed.

Lemma Host_wired_registerGuest (w : Host.World) request :
  Host.sockets w ≠ [] →
  Host_wired w → Host_wired (Host.registerGuest request w).2.
Proof.
  intros Hne (Hsock & Hsome & Hwired). rewrite registerGuest_run. simpl.
  split; [done|]. split; [done|]. simpl.
  intros p x [Hold|[Hge Hnew]]%lookup_app_Some; [by apply Hwired|].
  apply list_lookup_singleton_Some in Hnew as [Hp <-].
  replace p with (length (Host.peers w)) by lia. exists request.
  destruct (registerGuest_peer request (length (Host.peers w)))
    as (Hsh & Hsig & Hi & Ht & Hsd & Hd).
  repeat split; try done.
  - intros Hno. by rewrite Hd, Hno.
  - unfold shape in Hsh. by injection Hsh.
Qed.

Lemma Host_wired_step (w : Host.World) (ev : Host.Event) :
  Host_wired w → Host_wired (Host.step policy w ev).
Proof.
  intros Hw. unfold Host.step. destruct ev; js.
  - (* createRoom *)
    change (Host_wired (exec Host.createRoom w)). rewrite createRoom_exec.
    destruct Hw as (_ & _ & Hwired). split; [|split]; simpl.
    + unfold newest. rewrite length_app. simpl.
      by replace (length (Host.sockets w) + 1) with (S (length (Host.sockets w)))
        by lia.
    + intros _ Hnil. by apply app_eq_nil in Hnil as [_ ?].
    + done.
  - by apply Host_wired_this_socket.
  - done.
  - done.
  - unfold Host.sendToAll. js. apply (emit_invariant Host_wired); [|done].
    intros p w' _. apply Host_wired_peer_send.
  - unfold Host.sendTo. js.
    destruct (Map_has clientId (Host.connections w)); simpl; [|done].
    destruct (Map_get clientId (Host.connections w)) as [p|]; simpl; [|done].
    by apply Host_wired_peer_send.
  - unfold Host.socket_listeners. js. apply (emit_invariant Host_wired).
    + intros [] w' _. apply Host_wired_socket_send.
    + by apply Host_wired_socket.
  - unfold Host.socket_listeners. js.
    destruct (Host.sockets w !! s) as [sock|] eqn:Hs; simpl; [|done].
    apply (emit_invariant (λ w', Host_wired w' ∧ Host.sockets w' ≠ []));
      [|split; [done|by intros Hnil; rewrite Hnil in Hs]].
    intros [] w' _ [Hw' Hne]. unfold Host.run_OnSocketData.
    destruct (JSON_parse (TextDecoder_decode data)) as [decoded|]; [|done].
    destruct (decide (type decoded = RoomCreated)).
    { unfold Host.resolve_roomCreated. simpl.
      by destruct (ManagedPromise_resolve policy (room decoded)
                     (Host.roomCreated w')).1. }
    destruct (decide (type decoded = GuestRequest)).
    { split; [by apply Host_wired_registerGuest|].
      by rewrite registerGuest_run. }
    by destruct (decide (type decoded = RequestAccepted)).
  - unfold Host.peer_listeners. js. apply (emit_invariant Host_wired); [|done].
    intros [request] w' _. apply Host_wired_socket_send.
  - unfold Host.peer_listeners. js.
    apply (emit_invariant Host_wired).
    + intros [request newPeer] w' _ Hw'.
      unfold Host.run_OnPeerConnect, Host.call_guestJoinedCallback. js.
      destruct (Host.guestJoinedCallback w'); simpl; [|done].
      by apply (Host_wired_peer
                  (Host.set_calls _ (Host.set_connections _ w'))).
    + by apply Host_wired_peer.
  - unfold Host.peer_listeners. js. apply (emit_invariant Host_wired); [|done].
    intros [] w' _ Hw'. unfold Host.run_OnPeerData, Host.call_onMessageReceived.
    by destruct (Host.onMessageReceived w').
  - apply Host_wired_peer; [|done].
    intros x (request & ? & ? & ? & ? & ? & ?). by exists request.
Qed.

Lemma Host_wired_reachable server (evs : list Host.Event) :
  Host_wired (Host.run policy evs (Host.new server)).
Proof.
  assert (Hnew : Host_wired (Host.new server)) by (by split; [|split]).
  revert Hnew. generalize (Host.new server).
  induction evs as [|ev evs IH]; intros w Hw; [done|].
  apply IH. by apply Host_wired_step.
Qed.

Lemma Host_signal_run (w : Host.World) p x request s sock (id : string) :
  Host.peers w !! p = Some x →
  on_signal x = [Host.SendAnswer request] →
  Host.socket w = Some s →
  Host.sockets w !! s = Some sock →
  Host.deliver policy (Host.PeerSignal p id) w
  = if socket_connected sock
    then (Normal tt,
          Host.set_sockets
            (<[s := socket_with_sent
                      (JSON_stringify (AddToRoomRequest id (client request)))
                      sock]>
               (Host.sockets w)) w)
    else (Throw NotConnected, w).
Proof.
  intros Hx Hsig Hsock Hs.
  unfold Host.deliver, Host.peer_listeners. js. rewrite Hx. simpl.
  rewrite Hsig. simpl. js. unfold Host.this_socket. rewrite Hsock. simpl.
  rewrite socket_send_run, Hs. by destruct (socket_connected sock).
Qed.

(** X9.  In every state a Host reaches from its construction, the
    ['signal'] event of a guest's peer gives one [AddToRoomRequest], with
    the signal as answer and the client of that peer's handshake, to
    [send] of [this.socket], which is the socket opened last, whichever
    socket the guest's request came on.  When that socket is connected
    the request goes out on it and nothing else changes; when it is not,
    being still connecting or closed by [closeRoom], [send] throws and
    nothing changes. *)
Theorem answer_goes_out_on_the_newest_socket server (evs : list Host.Event)
    p x (id : string) :
  let w := Host.run policy evs (Host.new server) in
  Host.peers w !! p = Some x →
  ∃ s sock,
    Host.socket w = Some s ∧ S s = length (Host.sockets w)
    ∧ Host.sockets w !! s = Some sock
    ∧ Host.deliver policy (Host.PeerSignal p id) w
      = if socket_connected sock
        then (Normal tt,
              Host.set_sockets
                (<[s := socket_with_sent
                          (JSON_stringify (AddToRoomRequest id (peer_guest x)))
                          sock]>
                   (Host.sockets w)) w)
        else (Throw NotConnected, w).
Proof.
  intros w Hx. pose proof (Host_wired_reachable server evs) as Hw. fold w in Hw.
  destruct Hw as (Hsock & Hsome & Hwired).
  destruct (Hwired p x Hx) as (request & _ & _ & _ & _ & Hsig & Hcon).
  assert (Hne : Host.sockets w ≠ []).
  { apply Hsome. intros Hnil. by rewrite Hnil in Hx. }
  unfold newest in Hsock.
  destruct (length (Host.sockets w)) as [|s] eqn:Hlen;
    [by destruct (Host.sockets w)|].
  destruct (Host.sockets w !! s) as [sock|] eqn:Hs;
    [|apply lookup_ge_None in Hs; lia].
  exists s, sock. split; [done|]. split; [done|]. split; [done|].
  unfold peer_guest. rewrite Hcon.
  by apply (Host_signal_run w p x request s sock id).
Qed.

(** X10.  In every state a Host reaches from its construction, each peer
    is an answering peer without trickle that has the two listeners of
    [registerGuest] for the request it was made for and was given no
    description but the offer of that request: exactly that one when the
    offer is a signalling descriptor, and none when it is not, in which
    case the peer is destroyed.  No call and no event signals a peer of
    the Host again. *)
Theorem guest_peer_is_fed_its_offer_once server (evs : list Host.Event) p x :
  let w := Host.run policy evs (Host.new server) in
  Host.peers w !! p = Some x →
  initiator x = false ∧ trickle x = false
  ∧ ∃ request,
      signalled x
      = (if is_descriptor (offer request) then [offer request] else [])
      ∧ (is_descriptor (offer request) = false → destroyed x = true)
      ∧ on_connect x = [Host.Register request p]
      ∧ on_signal x = [Host.SendAnswer request].
Proof.
  intros w Hx. pose proof (Host_wired_reachable server evs) as Hw. fold w in Hw.
  destruct Hw as (_ & _ & Hwired).
  destruct (Hwired p x Hx) as (request & ? & ? & ? & ? & ? & ?).
  repeat split; try done. by exists request.
Qed.

(** ** More of the Client: the promise jobs and the bookkeeping *)

Lemma signal_all_listeners {PS PC PD} (l : list string) (x : Peer PS PC PD) :
  on_data (signal_all l x) = on_data x
  ∧ on_connect (signal_all l x) = on_connect x
  ∧ on_signal (signal_all l x) = on_signal x.
Proof.
  unfold signal_all. revert x. induction l as [|a l IH]; intros x; [done|].
  simpl. destruct (IH (Peer_signal a x).2) as (-> & -> & ->).
  apply Peer_signal_listeners.
Qed.

Lemma signal_all_unconnected {PS PC PD} (l : list string) (x : Peer PS PC PD) :
  connected x = false → connected (signal_all l x) = false.
Proof.
  unfold signal_all. revert x. induction l as [|a l IH]; intros x Hc; [done|].
  simpl. apply IH. unfold Peer_signal.
  by destruct (destroyed x), (is_descriptor a).
Qed.

Lemma signal_all_destroyed {PS PC PD} (l : list string) (x : Peer PS PC PD) :
  destroyed x = true → signal_all l x = x.
Proof.
  unfold signal_all. revert x. induction l as [|a l IH]; intros x Hd; [done|].
  simpl. unfold Peer_signal at 2. rewrite Hd. simpl. by apply IH.
Qed.

Lemma signal_all_descriptors {PS PC PD} (l : list string) (x : Peer PS PC PD) :
  Forall (λ d, is_descriptor d = true) l →
  destroyed x = false →
  signal_all l x = with_signalled l x.
Proof.
  unfold signal_all. revert x. induction l as [|a l IH]; intros x Hl Hd.
  - unfold with_signalled. simpl. rewrite app_nil_r. by destruct x.
  - apply Forall_cons in Hl as [Ha Hl]. simpl.
    unfold Peer_signal at 2. rewrite Hd, Ha. simpl.
    rewrite IH by done. unfold with_signalled. simpl.
    by rewrite <-app_assoc, Hd.
Qed.

Lemma signal_all_other {PS PC PD} (d : string) n (x : Peer PS PC PD) :
  is_descriptor d = false →
  destroyed x = false →
  signal_all (replicate (S n) d) x = Peer_destroy x.
Proof.
  intros Hd Hx. unfold signal_all. simpl.
  unfold Peer_signal at 2. rewrite Hx, Hd. simpl.
  by apply (signal_all_destroyed (replicate n d) (Peer_destroy x)).
Qed.

Lemma Client_reactions_run (l : list string) (w : Client.World) :
  foldl (λ w answer, exec (Client.run_reaction answer) w) w l
  = match Client.peer w with
    | Some p =>
        Client.set_peers (alter (signal_all l) p (Client.peers w)) w
    | None => w
    end.
Proof.
  revert w. induction l as [|a l IH]; intros w.
  - simpl. destruct (Client.peer w); [|done].
    rewrite list_alter_id; [by destruct w|done].
  - simpl. rewrite IH. unfold Client.run_reaction, Client.this_peer. js.
    destruct (Client.peer w) as [p|] eqn:Hp; simpl; [|by rewrite Hp].
    rewrite Client_peer_signal_exec. simpl. rewrite Hp.
    unfold Client.set_peers. simpl. f_equal.
    by rewrite list_alter_alter_eq.
Qed.

Lemma Client_drain_run (w : Client.World) :
  Client.drain w
  = match Client.peer w with
    | Some p =>
        Client.set_peers
          (alter (signal_all (Client.jobs w)) p (Client.peers w))
          (Client.set_jobs [] w)
    | None => Client.set_jobs [] w
    end.
Proof. unfold Client.drain. by rewrite Client_reactions_run. Qed.

Lemma Client_drain_idle (w : Client.World) :
  Client.jobs w = [] → Client.drain w = w.
Proof.
  intros Hjobs. rewrite Client_drain_run, Hjobs.
  assert (Hsame : Client.set_jobs [] w = w).
  { rewrite <-Hjobs. by destruct w. }
  destruct (Client.peer w); [|done]. rewrite Hsame.
  rewrite list_alter_id; [by destruct w|done].
Qed.

Lemma Client_drain_shape (w : Client.World) :
  Client_shape (Client.drain w) = Client_shape w
  ∧ Client.jobs (Client.drain w) = [].
Proof.
  rewrite Client_drain_run. unfold Client_shape.
  destruct (Client.peer w) eqn:Hp; simpl; by rewrite ?length_alter, ?Hp.
Qed.

Lemma Client_peer_send_shape (w : Client.World) p chunk :
  Client_shape (Client.peer_send p chunk w).2 = Client_shape w.
Proof.
  unfold Client.peer_send. destruct (Client.peers w !! p); [|done].
  unfold Client_shape. simpl. by rewrite length_insert.
Qed.

Lemma Client_socket_send_run (chunk : string) (w : Client.World) :
  Client.socket_send chunk w
  = if socket_connected (Client.socket w)
    then (Normal tt,
          Client.set_socket (socket_with_sent chunk (Client.socket w)) w)
    else (Throw NotConnected, w).
Proof.
  unfold Client.socket_send, Socket_send, socket_with_sent.
  destruct (socket_connected (Client.socket w)) eqn:Hc; simpl; rewrite ?Hc;
    [done|by destruct w].
Qed.

Lemma Client_shape_step (w : Client.World) (ev : Client.Event) :
  match ev with
  | Client.CallJoinRoom _ | Client.SocketData _ => False
  | _ => True
  end →
  Client_shape (Client.step policy w ev) = Client_shape w.
Proof.
  intros Hev. unfold Client.step.
  destruct (Client_drain_shape (exec (Client.deliver policy ev) w)) as [-> _].
  destruct ev; try done; unfold exec.
  - simpl. unfold Client.leaveRoom, Client.this_peer. js.
    destruct (Client.peer w) eqn:Hp; simpl; [|done].
    unfold Client_shape. simpl. by rewrite length_alter, Hp.
  - simpl. unfold Client.send, Client.this_peer. js.
    destruct (Client.peer w); simpl; [|done]. apply Client_peer_send_shape.
  - simpl. unfold Client.peer_listeners. js.
    apply (emit_preserves Client_shape). intros [room] w' _.
    unfold Client.run_OnPeerSignal. rewrite Client_socket_send_run.
    by destruct (socket_connected (Client.socket w')).
  - rewrite Client_connect_deliver. rewrite (emit_preserves Client_shape).
    + unfold Client_shape. simpl. by rewrite length_alter.
    + intros [j] w' _. rewrite run_OnPeerConnect_run.
      destruct (Client.peer w') eqn:Hp; [|done].
      destruct (Client.onMessageReceived w'); [|done].
      unfold Client_shape. simpl. by rewrite length_alter, Hp.
  - by rewrite Client_peer_data_run.
  - simpl. js. unfold Client_shape. simpl. by rewrite length_alter.
Qed.

Lemma Client_inv_new server : Client_inv (Client.new server).
Proof. by repeat split. Qed.

Lemma Client_inv_shape (w w' : Client.World) :
  Client_shape w' = Client_shape w → Client.jobs w' = [] →
  Client_inv w → Client_inv w'.
Proof.
  unfold Client_shape, Client_inv.
  intros [= Hp Hn Hr Hre Hd Hx] Hj (_ & Hpeer & Hreact & Hdata & Hdestroyed).
  rewrite Hp, Hr, Hre, Hd, Hx, Hn. split; [done|].
  split; [rewrite Hpeer; symmetry; by apply newest_length|done].
Qed.

Lemma Client_data_exec (w : Client.World) (data : BufferSource) :
  socket_on_data (Client.socket w) = [Client.HandleResponse] →
  exec (Client.deliver policy (Client.SocketData data)) w
  = match JSON_parse (TextDecoder_decode data) with
    | Some decoded =>
        if decide (type decoded = RoomJoined) then
          match promise (Client.roomJoined w) with
          | None =>
              Client.set_jobs
                (Client.jobs w ++ replicate (Client.reactions w) (answer decoded))
                (Client.set_roomJoined {| promise := Some (answer decoded) |} w)
          | Some _ => w
          end
        else w
    | None => w
    end.
Proof.
  intros Hls. unfold Client.deliver. js. rewrite Hls. simpl. js.
  destruct (JSON_parse (TextDecoder_decode data)) as [decoded|]; [|done].
  destruct (decide (type decoded = RoomJoined)).
  - unfold Client.resolve_roomJoined, ManagedPromise_resolve. simpl.
    destruct (promise (Client.roomJoined w)) eqn:Hp; simpl.
    + destruct policy; simpl; by destruct w.
    + done.
  - by destruct (decide (type decoded = RequestAccepted)).
Qed.

Lemma Client_inv_drain (w : Client.World) :
  Client.peer w = newest (Client.peers w) →
  (promise (Client.roomJoined w) = None →
   Client.reactions w = length (Client.peers w)) →
  socket_on_data (Client.socket w) = [Client.HandleResponse] →
  socket_destroyed (Client.socket w) = false →
  Client_inv (Client.drain w).
Proof.
  intros Hpeer Hreact Hdata Hdestroyed.
  destruct (Client_drain_shape w) as [Hshape Hjobs].
  injection Hshape as Hp Hn Hr Hre Hd Hx. unfold Client_inv.
  rewrite Hp, Hr, Hre, Hd, Hx, Hn. split; [done|].
  split; [rewrite Hpeer; symmetry; by apply newest_length|done].
Qed.

Lemma Client_inv_step (w : Client.World) (ev : Client.Event) :
  Client_inv w → Client_inv (Client.step policy w ev).
Proof.
  intros Hw.
  assert (Hcase : match ev with
                  | Client.CallJoinRoom _ | Client.SocketData _ => False
                  | _ => True
                  end
                  ∨ (∃ room, ev = Client.CallJoinRoom room)
                  ∨ ∃ data, ev = Client.SocketData data).
  { destruct ev; try (by left); right; [left|right]; by eexists. }
  destruct Hcase as [Hev|[[room ->]|[data ->]]].
  - apply (Client_inv_shape w); [by apply Client_shape_step| |done].
    apply Client_drain_shape.
  - destruct Hw as (_ & Hpeer & Hreact & Hdata & Hdestroyed).
    unfold Client.step, exec, Client.deliver, mbind, JS_mbind, JS_bind.
    rewrite joinRoom_run.
    apply Client_inv_drain; simpl; [| |done|done].
    + unfold newest. rewrite length_app. simpl.
      by replace (length (Client.peers w) + 1) with (S (length (Client.peers w)))
        by lia.
    + rewrite length_app. simpl.
      destruct (promise (Client.roomJoined w)); [done|].
      intros _. rewrite Hreact by done. lia.
  - pose proof Hw as (_ & Hpeer & Hreact & Hdata & Hdestroyed).
    unfold Client.step. rewrite Client_data_exec by done.
    assert (Hsame : Client_inv (Client.drain w)) by (by apply Client_inv_drain).
    destruct (JSON_parse (TextDecoder_decode data)) as [decoded|]; [|done].
    destruct (decide (type decoded = RoomJoined)); [|done].
    destruct (promise (Client.roomJoined w)) eqn:Hprom; [done|].
    by apply Client_inv_drain.
Qed.

Lemma Client_inv_reachable server (evs : list Client.Event) :
  Client_inv (Client.run policy evs (Client.new server)).
Proof.
  pose proof (Client_inv_new server) as Hnew. revert Hnew.
  generalize (Client.new server).
  induction evs as [|ev evs IH]; intros w Hw; [done|].
  apply IH. by apply Client_inv_step.
Qed.

(** X11.  Nothing a Client does closes its relay socket or changes who
    listens on it: in every state a Client reaches from its construction,
    [leaveRoom] included, the socket is not destroyed and has the one
    ['data'] listener of [registerEvents]; and [this.peer] is the peer made
    by the last [joinRoom]. *)
Theorem Client_relay_socket_stays_open server (evs : list Client.Event) :
  let w := Client.run policy evs (Client.new server) in
  socket_destroyed (Client.socket w) = false
  ∧ socket_on_data (Client.socket w) = [Client.HandleResponse]
  ∧ Client.peer w = newest (Client.peers w).
Proof.
  intros w. by destruct (Client_inv_reachable server evs) as (_ & ? & _ & ? & ?).
Qed.

(** X12.  The reaction to the answer reads [this.peer] when it runs.  In a
    state a Client reaches from its construction with [this.roomJoined]
    unresolved, a RoomJoined message resolves it with the answer of the
    message, and each [joinRoom] made so far signals that answer to the
    peer made last: [signal] is called on that peer with the answer once
    for every peer made, and the other peers are given nothing.  When the
    answer is a signalling descriptor and the peer is not destroyed, the
    peer is given the answer that many times; when the answer is none, the
    first call destroys the peer. *)
Theorem answer_signals_the_newest_peer server (evs : list Client.Event)
    (data : BufferSource) decoded :
  let w := Client.run policy evs (Client.new server) in
  let w' := Client.step policy w (Client.SocketData data) in
  let answers := replicate (length (Client.peers w)) (answer decoded) in
  JSON_parse (TextDecoder_decode data) = Some decoded →
  type decoded = RoomJoined →
  promise (Client.roomJoined w) = None →
  promise (Client.roomJoined w') = Some (answer decoded)
  ∧ length (Client.peers w') = length (Client.peers w)
  ∧ (∀ p x, Client.peers w !! p = Some x →
       Client.peers w' !! p
       = Some (if decide (S p = length (Client.peers w))
               then signal_all answers x else x))
  ∧ (∀ x : Peer Client.OnPeerSignal Client.OnPeerConnect Client.OnPeerData,
       destroyed x = false →
       signal_all answers x
       = if is_descriptor (answer decoded) then with_signalled answers x
         else if decide (Client.peers w = []) then x else Peer_destroy x).
Proof.
  intros w w' answers Hparse Htype Hnone.
  pose proof (Client_inv_reachable server evs) as Hinv. fold w in Hinv.
  destruct Hinv as (Hjobs & Hpeer & Hreact & Hdata & _).
  assert (Hw' : w' = Client.drain
                       (Client.set_jobs answers
                          (Client.set_roomJoined
                             {| promise := Some (answer decoded) |} w))).
  { unfold w', Client.step. rewrite Client_data_exec by done.
    rewrite Hparse, decide_True by done. by rewrite Hnone, Hjobs, Hreact. }
  rewrite Client_drain_run in Hw'. simpl in Hw'. rewrite Hpeer in Hw'.
  unfold newest in Hw'. split; [|split; [|split]].
  - rewrite Hw'. by destruct (length (Client.peers w)).
  - rewrite Hw'. destruct (length (Client.peers w)) eqn:Hlen; simpl;
      by rewrite ?length_alter.
  - intros p x Hx. rewrite Hw'. apply lookup_lt_Some in Hx as Hlt.
    destruct (length (Client.peers w)) as [|n] eqn:Hlen; [lia|]. simpl.
    destruct (decide (S p = S n)) as [[= ->]|Hne].
    + by rewrite list_lookup_alter_eq, Hx.
    + rewrite list_lookup_alter_ne by congruence. done.
  - intros x Hd. destruct (is_descriptor (answer decoded)) eqn:Ha.
    + apply signal_all_descriptors; [|done]. unfold answers.
      apply Forall_forall. by intros d [-> _]%elem_of_replicate.
    + unfold answers. destruct (Client.peers w) as [|x0 l]; [done|].
      rewrite decide_False by done. simpl length.
      by apply signal_all_other.
Qed.

(** X13.  A [joinRoom] made when [this.roomJoined] holds an answer calls
    [signal] with that stored answer on the peer it makes, as soon as the
    call has returned and before any event: when the answer is a
    signalling descriptor the new peer starts with the answer of an
    earlier handshake, and when it is none the new peer is destroyed. *)
Theorem joinRoom_after_the_answer_reuses_it server (evs : list Client.Event)
    (room : string) stored :
  let w := Client.run policy evs (Client.new server) in
  let w' := Client.step policy w (Client.CallJoinRoom room) in
  let fresh := Peer_on_connect (Client.Connected (length (Client.timed w)))
                 (Peer_on_signal (Client.SendOffer room) (Peer_new true false)) in
  promise (Client.roomJoined w) = Some stored →
  Client.peer w' = Some (length (Client.peers w))
  ∧ Client.peers w'
    = (Client.peers w
       ++ [if is_descriptor stored then with_signalled [stored] fresh
           else Peer_destroy fresh])%list.
Proof.
  intros w w' fresh Hstored.
  pose proof (Client_inv_reachable server evs) as Hinv. fold w in Hinv.
  destruct Hinv as (Hjobs & _).
  unfold w', Client.step. rewrite Client_drain_run.
  unfold exec, Client.deliver, mbind, JS_mbind, JS_bind.
  rewrite joinRoom_run. simpl. rewrite Hstored, Hjobs. simpl.
  split; [done|]. rewrite alter_snoc. f_equal. f_equal.
  unfold signal_all, Peer_signal. simpl. by destruct (is_descriptor stored).
Qed.

(** ** More of the Client: the listeners of its peers *)

Lemma Client_step_signal_listeners (w : Client.World) (ev : Client.Event) :
  on_signal <$> Client.peers (Client.step policy w ev)
  = match ev with
    | Client.CallJoinRoom room =>
        ((on_signal <$> Client.peers w) ++ [[Client.SendOffer room]])%list
    | _ => on_signal <$> Client.peers w
    end.
Proof.
  set (view := λ w : Client.World, on_signal <$> Client.peers w).
  change (view (Client.step policy w ev)
          = match ev with
            | Client.CallJoinRoom room =>
                (view w ++ [[Client.SendOffer room]])%list
            | _ => view w
            end).
  assert (Halter : ∀ f p w',
            (∀ x, on_signal (f x) = on_signal x) →
            view (Client.set_peers (alter f p (Client.peers w')) w') = view w').
  { intros f p w' Hf. unfold view. simpl. by rewrite fmap_alter_same. }
  assert (Hdrain : ∀ w', view (Client.drain w') = view w').
  { intros w'. rewrite Client_drain_run.
    destruct (Client.peer w'); [|done].
    unfold view. simpl. rewrite fmap_alter_same; [done|].
    intros x. apply signal_all_listeners. }
  unfold Client.step. rewrite Hdrain. destruct ev; unfold exec.
  - simpl. unfold Client.leaveRoom, Client.this_peer. js.
    destruct (Client.peer w); simpl; [|done]. by apply Halter.
  - done.
  - unfold Client.deliver, mbind, JS_mbind, JS_bind. rewrite joinRoom_run.
    unfold view. simpl. by rewrite fmap_app.
  - simpl. unfold Client.send, Client.this_peer, Client.peer_send. js.
    destruct (Client.peer w) as [p|]; simpl; [|done].
    destruct (Client.peers w !! p) as [x|] eqn:Hx; simpl; [|done].
    unfold view. simpl. rewrite list_fmap_insert.
    replace (on_signal (Peer_send (JSON_stringify message) x).2)
      with (on_signal x) by (unfold Peer_send; by destruct (connected x)).
    apply list_insert_id. by rewrite list_lookup_fmap, Hx.
  - simpl. js. apply (emit_preserves view).
    intros [] w' _. unfold Client.run_OnSocketData.
    destruct (JSON_parse (TextDecoder_decode data)) as [decoded|]; [|done].
    destruct (decide (type decoded = RoomJoined)).
    { unfold Client.resolve_roomJoined. simpl.
      by destruct (promise (Client.roomJoined w')). }
    by destruct (decide (type decoded = RequestAccepted)).
  - simpl. unfold Client.peer_listeners. js.
    apply (emit_preserves view). by intros [room] w' _.
  - rewrite Client_connect_deliver. rewrite (emit_preserves view).
    + by apply Halter.
    + intros [j] w' _. rewrite run_OnPeerConnect_run.
      destruct (Client.peer w'); [|done].
      destruct (Client.onMessageReceived w'); [|done].
      unfold view. simpl. by rewrite fmap_alter_same.
  - by rewrite Client_peer_data_run.
  - done.
  - done.
  - done.
  - simpl. js. by apply Halter.
Qed.

Lemma Client_run_signal_listeners (evs : list Client.Event) (w : Client.World)
    p l :
  (on_signal <$> Client.peers w) !! p = Some l →
  (on_signal <$> Client.peers (Client.run policy evs w)) !! p = Some l.
Proof.
  revert w. induction evs as [|ev evs IH]; intros w Hp; [done|].
  apply IH. rewrite Client_step_signal_listeners.
  destruct ev; try done. by apply lookup_app_l_Some.
Qed.

(** X14.  The ['signal'] listener of a peer keeps the room of its own
    [joinRoom].  Whatever state the Client is in when [joinRoom] is called,
    and whatever calls and events follow, later [joinRoom] calls with other
    rooms included, a ['signal'] event of the peer made by that call gives
    to [send] of the relay socket a [JoinRoomRequest] with that room and
    the serialised signal as offer.  When the socket is connected the
    request goes out and nothing else changes; while the socket is still
    connecting [send] throws and nothing changes, so the offer is lost. *)
Theorem offer_names_the_room_of_its_joinRoom (w : Client.World) (room : string)
    (evs : list Client.Event) (id : string) :
  let p := length (Client.peers w) in
  let w' := Client.run policy evs (Client.step policy w (Client.CallJoinRoom room)) in
  Client.deliver policy (Client.PeerSignal p id) w'
  = if socket_connected (Client.socket w')
    then (Normal tt,
          Client.set_socket
            (socket_with_sent
               (JSON_stringify (JoinRoomRequest (JSON_stringify id) room))
               (Client.socket w')) w')
    else (Throw NotConnected, w').
Proof.
  intros p w'.
  assert (Hl : (on_signal <$> Client.peers w') !! p = Some [Client.SendOffer room]).
  { apply Client_run_signal_listeners. rewrite Client_step_signal_listeners.
    rewrite lookup_app_r by (by rewrite length_fmap).
    subst p. by rewrite length_fmap, Nat.sub_diag. }
  clearbody w'. rewrite list_lookup_fmap in Hl.
  unfold Client.deliver, Client.peer_listeners. js.
  destruct (Client.peers w' !! p) as [x|]; [|done].
  injection Hl as Hl. simpl. rewrite Hl.
  cbn [emit]. unfold mbind, JS_mbind, JS_bind, Client.run_OnPeerSignal.
  rewrite Client_socket_send_run.
  by destruct (socket_connected (Client.socket w')).
Qed.

Lemma Client_connect_exec (w : Client.World) p x q k :
  Client.peers w !! p = Some x →
  on_connect x = [Client.Connected k] →
  Client.peer w = Some q →
  Client.deliver policy (Client.PeerConnect p) w
  = match Client.onMessageReceived w with
    | Some cb =>
        (Normal tt,
         Client.set_timed (alter TimedPromise_resolve k (Client.timed w))
           (Client.set_peers
              (alter (Peer_on_data (Client.Listener cb)) q
                 (alter Peer_open p (Client.peers w)))
              (Client.set_console (Client.console w ++ ["connected"]) w)))
    | None =>
        (Throw (TypeError "The listener argument must be of type function"),
         Client.set_peers (alter Peer_open p (Client.peers w))
           (Client.set_console (Client.console w ++ ["connected"]) w))
    end.
Proof.
  intros Hp Hl Hq. rewrite Client_connect_deliver, Hp. cbn [from_option].
  rewrite Hl. cbn [emit]. unfold mbind, JS_mbind, JS_bind.
  rewrite run_OnPeerConnect_run. simpl. rewrite Hq.
  by destruct (Client.onMessageReceived w).
Qed.

(** X15.  The time-out of [joinRoom] cancels nothing.  When the promise of
    a [joinRoom] is settled already, rejected by its timer for one, and no
    promise job is pending, the ['connect'] event of [this.peer] leaves
    the promise as it is settled, still logs and leaves the Client in its
    Connected state.  With a message callback set the listener attaches
    it as ['data'] listener and returns; with none set it throws where it
    would attach it, and the peer gets no ['data'] listener. *)
Theorem connect_after_settlement_still_connects (w : Client.World) p x k tp s :
  let w' := Client.step policy w (Client.PeerConnect p) in
  Client.jobs w = [] →
  Client.peer w = Some p →
  Client.peers w !! p = Some x →
  on_connect x = [Client.Connected k] →
  Client.timed w !! k = Some tp →
  settlement tp = Some s →
  Client.timed w' !! k = Some tp
  ∧ Client_Connected w' = true
  ∧ on_data <$> Client.peers w' !! p
    = Some (on_data x
            ++ match Client.onMessageReceived w with
               | Some cb => [Client.Listener cb]
               | None => []
               end)%list
  ∧ Client.console w' = (Client.console w ++ ["connected"])%list
  ∧ completion (Client.deliver policy (Client.PeerConnect p)) w
    = match Client.onMessageReceived w with
      | Some _ => Normal tt
      | None =>
          Throw (TypeError "The listener argument must be of type function")
      end.
Proof.
  intros w' Hjobs Hpeer Hx Hl Hk Hs.
  assert (Hw' : w' = Client.drain
                       (Client.deliver policy (Client.PeerConnect p) w).2) by done.
  clearbody w'. unfold completion.
  rewrite (Client_connect_exec w p x p k Hx Hl Hpeer) in Hw' |- *.
  destruct (Client.onMessageReceived w) as [cb|].
  - rewrite Client_drain_idle in Hw' by done.
    rewrite Hw'. unfold Client_Connected. simpl.
    rewrite !list_lookup_alter_eq, Hx, Hk. simpl.
    unfold TimedPromise_resolve. rewrite Hs, Hpeer.
    by rewrite !list_lookup_alter_eq, Hx.
  - rewrite Client_drain_idle in Hw' by done.
    rewrite Hw'. unfold Client_Connected. simpl.
    rewrite !list_lookup_alter_eq, Hx, Hk, Hpeer. simpl.
    by rewrite !list_lookup_alter_eq, Hx, app_nil_r.
Qed.

Lemma Client_drain_links (w : Client.World) :
  Client.jobs w = [] → Client_links (Client.drain w) = Client_links w.
Proof. intros Hjobs. by rewrite Client_drain_idle. Qed.

Lemma Client_joinRoom_links (w : Client.World) (room : string) :
  Client_links (Client.step policy w (Client.CallJoinRoom room))
  = (Some (length (Client.peers w)),
     (((λ x, (connected x, on_connect x, on_data x)) <$> Client.peers w)
      ++ [(false, [Client.Connected (length (Client.timed w))], [])])%list,
     (Client.timed w ++ [TimedPromise_new (Client.now w) (30 * 1000)])%list,
     Client.onMessageReceived w).
Proof.
  unfold Client.step. rewrite Client_drain_run.
  unfold exec, Client.deliver, mbind, JS_mbind, JS_bind.
  rewrite joinRoom_run. unfold Client_links. simpl.
  rewrite alter_snoc, fmap_app. simpl. do 3 f_equal.
  match goal with |- context [signal_all ?l ?x] =>
    destruct (signal_all_listeners l x) as (-> & -> & _);
    by rewrite (signal_all_unconnected l x)
  end.
Qed.

Lemma Client_connect_links (w : Client.World) p q k c d :
  Client.jobs w = [] →
  ((λ x, (connected x, on_connect x, on_data x)) <$> Client.peers w) !! p
  = Some (c, [Client.Connected k], d) →
  Client.peer w = Some q →
  Client_links (Client.step policy w (Client.PeerConnect p))
  = (Some q,
     match Client.onMessageReceived w with
     | Some cb =>
         alter (λ sh, (sh.1.1, sh.1.2, sh.2 ++ [Client.Listener cb])%list) q
     | None => id
     end
       (alter (λ sh, (true, sh.1.2, sh.2)) p
          ((λ x, (connected x, on_connect x, on_data x)) <$> Client.peers w)),
     match Client.onMessageReceived w with
     | Some _ => alter TimedPromise_resolve k (Client.timed w)
     | None => Client.timed w
     end,
     Client.onMessageReceived w).
Proof.
  intros Hjobs Hp Hq. rewrite list_lookup_fmap in Hp.
  destruct (Client.peers w !! p) as [x|] eqn:Hx; [|done].
  injection Hp as _ Hl _.
  unfold Client.step, exec.
  rewrite (Client_connect_exec w p x q k Hx Hl Hq).
  destruct (Client.onMessageReceived w) as [cb|] eqn:Hcb.
  - rewrite Client_drain_links by done.
    unfold Client_links. simpl. rewrite Hq, Hcb. do 2 f_equal.
    rewrite (list_fmap_alter _ _
               (λ sh, (sh.1.1, sh.1.2, sh.2 ++ [Client.Listener cb])%list))
      by (by apply Forall_forall).
    by rewrite (list_fmap_alter _ Peer_open (λ sh, (true, sh.1.2, sh.2)))
      by (by apply Forall_forall).
  - rewrite Client_drain_links by done.
    unfold Client_links. simpl. rewrite Hq, Hcb. do 2 f_equal.
    by rewrite (list_fmap_alter _ Peer_open (λ sh, (true, sh.1.2, sh.2)))
      by (by apply Forall_forall).
Qed.

(** X16.  The ['connect'] listener reads [this.peer] and
    [this.onMessageReceived] when it runs.  After two [joinRoom] calls,
    the ['connect'] event of the peer of the first call opens that peer;
    with a message callback set it attaches the ['data'] listener to the
    peer of the second call and fulfils the promise of the first call, so
    that the peer that is connected has no ['data'] listener; with none
    set the listener throws where it would attach it, no peer gets a
    ['data'] listener and the promise of the first call stays pending.
    Either way [this.peer] is not connected and the promise of the second
    call is still pending. *)
Theorem connect_of_an_older_peer_attaches_to_the_newest (w : Client.World)
    (room1 room2 : string) :
  let p := length (Client.peers w) in
  let k := length (Client.timed w) in
  let w2 := Client.step policy (Client.step policy w (Client.CallJoinRoom room1))
              (Client.CallJoinRoom room2) in
  let w3 := Client.step policy w2 (Client.PeerConnect p) in
  Client.peer w3 = Some (S p)
  ∧ (λ x, (connected x, on_data x)) <$> Client.peers w3 !! p = Some (true, [])
  ∧ (λ x, (connected x, on_data x)) <$> Client.peers w3 !! S p
    = Some (false,
            match Client.onMessageReceived w with
            | Some cb => [Client.Listener cb]
            | None => []
            end)
  ∧ settlement <$> Client.timed w3 !! k
    = Some (match Client.onMessageReceived w with
            | Some _ => Some Fulfilled
            | None => None
            end)
  ∧ settlement <$> Client.timed w3 !! S k = Some None.
Proof.
  intros p k w2 w3. subst w2 w3.
  assert (Hpdef : p = length (Client.peers w)) by done.
  assert (Hkdef : k = length (Client.timed w)) by done.
  clearbody p k.
  pose proof (Client_joinRoom_links w room1) as H1.
  rewrite <-Hpdef, <-Hkdef in H1.
  remember (Client.step policy w (Client.CallJoinRoom room1)) as w1 eqn:E1.
  clear E1. apply tuple4_eq in H1 as (_ & Hs1 & Ht1 & Hc1).
  assert (Hlen1 : length (Client.peers w1) = S p).
  { rewrite <-(length_fmap (λ x, (connected x, on_connect x, on_data x))), Hs1.
    rewrite length_app, length_fmap. simpl. lia. }
  assert (Hlen1' : length (Client.timed w1) = S k).
  { rewrite Ht1, length_app. simpl. lia. }
  pose proof (Client_joinRoom_links w1 room2) as H2.
  assert (Hj2 : Client.jobs (Client.step policy w1 (Client.CallJoinRoom room2))
                = []) by apply Client_drain_shape.
  remember (Client.step policy w1 (Client.CallJoinRoom room2)) as w2 eqn:E2.
  clear E2. rewrite Hlen1, Hlen1', Hs1, Ht1, Hc1 in H2.
  apply tuple4_eq in H2 as (Hp2 & Hs2 & Ht2 & Hc2).
  assert (Hlen : length ((λ x, (connected x, on_connect x, on_data x))
                         <$> Client.peers w) = p) by (rewrite length_fmap; lia).
  assert (Hx1 : ((λ x, (connected x, on_connect x, on_data x)) <$> Client.peers w2)
                !! p = Some (false, [Client.Connected k], [])).
  { rewrite Hs2. rewrite lookup_app_l by (rewrite length_app; simpl; lia).
    rewrite lookup_app_r by lia. by rewrite Hlen, Nat.sub_diag. }
  pose proof (Client_connect_links w2 p (S p) k false [] Hj2 Hx1 Hp2) as H3.
  remember (Client.step policy w2 (Client.PeerConnect p)) as w3 eqn:E3.
  clear E3. rewrite Hs2, Ht2, Hc2 in H3.
  apply tuple4_eq in H3 as (Hp3 & Hs3 & Ht3 & _).
  split; [done|].
  assert (Hpeers : ∀ q,
            (λ x, (connected x, on_data x)) <$> Client.peers w3 !! q
            = (λ sh : bool * list Client.OnPeerConnect * list Client.OnPeerData,
                 (sh.1.1, sh.2))
              <$> ((λ x, (connected x, on_connect x, on_data x))
                   <$> Client.peers w3) !! q).
  { intros q. rewrite list_lookup_fmap. by destruct (Client.peers w3 !! q). }
  rewrite !Hpeers, Hs3, Ht3. clear Hpeers Hs3 Ht3 Hx1.
  destruct (Client.onMessageReceived w) as [cb|].
  - rewrite list_lookup_alter_ne by lia. rewrite !list_lookup_alter_eq.
    rewrite !list_lookup_alter_ne by lia.
    rewrite (lookup_app_l _ _ p) by (rewrite length_app; simpl; lia).
    rewrite (lookup_app_r _ _ p) by lia.
    rewrite (lookup_app_r _ _ (S p)) by (rewrite length_app; simpl; lia).
    rewrite length_app, Hlen. simpl.
    replace (S p - (p + 1)) with 0 by lia. rewrite Nat.sub_diag. simpl.
    split; [done|]. split; [done|].
    rewrite (lookup_app_l _ _ k) by (rewrite length_app; simpl; lia).
    rewrite (lookup_app_r _ _ k) by (lia).
    rewrite (lookup_app_r _ _ (S k)) by (rewrite length_app; simpl; lia).
    rewrite length_app, <-Hkdef. simpl.
    replace (S k - (k + 1)) with 0 by lia.
    by rewrite Nat.sub_diag.
  - unfold id. rewrite !list_lookup_alter_eq.
    rewrite !list_lookup_alter_ne by lia.
    rewrite (lookup_app_l _ _ p) by (rewrite length_app; simpl; lia).
    rewrite (lookup_app_r _ _ p) by lia.
    rewrite (lookup_app_r _ _ (S p)) by (rewrite length_app; simpl; lia).
    rewrite length_app, Hlen. simpl.
    replace (S p - (p + 1)) with 0 by lia. rewrite Nat.sub_diag. simpl.
    split; [done|]. split; [done|].
    rewrite (lookup_app_l _ _ k) by (rewrite length_app; simpl; lia).
    rewrite (lookup_app_r _ _ k) by (lia).
    rewrite (lookup_app_r _ _ (S k)) by (rewrite length_app; simpl; lia).
    rewrite length_app, <-Hkdef. simpl.
    replace (S k - (k + 1)) with 0 by lia.
    by rewrite Nat.sub_diag.
Qed.

(** X17.  [leaveRoom] destroys [this.peer] and nothing else.  In a state a
    Client reaches from its construction: with no [joinRoom] made it
    throws and changes nothing; otherwise the peer made last is destroyed
    and the peers of earlier [joinRoom] calls are as they were, so
    they are not destroyed by it.  Afterwards the Client is not Connected
    and [send] fails without any effect. *)
Theorem leaveRoom_destroys_the_newest_peer_only server (evs : list Client.Event) :
  let w := Client.run policy evs (Client.new server) in
  let w' := Client.step policy w Client.CallLeaveRoom in
  (Client.peers w = [] →
   Client.leaveRoom w = (Throw (TypeError "this.peer is undefined"), w))
  ∧ (∀ p x, Client.peers w !! p = Some x →
       Client.peers w' !! p
       = Some (if decide (S p = length (Client.peers w))
               then Peer_destroy x else x))
  ∧ Client_Connected w' = false
  ∧ ∀ T (message : T), ∃ e, Client.send message w' = (Throw e, w').
Proof.
  intros w w'.
  pose proof (Client_inv_reachable server evs) as Hinv. fold w in Hinv.
  assert (Hstep : w' = Client.step policy w Client.CallLeaveRoom) by done.
  clearbody w'. clearbody w.
  pose proof (Client_inv_step w Client.CallLeaveRoom Hinv) as Hinv'.
  rewrite <-Hstep in Hinv'.
  destruct Hinv as (Hjobs & Hpeer & _). destruct Hinv' as (_ & Hpeer' & _).
  assert (Hw' : Client.peers w'
                = match newest (Client.peers w) with
                  | Some p => alter Peer_destroy p (Client.peers w)
                  | None => Client.peers w
                  end).
  { rewrite Hstep. unfold Client.step. rewrite Client_drain_run.
    unfold Client.deliver, Client.leaveRoom, Client.this_peer. js.
    rewrite <-Hpeer. destruct (Client.peer w) as [p|] eqn:Hp; simpl;
      rewrite Hp; [|done].
    simpl. rewrite Hjobs. by rewrite list_alter_alter_eq. }
  clear Hstep.
  assert (Hlook : ∀ p x, Client.peers w !! p = Some x →
            Client.peers w' !! p
            = Some (if decide (S p = length (Client.peers w))
                    then Peer_destroy x else x)).
  { intros p x Hx. rewrite Hw'. unfold newest.
    apply lookup_lt_Some in Hx as Hlt.
    destruct (length (Client.peers w)) as [|n]; [lia|].
    destruct (decide (S p = S n)) as [[= ->]|Hne].
    - by rewrite list_lookup_alter_eq, Hx.
    - rewrite list_lookup_alter_ne by congruence. done. }
  assert (Hlen : length (Client.peers w') = length (Client.peers w)).
  { rewrite Hw'. destruct (newest (Client.peers w)); [|done]. apply length_alter. }
  assert (Hstate : Client.peer w' = None
                   ∨ ∃ p x, Client.peer w' = Some p
                            ∧ Client.peers w' !! p = Some x ∧ connected x = false).
  { rewrite Hpeer'. unfold newest. rewrite Hlen.
    destruct (length (Client.peers w)) as [|n] eqn:Hn; [by left|]. right.
    destruct (Client.peers w !! n) as [x|] eqn:Hx;
      [|apply lookup_ge_None in Hx; lia].
    exists n, (Peer_destroy x). split; [done|]. split; [|done].
    rewrite (Hlook n x Hx). by case_decide. }
  split; [|split; [done|split]].
  - intros Hnil. unfold Client.leaveRoom, Client.this_peer. js.
    rewrite Hpeer, Hnil. done.
  - unfold Client_Connected.
    destruct Hstate as [->|(p & x & -> & -> & Hc)]; done.
  - intros T message. unfold Client.send, Client.this_peer, Client.peer_send. js.
    destruct Hstate as [->|(p & x & -> & Hx & Hc)]; [by eexists|].
    rewrite Hx. simpl. unfold Peer_send. rewrite Hc. simpl. eexists. f_equal.
    rewrite list_insert_id by done. by destruct w'.
Qed.

(** ** More of the Host: closing the room *)

(** X18.  [closeRoom] destroys [this.socket] and nothing else.  In a state
    a Host reaches from its construction: with no [createRoom] made it
    throws and changes nothing; otherwise the socket opened last is
    destroyed, and a socket opened by an earlier [createRoom] is as it was,
    so it is not destroyed by it. *)
Theorem closeRoom_destroys_the_newest_socket_only server (evs : list Host.Event) :
  let w := Host.run policy evs (Host.new server) in
  let w' := Host.step policy w Host.CallCloseRoom in
  (Host.sockets w = [] →
   Host.closeRoom w = (Throw (TypeError "this.socket is undefined"), w))
  ∧ (Host.sockets w ≠ [] → completion Host.closeRoom w = Normal tt)
  ∧ ∀ s sock, Host.sockets w !! s = Some sock →
      Host.sockets w' !! s
      = Some (if decide (S s = length (Host.sockets w))
              then Socket_destroy sock else sock).
Proof.
  intros w w'.
  pose proof (Host_wired_reachable server evs) as Hw. fold w in Hw.
  destruct Hw as (Hsock & _ & _). unfold newest in Hsock.
  unfold w', Host.step, Host.deliver, completion, Host.closeRoom,
    Host.this_socket. js. rewrite Hsock.
  destruct (length (Host.sockets w)) as [|n] eqn:Hlen; simpl.
  - split; [done|]. split; [by destruct (Host.sockets w)|].
    intros s sock Hs%lookup_lt_Some. lia.
  - split; [intros Hnil; by rewrite Hnil in Hlen|]. split; [done|].
    intros s sock Hs. destruct (decide (S s = S n)) as [[= ->]|Hne].
    + by rewrite list_lookup_alter_eq, Hs.
    + rewrite list_lookup_alter_ne by congruence. done.
Qed.

(** ** The relay traffic *)

Lemma Client_step_sent (w : Client.World) (ev : Client.Event) rooms :
  on_signal <$> Client.peers w = (λ room, [Client.SendOffer room]) <$> rooms →
  (socket_connected (Client.socket (Client.step policy w ev)),
   socket_sent (Client.socket (Client.step policy w ev)),
   on_signal <$> Client.peers (Client.step policy w ev))
  = ((offers_step (socket_connected (Client.socket w),
                   socket_sent (Client.socket w), rooms) ev).1,
     (λ room, [Client.SendOffer room])
       <$> (offers_step (socket_connected (Client.socket w),
                         socket_sent (Client.socket w), rooms) ev).2).
Proof.
  intros Hrooms. f_equal.
  2:{ rewrite Client_step_signal_listeners, Hrooms.
      destruct ev; try done; simpl.
      - by rewrite fmap_app.
      - destruct (rooms !! p); [|done].
        by destruct (socket_connected (Client.socket w)). }
  set (view := λ w : Client.World,
         (socket_connected (Client.socket w), socket_sent (Client.socket w))).
  change (view (Client.step policy w ev)
          = (offers_step (view w, rooms) ev).1).
  assert (Hdrain : ∀ w', view (Client.drain w') = view w').
  { intros w'. rewrite Client_drain_run. by destruct (Client.peer w'). }
  unfold Client.step. rewrite Hdrain. destruct ev; unfold exec.
  - simpl. unfold Client.leaveRoom, Client.this_peer. js.
    by destruct (Client.peer w).
  - done.
  - unfold Client.deliver, mbind, JS_mbind, JS_bind. by rewrite joinRoom_run.
  - simpl. unfold Client.send, Client.this_peer, Client.peer_send. js.
    destruct (Client.peer w) as [p|]; simpl; [|done].
    by destruct (Client.peers w !! p).
  - simpl. js. apply (emit_preserves view).
    intros [] w' _. unfold Client.run_OnSocketData.
    destruct (JSON_parse (TextDecoder_decode data)) as [decoded|]; [|done].
    destruct (decide (type decoded = RoomJoined)).
    { unfold Client.resolve_roomJoined. simpl.
      by destruct (promise (Client.roomJoined w')). }
    by destruct (decide (type decoded = RequestAccepted)).
  - simpl. unfold Client.peer_listeners. js.
    assert (Hl : from_option on_signal [] (Client.peers w !! p)
                 = from_option (λ room, [Client.SendOffer room]) [] (rooms !! p)).
    { pose proof (f_equal (.!! p) Hrooms) as Hp. simpl in Hp.
      rewrite !list_lookup_fmap in Hp.
      destruct (Client.peers w !! p), (rooms !! p); simpl in *; congruence. }
    rewrite Hl. destruct (rooms !! p) as [room|]; cbn [from_option]; [|done].
    rewrite emit_one. unfold Client.run_OnPeerSignal.
    rewrite Client_socket_send_run. unfold view.
    by destruct (socket_connected (Client.socket w)) eqn:Hc; simpl; rewrite ?Hc.
  - rewrite Client_connect_deliver. rewrite (emit_preserves view); [done|].
    intros [j] w' _. rewrite run_OnPeerConnect_run.
    destruct (Client.peer w'); [|done].
    by destruct (Client.onMessageReceived w').
  - by rewrite Client_peer_data_run.
  - done.
  - done.
  - done.
  - done.
Qed.

Lemma Client_run_sent (evs : list Client.Event) (w : Client.World) rooms :
  on_signal <$> Client.peers w = (λ room, [Client.SendOffer room]) <$> rooms →
  (socket_connected (Client.socket (Client.run policy evs w)),
   socket_sent (Client.socket (Client.run policy evs w)))
  = (foldl offers_step
       (socket_connected (Client.socket w), socket_sent (Client.socket w), rooms)
       evs).1.
Proof.
  revert w rooms. induction evs as [|ev evs IH]; intros w rooms Hrooms; [done|].
  simpl. pose proof (Client_step_sent w ev rooms Hrooms) as Hstep.
  pose proof (f_equal fst Hstep) as Hsent. pose proof (f_equal snd Hstep) as Hsig.
  cbn [fst snd] in Hsent, Hsig.
  rewrite (IH _ _ Hsig), Hsent.
  by destruct (offers_step _ ev) as [[? ?] ?].
Qed.


Lemma Host_peer_send_traffic (w : Host.World) p chunk :
  Host_traffic (Host.peer_send p chunk w).2 = Host_traffic w.
Proof.
  unfold Host.peer_send. destruct (Host.peers w !! p) as [x|] eqn:Hp; [|done].
  unfold Host_traffic. simpl. rewrite list_fmap_insert.
  replace (peer_guest (Peer_send chunk x).2) with (peer_guest x)
    by (unfold Peer_send, peer_guest; by destruct (connected x)).
  rewrite list_insert_id; [done|]. by rewrite list_lookup_fmap, Hp.
Qed.

Lemma Host_send_traffic (w : Host.World) n chunk :
  Host.socket w = Some n →
  Host_traffic ((s ← Host.this_socket; Host.socket_send s chunk) w).2
  = (alter (try_send chunk) n
       ((λ s, (socket_connected s, socket_sent s)) <$> Host.sockets w),
     socket_on_connect <$> Host.sockets w, peer_guest <$> Host.peers w).
Proof.
  intros Hn. unfold Host.this_socket. js. rewrite Hn. simpl.
  rewrite socket_send_run. unfold Host_traffic.
  destruct (Host.sockets w !! n) as [x|] eqn:Hx.
  - assert (Hlook : ((λ s : Socket Host.OnSocketConnect Host.OnSocketData,
                        (socket_connected s, socket_sent s))
                     <$> Host.sockets w) !! n
                    = Some (socket_connected x, socket_sent x))
      by (by rewrite list_lookup_fmap, Hx).
    rewrite <-(insert_alter _ _ _ _ Hlook). unfold try_send. simpl.
    destruct (socket_connected x) eqn:Hc; simpl.
    + rewrite !list_fmap_insert. simpl. rewrite Hc. do 2 f_equal.
      rewrite list_insert_id; [done|]. by rewrite list_lookup_fmap, Hx.
    + by rewrite list_insert_id.
  - simpl. rewrite alter_None; [done|]. by rewrite list_lookup_fmap, Hx.
Qed.

Lemma Host_step_traffic (w : Host.World) (ev : Host.Event) :
  Host_inv w → Host_wired w →
  (∀ s l, (socket_on_connect <$> Host.sockets w) !! s = Some l →
          l = [Host.SendCreateRoom]) →
  Host_traffic (Host.step policy w ev)
  = ((relay_step ((λ s, (socket_connected s, socket_sent s)) <$> Host.sockets w,
                  peer_guest <$> Host.peers w) ev).1,
     match ev with
     | Host.CallCreateRoom =>
         ((socket_on_connect <$> Host.sockets w) ++ [[Host.SendCreateRoom]])%list
     | _ => socket_on_connect <$> Host.sockets w
     end,
     (relay_step ((λ s, (socket_connected s, socket_sent s)) <$> Host.sockets w,
                  peer_guest <$> Host.peers w) ev).2).
Proof.
  intros Hinv (Hsock & Hsome & Hwired) Hconnect.
  set (state := λ s : Socket Host.OnSocketConnect Host.OnSocketData,
         (socket_connected s, socket_sent s)).
  assert (Hnewest : ∀ w', Host.socket w' = Host.socket w →
            length (Host.sockets w') = length (Host.sockets w) →
            Host.sockets w ≠ [] →
            Host.socket w' = Some (length (state <$> Host.sockets w) - 1)).
  { intros w' -> _ Hne. rewrite Hsock, length_fmap. unfold newest.
    destruct (length (Host.sockets w)) as [|n] eqn:Hlen;
      [by destruct (Host.sockets w)|].
    f_equal. lia. }
  assert (Hsame : Host_traffic w
                  = (state <$> Host.sockets w,
                     socket_on_connect <$> Host.sockets w,
                     peer_guest <$> Host.peers w)) by done.
  unfold Host.step. destruct ev; [simpl (Host.deliver _ _)|js..].
  - rewrite createRoom_exec.
    unfold Host_traffic. simpl. by rewrite !fmap_app.
  - unfold Host.closeRoom, Host.this_socket. js.
    destruct (Host.socket w) as [n|] eqn:Hn; simpl.
    + unfold Host_traffic. simpl.
      rewrite (fmap_alter_same socket_on_connect) by done.
      rewrite (list_fmap_alter _ Socket_destroy
                 (λ s : bool * list string, (false, s.2)))
        by (by apply Forall_forall).
      do 3 f_equal. rewrite length_fmap.
      assert (Hn' : Some n = newest (Host.sockets w)) by congruence.
      unfold newest in Hn'.
      destruct (length (Host.sockets w)); [done|]. injection Hn' as ->. lia.
    + rewrite alter_None; [done|]. apply lookup_ge_None.
      assert (Hn' : None = newest (Host.sockets w)) by congruence.
      unfold newest in Hn'.
      rewrite length_fmap. by destruct (length (Host.sockets w)).
  - done.
  - done.
  - unfold Host.sendToAll. js. rewrite <-Hsame.
    apply (emit_preserves Host_traffic). intros. apply Host_peer_send_traffic.
  - unfold Host.sendTo. js.
    destruct (Map_has clientId (Host.connections w)); simpl; [|done].
    destruct (Map_get clientId (Host.connections w)); simpl; [|done].
    apply Host_peer_send_traffic.
  - (* the socket is connected *)
    unfold Host.socket_listeners. js. rewrite list_lookup_alter_eq.
    destruct (Host.sockets w !! s) as [sock|] eqn:Hs; simpl.
    + rewrite (Hconnect s (socket_on_connect sock))
        by (by rewrite list_lookup_fmap, Hs).
      apply lookup_lt_Some in Hs as Hlt.
      rewrite decide_True by (by rewrite length_fmap).
      assert (Hne : Host.sockets w ≠ [])
        by (intros Hnil; rewrite Hnil in Hlt; simpl in Hlt; lia).
      rewrite emit_one. unfold Host.run_OnSocketConnect. cbv zeta.
      rewrite (Host_send_traffic _ _ (JSON_stringify CreateRoomRequest)
                 (Hnewest (Host.set_sockets
                             (alter Socket_open s (Host.sockets w)) w)
                    eq_refl ltac:(simpl; by rewrite length_alter) Hne)).
      simpl. rewrite (fmap_alter_same socket_on_connect) by done.
      by rewrite (list_fmap_alter _ Socket_open
                    (λ s : bool * list string, (true, s.2)))
        by (by apply Forall_forall).
    + apply lookup_ge_None in Hs.
      rewrite decide_False by (rewrite length_fmap; lia).
      unfold Host_traffic. simpl. by rewrite alter_None by (by apply lookup_ge_None).
  - (* a message of the relay *)
    rewrite length_fmap. unfold Host.socket_listeners. js.
    destruct (Host.sockets w !! s) as [sock|] eqn:Hs; simpl.
    + destruct Hinv as (Hdata & _).
      rewrite (Hdata s (socket_on_data sock))
        by (by rewrite list_lookup_fmap, Hs).
      apply lookup_lt_Some in Hs as Hlt. simpl. js.
      destruct (JSON_parse (TextDecoder_decode data)) as [decoded|]; simpl;
        [|done].
      destruct (decide (type decoded = RoomCreated)).
      { rewrite decide_False by (intros (_ & ? & _); done).
        unfold Host.resolve_roomCreated. simpl.
        by destruct (ManagedPromise_resolve policy (room decoded)
                       (Host.roomCreated w)).1. }
      destruct (decide (type decoded = GuestRequest)).
      { rewrite decide_True by done. rewrite registerGuest_run. simpl.
        unfold Host_traffic. simpl. rewrite fmap_app. simpl.
        do 3 f_equal. unfold peer_guest, Peer_signal. simpl.
        by destruct (is_descriptor (offer decoded)). }
      rewrite (decide_False (P := _ ∧ _)) by (intros (_ & _ & ?); done).
      by destruct (decide (type decoded = RequestAccepted)).
    + apply lookup_ge_None in Hs.
      destruct (JSON_parse (TextDecoder_decode data)) as [decoded|]; [|done].
      rewrite decide_False; [done|]. intros [? _]. lia.
  - (* a peer has its answer *)
    unfold Host.peer_listeners. js. rewrite list_lookup_fmap.
    destruct (Host.peers w !! p) as [x|] eqn:Hx; simpl; [|done].
    destruct (Hwired p x Hx) as (request & _ & _ & _ & _ & Hsig & Hcon).
    rewrite Hsig.
    assert (Hne : Host.sockets w ≠ []).
    { apply Hsome. intros Hnil. by rewrite Hnil in Hx. }
    replace (peer_guest x) with (client request)
      by (unfold peer_guest; by rewrite Hcon).
    rewrite emit_one. unfold Host.run_OnPeerSignal. cbv zeta.
    apply (Host_send_traffic w _
             (JSON_stringify (AddToRoomRequest id (client request)))
             (Hnewest w eq_refl eq_refl Hne)).
  - (* the channel of a peer opens *)
    unfold Host.peer_listeners. js.
    rewrite (emit_preserves Host_traffic).
    + unfold Host_traffic. simpl. by rewrite fmap_alter_same.
    + intros [request newPeer] w' _.
      unfold Host.run_OnPeerConnect, Host.call_guestJoinedCallback. js.
      destruct (Host.guestJoinedCallback w'); simpl; [|done].
      unfold Host_traffic. simpl. by rewrite fmap_alter_same.
  - unfold Host.peer_listeners. js. rewrite <-Hsame.
    apply (emit_preserves Host_traffic). intros [] w' _.
    unfold Host.run_OnPeerData, Host.call_onMessageReceived.
    by destruct (Host.onMessageReceived w').
  - (* the channel of a peer closes *)
    unfold Host_traffic. simpl. by rewrite fmap_alter_same.
Qed.

Lemma Host_run_traffic (evs : list Host.Event) (w : Host.World) :
  Host_inv w → Host_wired w →
  (∀ s l, (socket_on_connect <$> Host.sockets w) !! s = Some l →
          l = [Host.SendCreateRoom]) →
  (λ s, (socket_connected s, socket_sent s))
    <$> Host.sockets (Host.run policy evs w)
  = (foldl relay_step
       ((λ s, (socket_connected s, socket_sent s)) <$> Host.sockets w,
        peer_guest <$> Host.peers w) evs).1.
Proof.
  revert w. induction evs as [|ev evs IH]; intros w Hinv Hwired Hconnect; [done|].
  simpl. pose proof (Host_step_traffic w ev Hinv Hwired Hconnect) as Hstep.
  unfold Host_traffic in Hstep.
  pose proof (f_equal (λ v, v.1.1) Hstep) as Hsent.
  pose proof (f_equal (λ v, v.1.2) Hstep) as Hlisten.
  pose proof (f_equal snd Hstep) as Hguests.
  cbn [fst snd] in Hsent, Hlisten, Hguests.
  rewrite IH.
  - rewrite Hsent, Hguests.
    by destruct (relay_step _ ev).
  - by apply Host_inv_step.
  - by apply Host_wired_step.
  - rewrite Hlisten. intros s l Hl.
    destruct ev; try (by eapply Hconnect).
    apply lookup_app_Some in Hl as [Hold|[_ Hnew]]; [by eapply Hconnect|].
    by apply list_lookup_singleton_Some in Hnew as [_ <-].
Qed.


(** X21.  Once [this.roomJoined] holds an answer the relay has no effect
    on the Client any more: in a state a Client reaches from its
    construction with the answer held, a message of the relay, whatever it
    is, leaves the whole state as it was.  A later RoomJoined message
    neither replaces the answer nor signals any peer again. *)
Theorem relay_data_after_the_answer_changes_nothing server
    (evs : list Client.Event) (data : BufferSource) stored :
  let w := Client.run policy evs (Client.new server) in
  promise (Client.roomJoined w) = Some stored →
  Client.step policy w (Client.SocketData data) = w.
Proof.
  intros w Hstored.
  pose proof (Client_inv_reachable server evs) as Hinv. fold w in Hinv.
  clearbody w. destruct Hinv as (Hjobs & _ & _ & Hdata & _).
  unfold Client.step. rewrite Client_data_exec by done. rewrite Hstored.
  assert (Hidle := Client_drain_idle w Hjobs).
  destruct (JSON_parse (TextDecoder_decode data)) as [decoded|]; [|done].
  by destruct (decide (type decoded = RoomJoined)).
Qed.

(** X22.  The ['connect'] listener of [joinRoom] reaches [resolve()] only
    when a message callback is set.  Take a Client in any state it
    reaches from its construction, at instant [now], and call [joinRoom]:
    it returns a new timed promise, due at [now + 30000], and [this.peer]
    is a new peer.  Whatever calls and events follow: if the first
    ['connect'] event of that peer that comes while a message callback is
    set comes at an instant before [now + 30000], the promise is
    fulfilled; if that peer has no such event up to and including the
    instant [now + 30000] and more than 30000 ms go by, the promise is
    rejected with [Timeout].  (At the very instant [now + 30000] the one
    of the ['connect'] event and the timer that the runtime takes first
    decides.) *)
Theorem joinRoom_settles_by_heard_connect server (pre : list Client.Event)
    (room : string) (evs : list Client.Event) :
  let w0 := Client.run policy pre (Client.new server) in
  let p := length (Client.peers w0) in
  let k := length (Client.timed w0) in
  let w1 := Client.step policy w0 (Client.CallJoinRoom room) in
  let w := Client.run policy evs w1 in
  let listening := bool_decide (is_Some (Client.onMessageReceived w0)) in
  completion (Client.joinRoom room) w0 = Normal k
  ∧ Client.peer w1 = Some p
  ∧ Client.timed w1 !! k
    = Some {| deadline := Client.now w0 + 30000; settlement := None |}
  ∧ (∀ t, first_connect p listening (Client.now w0) evs = Some t →
          (t < Client.now w0 + 30000)%N →
          settlement <$> Client.timed w !! k = Some (Some Fulfilled))
  ∧ ((∀ t, first_connect p listening (Client.now w0) evs = Some t →
           (Client.now w0 + 30000 < t)%N) →
     (30000 < elapsed evs)%N →
     settlement <$> Client.timed w !! k = Some (Some (Rejected Timeout))).
Proof.
  intros w0 p k w1 w listening.
  destruct (joinRoom_promise server pre room evs) as (Hc & Hp & Hk & Hrun).
  fold w0 p k w1 w listening in Hc, Hp, Hk, Hrun.
  split; [done|]. split; [done|]. split; [done|]. rewrite Hrun. simpl. split.
  - intros t Hf Ht. f_equal. by eapply promise_fulfilled.
  - intros Hf He. f_equal. apply promise_timed_out; simpl; [done|lia|done|lia].
Qed.

End Properties.

(** * The statements at work on the sample platform *)

Section Samples.
#[local] Existing Instance sample_platform.

Lemma unknown_discriminant_is_fatal_witness :
  @Host.deliver sample_platform IsNoOp (@Host.SocketData sample_platform 0 "Ping:now") sample_host
  = (Throw (ThrowString "Unknown event received: {}"), sample_host)
  ∧ @Client.deliver sample_platform IsNoOp (@Client.SocketData sample_platform "Ping:now") sample_client
    = (Throw (ThrowString "Unknown event received: {}"), sample_client).
Proof.
  destruct (@unknown_discriminant_is_fatal sample_platform IsNoOp "Ping:now"
              {| type := "Ping"; room := "now"; offer := "now";
                 client := "now"; answer := "now" |} eq_refl) as [HH HC].
  split.
  - eapply (HH ltac:(discriminate) ltac:(discriminate) ltac:(discriminate)
              sample_host 0); [reflexivity|discriminate].
  - apply (HC ltac:(discriminate) ltac:(discriminate) sample_client).
    discriminate.
Defined.

Lemma sendTo_unknown_client_witness :
  Host.sendTo "mallory" "hello" sample_host
  = (Throw (ThrowError "Cannot send message to unregisted client: mallory"),
     sample_host).
Proof.
  apply (sendTo_unknown_client sample_host "mallory" "hello").
  vm_compute. intros Hin. repeat (inversion Hin as [|? ? ? Hin']; clear Hin;
                                  rename Hin' into Hin).
Defined.

Lemma RequestAccepted_changes_nothing_witness :
  @Host.deliver sample_platform IsNoOp
    (@Host.SocketData sample_platform 0 "RequestAccepted:") sample_host
  = (Normal tt, sample_host)
  ∧ Client.step IsNoOp sample_client
      (@Client.SocketData sample_platform "RequestAccepted:")
    = sample_client.
Proof.
  destruct (@RequestAccepted_changes_nothing sample_platform IsNoOp
              "RequestAccepted:"
              {| type := "RequestAccepted"; room := EmptyString;
                 offer := EmptyString; client := EmptyString;
                 answer := EmptyString |}
              ltac:(discriminate) ltac:(discriminate) ltac:(discriminate)
              eq_refl eq_refl) as [HH HC].
  split; [apply HH|]. apply HC. vm_compute. reflexivity.
Defined.

Lemma all_guests_registered_witness :
  Map_keys (Host.connections sample_host) ≡ₚ ["alice"; "bob"]
  ∧ length (Host.connections sample_host) = 2
  ∧ sent <$> Host.peers (exec (Host.sendToAll "hello") sample_host)
    = [["{}"]; ["{}"]].
Proof.
  pose proof (@all_guests_registered sample_platform IsNoOp
                "wss://relay.example" sample_guests) as Hthm.
  cbv zeta in Hthm.
  assert (Hdistinct : NoDup (requested 0 sample_guests)).
  { vm_compute. apply NoDup_cons. split; [|apply NoDup_singleton].
    intros Hin. repeat (inversion Hin as [|? ? ? Hin']; clear Hin;
                        rename Hin' into Hin). }
  assert (Hconnected : Forall (λ x, connected x = true)
                         (Host.peers (Host.run IsNoOp sample_guests
                                        (Host.new "wss://relay.example")))).
  { vm_compute. by repeat constructor. }
  destruct (Hthm Hdistinct Hconnected) as (_ & Hkeys & Hlength & _ & Hsend).
  split; [|split].
  - vm_compute in Hkeys. vm_compute. exact Hkeys.
  - vm_compute in Hlength. vm_compute. exact Hlength.
  - unfold exec, sample_host. rewrite Hsend. vm_compute. reflexivity.
Defined.

Lemma joinRoom_times_out_without_callback_witness :
  (30000 < elapsed sample_unbound)%N
  ∧ first_connect 0 true 0 sample_unbound = Some 1000%N
  ∧ settlement
      <$> Client.timed
            (Client.run IsNoOp sample_unbound
               (Client.step IsNoOp
                  (Client.run IsNoOp [Client.SocketConnect]
                     (Client.new "wss://relay.example"))
                  (Client.CallJoinRoom "ABC123"))) !! 0
    = Some (Some (Rejected Timeout)).
Proof.
  pose proof (@joinRoom_times_out_without_callback sample_platform IsNoOp
                "wss://relay.example" [Client.SocketConnect] "ABC123"
                sample_unbound) as Hthm.
  cbv zeta in Hthm.
  assert (He : (30000 < elapsed sample_unbound)%N) by (by vm_compute).
  destruct (Hthm eq_refl eq_refl He) as (_ & _ & _ & _ & Hout).
  split; [exact He|]. split; [reflexivity|exact Hout].
Defined.



Lemma joinRoom_settles_by_heard_connect_witness :
  settlement
    <$> Client.timed
          (Client.run IsNoOp sample_connects
             (Client.step IsNoOp
                (Client.run IsNoOp sample_listening
                   (Client.new "wss://relay.example"))
                (Client.CallJoinRoom "ABC123"))) !! 0
  = Some (Some Fulfilled)
  ∧ settlement
      <$> Client.timed
            (Client.run IsNoOp sample_silence
               (Client.step IsNoOp
                  (Client.run IsNoOp sample_listening
                     (Client.new "wss://relay.example"))
                  (Client.CallJoinRoom "ABC123"))) !! 0
    = Some (Some (Rejected Timeout)).
Proof.
  split.
  - pose proof (@joinRoom_settles_by_heard_connect sample_platform IsNoOp
                  "wss://relay.example" sample_listening
                  "ABC123" sample_connects) as Hthm.
    cbv zeta in Hthm. destruct Hthm as (_ & _ & _ & Hin & _).
    apply (Hin 29999%N); [reflexivity|]. by vm_compute.
  - pose proof (@joinRoom_settles_by_heard_connect sample_platform IsNoOp
                  "wss://relay.example" sample_listening
                  "ABC123" sample_silence) as Hthm.
    cbv zeta in Hthm. destruct Hthm as (_ & _ & _ & _ & Hout).
    apply Hout; [|by vm_compute]. intros t [= <-]. by vm_compute.
Defined.

Lemma send_needs_connected_witness :
  Client.send "hello" (@Client.new sample_platform "wss://relay.example")
  = (Throw (TypeError "this.peer is undefined"),
     @Client.new sample_platform "wss://relay.example")
  ∧ ∃ p x, Client.peer sample_client = Some p
           ∧ Client.peers sample_client !! p = Some x
           ∧ Client.send "hello" sample_client
             = (Normal tt,
                Client.set_peers
                  (<[p := with_sent "{}" x]> (Client.peers sample_client))
                  sample_client).
Proof.
  destruct (@send_needs_connected sample_platform string "hello"
              (Client.new "wss://relay.example")) as (Hundefined & _).
  destruct (@send_needs_connected sample_platform string "hello" sample_client)
    as (_ & _ & Hconnected).
  split; [by apply Hundefined|]. apply Hconnected. vm_compute. reflexivity.
Defined.

Lemma malformed_relay_data_is_thrown_witness :
  @Host.deliver sample_platform IsNoOp
    (@Host.SocketData sample_platform 0 "garbage") sample_host
  = (Throw SyntaxError, sample_host)
  ∧ @Client.deliver sample_platform IsNoOp
      (@Client.SocketData sample_platform "garbage") sample_client
    = (Throw SyntaxError, sample_client).
Proof.
  destruct (@malformed_relay_data_is_thrown sample_platform IsNoOp "garbage"
              eq_refl) as [HH HC].
  split.
  - eapply (HH sample_host 0); [reflexivity|discriminate].
  - apply HC. discriminate.
Defined.

Lemma registered_client_stays_registered_witness :
  "alice" ∈ Map_keys
              (Host.connections
                 (Host.run IsNoOp [Host.PeerClose 0; Host.CallCloseRoom]
                    sample_host)).
Proof.
  assert (Hin : "alice" ∈ Map_keys (Host.connections sample_host)).
  { vm_compute. right. left. }
  exact (proj1 (@registered_client_stays_registered sample_platform IsNoOp
                  sample_host [Host.PeerClose 0; Host.CallCloseRoom]
                  "alice" Hin)).
Defined.

Lemma sendTo_reaches_the_client_witness :
  (∃ x, Host.peers sample_host !! 0 = Some x
        ∧ peer_guest x = "alice"
        ∧ Host.sendTo "alice" "hello" sample_host
          = if connected x
            then (Normal tt,
                  Host.set_peers
                    (<[0 := with_sent "{}" x]> (Host.peers sample_host))
                    sample_host)
            else (Throw NotConnected, sample_host))
  ∧ completion (Host.sendTo "alice" "hello") sample_host = Normal tt
  ∧ completion (Host.sendTo "alice" "hello")
      (Host.run IsNoOp sample_left (Host.new "wss://relay.example"))
    = Throw NotConnected.
Proof.
  pose proof (@sendTo_reaches_the_client sample_platform IsNoOp
                "wss://relay.example" sample_guests "alice" 0 string "hello")
    as Hthm.
  cbv zeta in Hthm.
  assert (Hget : Map_get "alice"
                   (Host.connections
                      (Host.run IsNoOp sample_guests
                         (Host.new "wss://relay.example"))) = Some 0).
  { vm_compute. reflexivity. }
  split; [exact (Hthm Hget)|]. split; vm_compute; reflexivity.
Defined.

Lemma connect_registers_under_own_client_witness :
  Map_get "alice"
    (Host.connections
       (Host.step IsNoOp
          (Host.run IsNoOp sample_again (Host.new "wss://relay.example"))
          (Host.PeerConnect 2))) = Some 2
  ∧ Map_keys
      (Host.connections
         (Host.step IsNoOp
            (Host.run IsNoOp sample_again (Host.new "wss://relay.example"))
            (Host.PeerConnect 2))) = ["bob"; "alice"].
Proof.
  assert (Hx : ∃ x, Host.peers
                      (Host.run IsNoOp sample_again
                         (Host.new "wss://relay.example")) !! 2 = Some x
                    ∧ peer_guest x = "alice").
  { vm_compute. eexists. split; reflexivity. }
  destruct Hx as (x & Hx & Hg).
  pose proof (@connect_registers_under_own_client sample_platform IsNoOp
                "wss://relay.example" sample_again 2 x) as Hthm.
  cbv zeta in Hthm. specialize (Hthm Hx). rewrite Hg in Hthm.
  destruct Hthm as (Hget & _ & Hkeys). split; [exact Hget|].
  rewrite Hkeys. vm_compute. reflexivity.
Defined.

Lemma connect_without_guest_callback_witness :
  completion (Host.deliver IsNoOp (Host.PeerConnect 0))
    (Host.run IsNoOp sample_unheard (Host.new "wss://relay.example"))
  = Throw (TypeError "this.guestJoinedCallback is not a function")
  ∧ Host.calls
      (Host.step IsNoOp
         (Host.step IsNoOp
            (Host.step IsNoOp
               (Host.run IsNoOp sample_unheard (Host.new "wss://relay.example"))
               (Host.PeerConnect 0))
            (Host.CallListenForMessages 2))
         (@Host.PeerData sample_platform 0 "hello"))
    = [].
Proof.
  assert (Hx : ∃ x, Host.peers
                      (Host.run IsNoOp sample_unheard
                         (Host.new "wss://relay.example")) !! 0 = Some x
                    ∧ connected x = false).
  { vm_compute. eexists. split; reflexivity. }
  destruct Hx as (x & Hx & Hc).
  pose proof (@connect_without_guest_callback sample_platform IsNoOp
                "wss://relay.example" sample_unheard 0 x) as Hthm.
  cbv zeta in Hthm.
  assert (Hcb : Host.guestJoinedCallback
                  (Host.run IsNoOp sample_unheard
                     (Host.new "wss://relay.example")) = None).
  { vm_compute. reflexivity. }
  destruct (Hthm Hx Hc Hcb) as (Hthrow & _ & _ & _ & Hcalls).
  split; [exact Hthrow|]. exact (Hcalls 2 "hello").
Defined.

Lemma answer_goes_out_on_the_newest_socket_witness :
  ∃ s sock,
    Host.socket (Host.run IsNoOp sample_requests (Host.new "wss://relay.example"))
    = Some s
    ∧ Host.sockets
        (Host.run IsNoOp sample_requests (Host.new "wss://relay.example")) !! s
      = Some sock
    ∧ Host.deliver IsNoOp (Host.PeerSignal 1 "sdp-answer-for-bob")
        (Host.run IsNoOp sample_requests (Host.new "wss://relay.example"))
      = if socket_connected sock
        then (Normal tt,
              Host.set_sockets
                (<[s := socket_with_sent "{}" sock]>
                   (Host.sockets
                      (Host.run IsNoOp sample_requests
                         (Host.new "wss://relay.example"))))
                (Host.run IsNoOp sample_requests
                   (Host.new "wss://relay.example")))
        else (Throw NotConnected,
              Host.run IsNoOp sample_requests (Host.new "wss://relay.example")).
Proof.
  assert (Hx : ∃ x, Host.peers
                      (Host.run IsNoOp sample_requests
                         (Host.new "wss://relay.example")) !! 1 = Some x).
  { vm_compute. eexists. reflexivity. }
  destruct Hx as (x & Hx).
  pose proof (@answer_goes_out_on_the_newest_socket sample_platform IsNoOp
                "wss://relay.example" sample_requests 1 x "sdp-answer-for-bob")
    as Hthm.
  cbv zeta in Hthm. specialize (Hthm Hx).
  destruct Hthm as (s & sock & Hsocket & _ & Hsock & Hrun).
  exists s, sock. split; [exact Hsocket|]. split; [exact Hsock|]. exact Hrun.
Defined.

Lemma guest_peer_is_fed_its_offer_once_witness :
  ∃ x, Host.peers sample_host !! 1 = Some x
       ∧ initiator x = false ∧ trickle x = false
       ∧ ∃ request,
           signalled x
           = (if String.prefix "sdp" (offer request) then [offer request]
              else [])
           ∧ (String.prefix "sdp" (offer request) = false → destroyed x = true)
           ∧ on_connect x = [Host.Register request 1]
           ∧ on_signal x = [Host.SendAnswer request].
Proof.
  unfold sample_host.
  assert (Hx : ∃ x, Host.peers
                      (Host.run IsNoOp sample_guests
                         (Host.new "wss://relay.example")) !! 1 = Some x).
  { vm_compute. eexists. reflexivity. }
  destruct Hx as (x & Hx). exists x. split; [exact Hx|].
  exact (@guest_peer_is_fed_its_offer_once sample_platform IsNoOp
           "wss://relay.example" sample_guests 1 x Hx).
Defined.

Lemma answer_signals_the_newest_peer_witness :
  ∃ x, Client.peers
         (Client.run IsNoOp sample_twice (Client.new "wss://relay.example")) !! 1
       = Some x
       ∧ Client.peers
           (Client.step IsNoOp
              (Client.run IsNoOp sample_twice (Client.new "wss://relay.example"))
              (@Client.SocketData sample_platform "RoomJoined:sdp")) !! 1
         = Some (with_signalled ["sdp"; "sdp"] x).
Proof.
  assert (Hx : ∃ x, Client.peers
                      (Client.run IsNoOp sample_twice
                         (Client.new "wss://relay.example")) !! 1 = Some x
                    ∧ destroyed x = false).
  { vm_compute. eexists. split; reflexivity. }
  destruct Hx as (x & Hx & Hd). exists x. split; [exact Hx|].
  pose proof (@answer_signals_the_newest_peer sample_platform IsNoOp
                "wss://relay.example" sample_twice "RoomJoined:sdp"
                {| type := "RoomJoined"; room := "sdp"; offer := "sdp";
                   client := "sdp"; answer := "sdp" |}) as Hthm.
  cbv zeta in Hthm.
  assert (Hnone : promise
                    (Client.roomJoined
                       (Client.run IsNoOp sample_twice
                          (Client.new "wss://relay.example"))) = None).
  { vm_compute. reflexivity. }
  destruct (Hthm eq_refl eq_refl Hnone) as (_ & _ & Hlook & Hgood).
  rewrite (Hlook 1 x Hx), (Hgood x Hd). reflexivity.
Defined.

Lemma joinRoom_after_the_answer_reuses_it_witness :
  signalled
    <$> Client.peers
          (Client.step IsNoOp
             (Client.run IsNoOp sample_answered (Client.new "wss://relay.example"))
             (Client.CallJoinRoom "XYZ789")) !! 1
  = Some ["sdp"].
Proof.
  pose proof (@joinRoom_after_the_answer_reuses_it sample_platform IsNoOp
                "wss://relay.example" sample_answered "XYZ789" "sdp") as Hthm.
  cbv zeta in Hthm.
  assert (Hstored : promise
                      (Client.roomJoined
                         (Client.run IsNoOp sample_answered
                            (Client.new "wss://relay.example"))) = Some "sdp").
  { vm_compute. reflexivity. }
  destruct (Hthm Hstored) as [_ Hpeers]. rewrite Hpeers.
  vm_compute. reflexivity.
Defined.

Lemma connect_after_settlement_still_connects_witness :
  Client.timed
    (Client.step IsNoOp
       (Client.run IsNoOp sample_timed_out (Client.new "wss://relay.example"))
       (Client.PeerConnect 0)) !! 0
  = Some {| deadline := 30000; settlement := Some (Rejected Timeout) |}
  ∧ Client_Connected
      (Client.step IsNoOp
         (Client.run IsNoOp sample_timed_out (Client.new "wss://relay.example"))
         (Client.PeerConnect 0)) = true.
Proof.
  assert (Hx : ∃ x, Client.peers
                      (Client.run IsNoOp sample_timed_out
                         (Client.new "wss://relay.example")) !! 0 = Some x
                    ∧ on_connect x = [Client.Connected 0]).
  { vm_compute. eexists. split; reflexivity. }
  destruct Hx as (x & Hx & Hl).
  pose proof (@connect_after_settlement_still_connects sample_platform IsNoOp
                (Client.run IsNoOp sample_timed_out
                   (Client.new "wss://relay.example"))
                0 x 0
                {| deadline := 30000; settlement := Some (Rejected Timeout) |}
                (Rejected Timeout)) as Hthm.
  cbv zeta in Hthm.
  assert (Hpeer : Client.peer
                    (Client.run IsNoOp sample_timed_out
                       (Client.new "wss://relay.example")) = Some 0).
  { vm_compute. reflexivity. }
  assert (Hk : Client.timed
                 (Client.run IsNoOp sample_timed_out
                    (Client.new "wss://relay.example")) !! 0
               = Some {| deadline := 30000;
                         settlement := Some (Rejected Timeout) |}).
  { vm_compute. reflexivity. }
  assert (Hjobs : Client.jobs
                    (Client.run IsNoOp sample_timed_out
                       (Client.new "wss://relay.example")) = []).
  { vm_compute. reflexivity. }
  destruct (Hthm Hjobs Hpeer Hx Hl Hk eq_refl) as (Htimed & Hconnected & _).
  split; [exact Htimed|exact Hconnected].
Defined.

Lemma relay_data_after_the_answer_changes_nothing_witness :
  Client.step IsNoOp
    (Client.run IsNoOp sample_answered (Client.new "wss://relay.example"))
    (@Client.SocketData sample_platform "RoomJoined:another")
  = Client.run IsNoOp sample_answered (Client.new "wss://relay.example").
Proof.
  pose proof (@relay_data_after_the_answer_changes_nothing sample_platform
                IsNoOp "wss://relay.example" sample_answered
                "RoomJoined:another" "sdp") as Hthm.
  cbv zeta in Hthm. apply Hthm. vm_compute. reflexivity.
Defined.

End Samples.
